(** * stream-html-ai: the node store, the tool dispatcher and the two
      incremental parsers, embedded in Rocq.

    The embedding follows the JavaScript sources:
    - [DOMManager] (dom-manager.js): the element map and its operations;
    - [Tools] (tools.js): the five tool functions [h], [updateElement],
      [setText], [appendText], [removeElement];
    - [ToolCallHandler] (tool-handler.js): [executeToolCall] and
      [executeToolCalls];
    - [IncrementalCommandParser] (incremental-command-parser.js);
    - [IncrementalTextParser] (incremental-text-parser.js);
    - [StreamProcessor] (stream-processor.js): the batches of
      [flushPendingToolCalls];
    - [IncrementalRenderer] (incremental-renderer.js): [processChunk] and
      [flush].

    JavaScript exceptions are explicit: a computation over a state [S] is a
    function [S -> S * Outcome A], and a [Throw] keeps the mutations made
    before it, as a thrown exception does.  What the sources take from the
    host (JSON.parse, the DOM, the clock and random source, the depth of the
    call stack) is gathered in the record [Platform].

    Conventions: a JavaScript string is a Rocq string, a number an integer;
    the element Map is a [gmap] keyed by strings and a child Set a list in
    insertion order; a DOM node is the record of what the store reads and
    writes of it. *)

From Stdlib Require Import String Ascii ZArith List Bool Lia.
From stdpp Require Import base option gmap strings list pretty.

Set Warnings "-register-all,-clear-no-such-hyp".
Local Open Scope string_scope.
Local Open Scope list_scope.

(** ** JavaScript values *)

(** The values an instruction is made of: what JSON.parse can produce, plus
    [undefined].  Numbers are restricted to integers (no instruction field of
    the sources is used arithmetically); strings are Rocq strings. *)
Inductive JsVal : Type :=
| JUndefined
| JNull
| JBool (b : bool)
| JNum (n : Z)
| JStr (s : string)
| JArr (items : list JsVal)
| JObj (fields : list (string * JsVal)).

(** [!!v] of JavaScript. *)
Definition truthy (v : JsVal) : bool :=
  match v with
  | JUndefined | JNull => false
  | JBool b => b
  | JNum n => negb (n =? 0)%Z
  | JStr s => negb (String.eqb s "")
  | JArr _ | JObj _ => true
  end.

(** [a || b] of JavaScript. *)
Definition js_or (a b : JsVal) : JsVal := if truthy a then a else b.

(** [typeof v === 'string'] and [typeof v === 'object']. *)
Definition is_string (v : JsVal) : bool :=
  match v with JStr _ => true | _ => false end.

Definition typeof_object (v : JsVal) : bool :=
  match v with JNull | JArr _ | JObj _ => true | _ => false end.

Definition is_array (v : JsVal) : bool :=
  match v with JArr _ => true | _ => false end.

(** [v === 's'] for a string literal [s]. *)
Definition strict_eq_str (v : JsVal) (s : string) : bool :=
  match v with JStr t => String.eqb t s | _ => false end.

Fixpoint join_with (sep : string) (l : list string) : string :=
  match l with
  | [] => ""
  | [x] => x
  | x :: rest => x ++ sep ++ join_with sep rest
  end.

(** [String(v)]: also the conversion of a template literal and of a property
    key. *)
Fixpoint js_String (v : JsVal) : string :=
  match v with
  | JUndefined => "undefined"
  | JNull => "null"
  | JBool true => "true"
  | JBool false => "false"
  | JNum n => pretty n
  | JStr s => s
  | JArr items =>
      join_with ","
        (map (fun x => match x with
                       | JUndefined | JNull => ""
                       | _ => js_String x
                       end) items)
  | JObj _ => "[object Object]"
  end.

Fixpoint assoc_get {A} (k : string) (l : list (string * A)) : option A :=
  match l with
  | [] => None
  | (k', v) :: rest => if String.eqb k' k then Some v else assoc_get k rest
  end.

Fixpoint assoc_set {A} (k : string) (v : A) (l : list (string * A))
  : list (string * A) :=
  match l with
  | [] => [(k, v)]
  | (k', v') :: rest =>
      if String.eqb k' k then (k, v) :: rest else (k', v') :: assoc_set k v rest
  end.

(** ** Exceptions and outcomes *)

Inductive JsError : Type :=
| Error (msg : string)
| TypeError (msg : string)
| RangeError (msg : string)
| DOMException (msg : string).

(** [error.message]. *)
Definition message (e : JsError) : string :=
  match e with
  | Error m | TypeError m | RangeError m | DOMException m => m
  end.

Inductive Outcome (A : Type) : Type :=
| Return (a : A)
| Throw (e : JsError).
Arguments Return {A} a.
Arguments Throw {A} e.

(** Computations that read and write a state [S] and may throw. *)
Definition M (S A : Type) : Type := S -> S * Outcome A.

Definition ret {S A} (a : A) : M S A := fun s => (s, Return a).
Definition throw {S A} (e : JsError) : M S A := fun s => (s, Throw e).
Definition bind {S A B} (m : M S A) (k : A -> M S B) : M S B :=
  fun s => match m s with
           | (s', Return a) => k a s'
           | (s', Throw e) => (s', Throw e)
           end.
Definition get_state {S} : M S S := fun s => (s, Return s).
Definition put_state {S} (s : S) : M S unit := fun _ => (s, Return tt).
(** [try { m } catch (error) { handler error }]. *)
Definition try_catch {S A} (m : M S A) (handler : JsError -> M S A) : M S A :=
  fun s => match m s with
           | (s', Return a) => (s', Return a)
           | (s', Throw e) => handler e s'
           end.
(** An outcome computed without touching the state. *)
Definition lift_outcome {S A} (o : Outcome A) : M S A := fun s => (s, o).

Declare Scope js_scope.
Delimit Scope js_scope with js.
Notation "'let!' x ':=' m 'in' k" := (bind m (fun x => k))
  (at level 10, x name, m at level 100, k at level 200) : js_scope.
Notation "'do!' m 'in' k" := (bind m (fun _ => k))
  (at level 10, m at level 100, k at level 200) : js_scope.
Local Open Scope js_scope.

(** [v.k]: reading a property throws on [null] and [undefined]; a property
    that is absent reads as [undefined].  Only object fields are properties
    here (no field name used by the sources is a built-in property of a
    string, number or array). *)
Definition get_prop (v : JsVal) (k : string) : Outcome JsVal :=
  match v with
  | JUndefined | JNull =>
      Throw (TypeError ("Cannot read properties of " ++ js_String v))
  | JObj fields => Return (default JUndefined (assoc_get k fields))
  | _ => Return JUndefined
  end.

(** ** The host platform *)

Record Platform : Type := {
  (** [JSON.parse]: [None] when it raises SyntaxError. *)
  JSON_parse : string -> option JsVal;
  (** the string [generateId()] returns on its n-th call (built from
      Date.now() and Math.random() in the source). *)
  generateId : nat -> string;
  (** whether [document.createElement(tagName)] accepts the name. *)
  validElementName : string -> bool;
  (** whether [node.setAttribute(key, _)] accepts the name. *)
  validAttributeName : string -> bool;
  (** the text content of a node after [node.innerHTML = html]. *)
  innerHTML_text : JsVal -> string;
  (** how many nested calls of [removeElement] the call stack holds before
      the engine raises RangeError. *)
  stack_depth : nat;
  (** calling a member that [boundTools] inherits from Object.prototype
      with the given arguments. *)
  call_inherited : string -> list JsVal -> Outcome JsVal
}.

(** ** The node store (dom-manager.js) *)

(** The DOM node an element owns, as far as the store reads and writes it:
    its tag, its text payload ([node.textContent]) and the properties set
    through [setProps].  The painted DOM tree itself belongs to the
    presentation layer and is not represented. *)
Record DomNode : Type := {
  tagName : string;
  textContent : string;
  attributes : list (string * JsVal)
}.

(** [elements: Map<elementId, { node, parentId, children }>].  [children] is
    a JavaScript Set: insertion-ordered, without duplicates. *)
Record ElementInfo : Type := {
  node : DomNode;
  parentId : string;
  children : list string
}.

(** [set.add(x)] and [set.delete(x)] on an insertion-ordered set. *)
Definition set_add (x : string) (l : list string) : list string :=
  if existsb (String.eqb x) l then l else l ++ [x].

Definition set_delete (x : string) (l : list string) : list string :=
  filter (fun y => negb (String.eqb x y)) l.

Definition with_node (info : ElementInfo) (n : DomNode) : ElementInfo :=
  {| node := n; parentId := parentId info; children := children info |}.

Definition with_children (info : ElementInfo) (cs : list string) : ElementInfo :=
  {| node := node info; parentId := parentId info; children := cs |}.

Definition with_text (n : DomNode) (t : string) : DomNode :=
  {| tagName := tagName n; textContent := t; attributes := attributes n |}.

(** The manager: the element map, the counter the constructor initialises
    (and nothing increments), and [drawn], the number of ids [generateId]
    has produced so far (the state of the clock and random source). *)
Record DOMManager : Type := {
  elements : gmap string ElementInfo;
  idCounter : Z;
  drawn : nat
}.

Definition with_elements (dm : DOMManager) (els : gmap string ElementInfo)
  : DOMManager :=
  {| elements := els; idCounter := idCounter dm; drawn := drawn dm |}.

(** [new DOMManager(rootElement)]. *)
Definition new_DOMManager : DOMManager :=
  {| elements := ∅; idCounter := 0; drawn := 0 |}.

(** [a && a !== 'root'] for a string [a]. *)
Definition names_element (a : string) : bool :=
  negb (String.eqb a "") && negb (String.eqb a "root").

(** [parentId || 'root'] for a string. *)
Definition or_root (a : string) : string :=
  if String.eqb a "" then "root" else a.

(** [for (const x of xs) body(x)]: stops at the first throw. *)
Fixpoint for_each {S A} (body : A -> M S unit) (xs : list A) : M S unit :=
  match xs with
  | [] => ret tt
  | x :: rest => bind (body x) (fun _ => for_each body rest)
  end.

(** [parentInfo.children.delete(elementId)], guarded as in the source by
    [parentId && parentId !== 'root'] and [if (parentInfo)]. *)
Definition detach_from_parent (pid elementId : string)
  (els : gmap string ElementInfo) : gmap string ElementInfo :=
  if names_element pid then
    match els !! pid with
    | Some parentInfo =>
        <[pid := with_children parentInfo
                   (set_delete elementId (children parentInfo))]> els
    | None => els
    end
  else els.

(** [parentInfo.children.add(elementId)], with the same guards. *)
Definition attach_to_parent (pid elementId : string)
  (els : gmap string ElementInfo) : gmap string ElementInfo :=
  if names_element pid then
    match els !! pid with
    | Some parentInfo =>
        <[pid := with_children parentInfo
                   (set_add elementId (children parentInfo))]> els
    | None => els
    end
  else els.

(** [removeElement(elementId)].  [depth] is the number of nested calls the
    call stack still holds: at 0 the engine raises RangeError.  The loop
    runs over the child set as it was when the call started; the source
    iterates the live set, from which a nested call deletes an id only
    together with the element itself, and a call on an element that is gone
    returns at once, so both visit the same live elements. *)
Fixpoint removeElement_rec (depth : nat) (elementId : string)
  : M (gmap string ElementInfo) unit :=
  match depth with
  | O => throw (RangeError "Maximum call stack size exceeded")
  | S depth' =>
      fun els =>
        match els !! elementId with
        | None => (els, Return tt)
        | Some elementInfo =>
            match for_each (removeElement_rec depth') (children elementInfo) els with
            | (els1, Throw e) => (els1, Throw e)
            | (els1, Return _) =>
                (delete elementId
                   (detach_from_parent (parentId elementInfo) elementId els1),
                 Return tt)
            end
        end
  end.

(** An [elements]-level computation run inside the manager. *)
Definition on_elements {A} (m : M (gmap string ElementInfo) A) : M DOMManager A :=
  fun dm => match m (elements dm) with
            | (els, o) => (with_elements dm els, o)
            end.

(** A Map key.  The element map is keyed by strings; an id that is not a
    string (which the tool schema excludes) is keyed by its [String()]
    rendering wherever the sources use it as a key. *)
Definition id_key (v : JsVal) : string := js_String v.

(** [Object.entries(v)]: the own enumerable properties. Destructuring
    [null] or [undefined] throws. *)
Definition indexed {A} (l : list A) : list (string * A) :=
  imap (fun i x => (pretty i, x)) l.

Definition own_entries (v : JsVal) : Outcome (list (string * JsVal)) :=
  match v with
  | JUndefined | JNull =>
      Throw (TypeError ("Cannot destructure " ++ js_String v))
  | JObj fields => Return fields
  | JArr items => Return (indexed items)
  | JStr s =>
      Return (indexed (map (fun c => JStr (String c EmptyString))
                           (list_ascii_of_string s)))
  | JBool _ | JNum _ => Return []
  end.

(** The double-quote character, as a string. *)
Definition dquote : string := String (ascii_of_nat 34) EmptyString.

Section WithPlatform.

Variable P : Platform.

(** One iteration of the loop of [setProps]: the write of [key] on the node.
    The event-handler branch needs [typeof value === 'function'], which no
    instruction value satisfies. *)
Definition setProp (key : string) (value : JsVal) : M DomNode unit :=
  fun n =>
    let record v :=
      {| tagName := tagName n; textContent := textContent n;
         attributes := assoc_set key v (attributes n) |} in
    if String.eqb key "className" then (record value, Return tt)
    else if String.eqb key "style" && typeof_object value then
      (record value, Return tt)
    else if String.eqb key "dangerouslySetInnerHTML" then
      match get_prop value "__html" with
      | Throw e => (n, Throw e)
      | Return html =>
          ({| tagName := tagName n;
              textContent := innerHTML_text P (js_or html value);
              attributes := assoc_set key value (attributes n) |}, Return tt)
      end
    else if validAttributeName P key then (record value, Return tt)
    else (n, Throw (DOMException ("Invalid attribute name: " ++ key))).

Definition special_prop (key : string) : bool :=
  String.eqb key "id" || String.eqb key "children" || String.eqb key "textContent".

(** [setProps(node, props)]. *)
Definition setProps (props : JsVal) : M DomNode unit :=
  let! entries := lift_outcome (own_entries props) in
  let! textContent := lift_outcome (get_prop props "textContent") in
  do! (match textContent with
       | JUndefined | JNull => ret tt
       | _ => fun n => (with_text n (js_String textContent), Return tt)
       end) in
  for_each (fun kv => setProp (fst kv) (snd kv))
           (filter (fun kv => negb (special_prop (fst kv))) entries).

(** [generateId()]. *)
Definition generateId_call : M DOMManager string :=
  fun dm =>
    ({| elements := elements dm; idCounter := idCounter dm;
        drawn := S (drawn dm) |},
     Return (generateId P (drawn dm))).

(** [getElement(elementId)]. *)
Definition getElement (dm : DOMManager) (elementId : string)
  : option ElementInfo :=
  elements dm !! elementId.

(** [removeElement(elementId)] called from outside the manager. *)
Definition removeElement (elementId : string) : M DOMManager unit :=
  on_elements (removeElement_rec (stack_depth P) elementId).

(** [document.createElement(tagName)]. *)
Definition document_createElement (tag : string) : Outcome DomNode :=
  if validElementName P tag
  then Return {| tagName := tag; textContent := ""; attributes := [] |}
  else Throw (DOMException ("Invalid tag name: " ++ tag)).

(** [createElement(parentId, tagName, props)]. The painting steps
    (appendChild, the fly-in animation) are the presentation layer's. *)
Definition createElement (parentId tag : string) (props : JsVal)
  : M DOMManager string :=
  let! idv := lift_outcome (get_prop props "id") in
  let! elementId :=
    (if truthy idv then ret (id_key idv) else generateId_call) in
  do! (fun dm => match elements dm !! elementId with
                 | Some _ => removeElement elementId dm
                 | None => (dm, Return tt)
                 end) in
  let! fresh_node := lift_outcome (document_createElement tag) in
  let! node1 := (fun dm => match setProps props fresh_node with
                           | (n, Return _) => (dm, Return n)
                           | (_, Throw e) => (dm, Throw e)
                           end) in
  do! on_elements (fun els =>
        (attach_to_parent parentId elementId
           (<[elementId := {| node := node1; parentId := or_root parentId;
                              children := [] |}]> els),
         Return tt)) in
  ret elementId.

Definition not_found {A} (elementId : string) : M (gmap string ElementInfo) A :=
  throw (Error ("Element with id " ++ dquote ++ elementId ++ dquote ++ " not found")).

(** [updateElement(elementId, props)]. [setProps] writes into the node the
    map holds, so what it wrote before a throw stays. *)
Definition DOMManager_updateElement (elementId : string) (props : JsVal)
  : M (gmap string ElementInfo) unit :=
  fun els =>
    match els !! elementId with
    | None => not_found elementId els
    | Some elementInfo0 =>
        match setProps props (node elementInfo0) with
        | (n, Throw e) => (<[elementId := with_node elementInfo0 n]> els, Throw e)
        | (n, Return _) =>
            let elementInfo := with_node elementInfo0 n in
            let els1 := <[elementId := elementInfo]> els in
            match get_prop props "id" with
            | Throw e => (els1, Throw e)
            | Return idv =>
                if truthy idv && negb (strict_eq_str idv elementId) then
                  let oldId := elementId in
                  let newId := id_key idv in
                  let els2 := delete oldId (<[newId := elementInfo]> els1) in
                  let pid := parentId elementInfo in
                  if names_element pid then
                    match els2 !! pid with
                    | Some parentInfo =>
                        (<[pid := with_children parentInfo
                                    (set_add newId
                                       (set_delete oldId (children parentInfo)))]> els2,
                         Return tt)
                    | None => (els2, Return tt)
                    end
                  else (els2, Return tt)
                else (els1, Return tt)
            end
        end
    end.

(** [setText(elementId, text)]. *)
Definition DOMManager_setText (elementId text : string)
  : M (gmap string ElementInfo) unit :=
  fun els =>
    match els !! elementId with
    | None => not_found elementId els
    | Some elementInfo =>
        (<[elementId := with_node elementInfo (with_text (node elementInfo) text)]> els,
         Return tt)
    end.

(** [appendText(elementId, text)]: [node.textContent += text]. *)
Definition DOMManager_appendText (elementId text : string)
  : M (gmap string ElementInfo) unit :=
  fun els =>
    match els !! elementId with
    | None => not_found elementId els
    | Some elementInfo =>
        (<[elementId := with_node elementInfo
                          (with_text (node elementInfo)
                             (textContent (node elementInfo) ++ text))]> els,
         Return tt)
    end.

(** ** The tool functions (tools.js)

    Each is called with [this.domManager] set, which the constructor of
    [ToolCallHandler] guarantees. *)

Definition success_result (elementId : string) : JsVal :=
  JObj [("success", JBool true); ("elementId", JStr elementId)].

(** A parameter with the default [= {}]. *)
Definition default_props (props : JsVal) : JsVal :=
  match props with JUndefined => JObj [] | _ => props end.

(** [h(parentId, tagName, props = {})]. *)
Definition h (parentId tagName props : JsVal) : M DOMManager JsVal :=
  let props := default_props props in
  if negb (truthy tagName) || negb (is_string tagName) then
    throw (Error "tagName must be a non-empty string")
  else
    let parentId1 :=
      match parentId with
      | JNull | JUndefined => JStr "root"
      | _ => if strict_eq_str parentId "null" then JStr "root" else parentId
      end in
    let! parentId2 :=
      (fun dm =>
         if truthy parentId1 && negb (strict_eq_str parentId1 "root") then
           match getElement dm (id_key parentId1) with
           | Some _ => (dm, Return parentId1)
           | None => (dm, Return (JStr "root"))
           end
         else (dm, Return parentId1)) in
    let! elementId :=
      createElement (id_key (js_or parentId2 (JStr "root")))
                    (js_String tagName) props in
    ret (JStr elementId).

Definition check_elementId {A} (elementId : JsVal) (k : string -> M DOMManager A)
  : M DOMManager A :=
  match elementId with
  | JStr s =>
      if String.eqb s "" then throw (Error "elementId must be a non-empty string")
      else k s
  | _ => throw (Error "elementId must be a non-empty string")
  end.

(** [updateElement(elementId, props = {})]. *)
Definition updateElement (elementId props : JsVal) : M DOMManager JsVal :=
  let props := default_props props in
  check_elementId elementId (fun s =>
    do! on_elements (DOMManager_updateElement s props) in
    ret (success_result s)).

(** [setText(elementId, text)]. *)
Definition setText (elementId text : JsVal) : M DOMManager JsVal :=
  check_elementId elementId (fun s =>
    do! on_elements (DOMManager_setText s (js_String (js_or text (JStr "")))) in
    ret (success_result s)).

(** [appendText(elementId, text)]. *)
Definition appendText (elementId text : JsVal) : M DOMManager JsVal :=
  check_elementId elementId (fun s =>
    do! on_elements (DOMManager_appendText s (js_String (js_or text (JStr "")))) in
    ret (success_result s)).

(** The tool [removeElement(elementId)]. *)
Definition tool_removeElement (elementId : JsVal) : M DOMManager JsVal :=
  check_elementId elementId (fun s =>
    do! removeElement s in
    ret (success_result s)).

(** ** The dispatcher (tool-handler.js) *)

(** What [this.boundTools[name]] can be: one of the five bound tools, or a
    member the object literal inherits from Object.prototype. *)
Inductive BoundTool : Type :=
| Tool_h | Tool_updateElement | Tool_setText | Tool_appendText
| Tool_removeElement
| Inherited (key : string).

Definition object_prototype_keys : list string :=
  ["constructor"; "__defineGetter__"; "__defineSetter__"; "hasOwnProperty";
   "__lookupGetter__"; "__lookupSetter__"; "isPrototypeOf";
   "propertyIsEnumerable"; "toString"; "valueOf"; "__proto__";
   "toLocaleString"].

Definition boundTools (key : string) : option BoundTool :=
  if String.eqb key "h" then Some Tool_h
  else if String.eqb key "updateElement" then Some Tool_updateElement
  else if String.eqb key "setText" then Some Tool_setText
  else if String.eqb key "appendText" then Some Tool_appendText
  else if String.eqb key "removeElement" then Some Tool_removeElement
  else if existsb (String.eqb key) object_prototype_keys then Some (Inherited key)
  else None.

Definition arg (i : nat) (args : list JsVal) : JsVal := nth i args JUndefined.

(** [toolFn(...args)]: a call with positional arguments. *)
Definition call_tool (toolFn : BoundTool) (args : list JsVal)
  : M DOMManager JsVal :=
  match toolFn with
  | Tool_h => h (arg 0 args) (arg 1 args) (arg 2 args)
  | Tool_updateElement => updateElement (arg 0 args) (arg 1 args)
  | Tool_setText => setText (arg 0 args) (arg 1 args)
  | Tool_appendText => appendText (arg 0 args) (arg 1 args)
  | Tool_removeElement => tool_removeElement (arg 0 args)
  | Inherited key => lift_outcome (call_inherited P key args)
  end.

(** [executeToolCall(toolCall)].  [try { ... } catch (error) {
    console.error(...); throw error; }] rethrows what it caught. *)
Definition executeToolCall (toolCall : JsVal) : M DOMManager JsVal :=
  let! name := lift_outcome (get_prop toolCall "name") in
  let! args := lift_outcome (get_prop toolCall "arguments") in
  match (if truthy name then boundTools (id_key name) else None) with
  | None => throw (Error ("Unknown tool: " ++ js_String name))
  | Some toolFn =>
      let! parsedArgs :=
        (match args with
         | JStr text =>
             match JSON_parse P text with
             | Some v => ret v
             | None => throw (Error ("Invalid JSON arguments: " ++ text))
             end
         | _ => ret (js_or args (JObj []))
         end) in
      try_catch
        (if strict_eq_str name "h" then
           let! parentId := lift_outcome (get_prop parsedArgs "parentId") in
           let! tag := lift_outcome (get_prop parsedArgs "tagName") in
           let! props := lift_outcome (get_prop parsedArgs "props") in
           call_tool toolFn [parentId; tag; js_or props (JObj [])]
         else if strict_eq_str name "updateElement" then
           let! elementId := lift_outcome (get_prop parsedArgs "elementId") in
           let! props := lift_outcome (get_prop parsedArgs "props") in
           call_tool toolFn [elementId; js_or props (JObj [])]
         else if strict_eq_str name "setText" || strict_eq_str name "appendText" then
           let! elementId := lift_outcome (get_prop parsedArgs "elementId") in
           let! text := lift_outcome (get_prop parsedArgs "text") in
           call_tool toolFn [elementId; js_or text (JStr "")]
         else if strict_eq_str name "removeElement" then
           let! elementId := lift_outcome (get_prop parsedArgs "elementId") in
           call_tool toolFn [elementId]
         else
           call_tool toolFn
             (match parsedArgs with JArr items => items | _ => [parsedArgs] end))
        (fun error => throw error)
  end.

(** One entry of the list [executeToolCalls] returns:
    [{ success: true, result, toolCall }] or
    [{ success: false, error: error.message, toolCall }]. *)
Inductive ResultEntry : Type :=
| Success (result : JsVal) (toolCall : JsVal)
| Failure (error : string) (toolCall : JsVal).

Definition success (r : ResultEntry) : bool :=
  match r with Success _ _ => true | Failure _ _ => false end.

Definition entry_toolCall (r : ResultEntry) : JsVal :=
  match r with Success _ tc | Failure _ tc => tc end.

(** The body of the loop of [executeToolCalls]: [results] is the array the
    loop pushes to. *)
Definition executeToolCalls_step (results : list ResultEntry) (toolCall : JsVal)
  : M DOMManager (list ResultEntry) :=
  try_catch
    (let! result := executeToolCall toolCall in
     ret (results ++ [Success result toolCall]))
    (fun error => ret (results ++ [Failure (message error) toolCall])).

Fixpoint executeToolCalls_loop (results : list ResultEntry) (toolCalls : list JsVal)
  : M DOMManager (list ResultEntry) :=
  match toolCalls with
  | [] => ret results
  | toolCall :: rest =>
      let! results1 := executeToolCalls_step results toolCall in
      executeToolCalls_loop results1 rest
  end.

(** [executeToolCalls(toolCalls)]. *)
Definition executeToolCalls (toolCalls : list JsVal)
  : M DOMManager (list ResultEntry) :=
  executeToolCalls_loop [] toolCalls.

End WithPlatform.

(** ** Strings, as the parsers use them *)

Definition nl : string := String (ascii_of_nat 10) EmptyString.
Definition fence : string := "```".

(** White space for [trim]: tab, line feed, vertical tab, form feed,
    carriage return, space and no-break space. *)
Definition is_space (c : ascii) : bool :=
  match nat_of_ascii c with
  | 9 | 10 | 11 | 12 | 13 | 32 | 160 => true
  | _ => false
  end.

Fixpoint trim_start (s : string) : string :=
  match s with
  | String c rest => if is_space c then trim_start rest else s
  | EmptyString => EmptyString
  end.

Fixpoint trim_end (s : string) : string :=
  match s with
  | EmptyString => EmptyString
  | String c rest =>
      match trim_end rest with
      | EmptyString => if is_space c then EmptyString else String c EmptyString
      | rest' => String c rest'
      end
  end.

(** [s.trim()]. *)
Definition trim (s : string) : string := trim_end (trim_start s).

(** [s.indexOf(pat)]: [None] is -1. *)
Fixpoint indexOf (pat s : string) : option nat :=
  if String.prefix pat s then Some 0
  else match s with
       | EmptyString => None
       | String _ rest => option_map S (indexOf pat rest)
       end.

Fixpoint drop_chars (n : nat) (s : string) : string :=
  match n, s with
  | O, _ => s
  | S n', String _ rest => drop_chars n' rest
  | S _, EmptyString => EmptyString
  end.

Fixpoint take_chars (n : nat) (s : string) : string :=
  match n, s with
  | O, _ => EmptyString
  | S n', String c rest => String c (take_chars n' rest)
  | S _, EmptyString => EmptyString
  end.

(** [s.substring(a)] and [s.substring(a, b)], which swaps its bounds when
    [a > b]. *)
Definition substring_from (a : nat) (s : string) : string := drop_chars a s.

Definition substring (a b : nat) (s : string) : string :=
  take_chars (Nat.max a b - Nat.min a b) (drop_chars (Nat.min a b) s).

(** [\w] of a regular expression. *)
Definition is_word_char (c : ascii) : bool :=
  let n := nat_of_ascii c in
  ((48 <=? n)%nat && (n <=? 57)%nat) || ((65 <=? n)%nat && (n <=? 90)%nat)
  || ((97 <=? n)%nat && (n <=? 122)%nat) || (n =? 95)%nat.

Fixpoint word_prefix (s : string) : string :=
  match s with
  | String c rest => if is_word_char c then String c (word_prefix rest) else EmptyString
  | EmptyString => EmptyString
  end.

(** [s.match(/^(\w+)?\n?/)]: the first group ([""] when it did not take
    part) and the length of the whole match. *)
Definition match_language (s : string) : string * nat :=
  let w := word_prefix s in
  let after := drop_chars (String.length w) s in
  (w, String.length w + (if String.prefix nl after then 1 else 0))%nat.

(** [toLowerCase()], on the letters a [\w+] match can hold. *)
Definition lower_char (c : ascii) : ascii :=
  let n := nat_of_ascii c in
  if (65 <=? n)%nat && (n <=? 90)%nat then ascii_of_nat (n + 32) else c.

Fixpoint toLowerCase (s : string) : string :=
  match s with
  | String c rest => String (lower_char c) (toLowerCase rest)
  | EmptyString => EmptyString
  end.

(** [s.split('\n')]. *)
Fixpoint split_lines (s : string) : list string :=
  match s with
  | EmptyString => [EmptyString]
  | String c rest =>
      if (nat_of_ascii c =? 10)%nat then EmptyString :: split_lines rest
      else match split_lines rest with
           | line :: lines => String c line :: lines
           | [] => [String c EmptyString]
           end
  end.

Definition nonempty (s : string) : bool := negb (String.eqb s "").

(** Every character is a [\w]. *)
Definition all_word (s : string) : bool :=
  forallb is_word_char (list_ascii_of_string s).

(** ** The structured-delta parser (incremental-command-parser.js)

    The chunks are those of the OpenAI/DeepSeek streaming format, typed as
    that format types them: an integer [index], string fragments.  (The two
    other chunk shapes [parseChunk] accepts carry whole tool calls without a
    slot key and are not part of this feed.) *)

(** One entry of [choice.delta.tool_calls]: [function.name] and
    [function.arguments] are [None] when absent. *)
Record DeltaToolCall : Type := {
  d_index : Z;
  d_id : option string;
  d_name : option string;
  d_arguments : option string
}.

Record Choice : Type := {
  delta_tool_calls : list DeltaToolCall;
  finish_reason : option string;
  (** [choice.message.tool_calls], empty when absent. *)
  message_tool_calls : list DeltaToolCall
}.

Definition Chunk : Type := list Choice.

(** A record of [toolCallBuffer]. *)
Record BufferedToolCall : Type := {
  b_id : option string;
  b_name : string;
  b_arguments : string;
  b_index : Z
}.

(** A tool call handed to the caller: [{ id, name, arguments, index }]. *)
Record CompletedToolCall : Type := {
  c_id : option string;
  c_name : string;
  c_arguments : string;
  c_index : Z
}.

(** The parser: [toolCallBuffer] is a Map in insertion order,
    [completedToolCalls] a Set of slot keys. *)
Record CommandParser : Type := {
  toolCallBuffer : list (string * BufferedToolCall);
  completedToolCalls : gset string
}.

Definition new_CommandParser : CommandParser :=
  {| toolCallBuffer := []; completedToolCalls := ∅ |}.

(** [`index_${toolCallIndex}`]. *)
Definition toolCallKey (index : Z) : string := "index_" ++ pretty index.

Definition assoc_delete {A} (k : string) (l : list (string * A)) : list (string * A) :=
  filter (fun kv => negb (String.eqb (fst kv) k)) l.

(** A string option read as a JavaScript condition: absent and [""] are
    falsy. *)
Definition truthy_str (o : option string) : option string :=
  match o with
  | Some s => if nonempty s then Some s else None
  | None => None
  end.

(** [a || b] on such strings. *)
Definition or_str (a b : option string) : option string :=
  match truthy_str a with Some s => Some s | None => b end.

Section Parsers.

Variable P : Platform.

(** [JSON.parse(text)] returns, rather than throws. *)
Definition parses (text : string) : bool :=
  match JSON_parse P text with Some _ => true | None => false end.

(** The body of the loop over [choice.delta.tool_calls]: the state after
    the fragment and what it pushed to [completedToolCalls]. *)
Definition parseChunk_delta (st : CommandParser) (deltaToolCall : DeltaToolCall)
  : CommandParser * list CompletedToolCall :=
  let toolCallIndex := d_index deltaToolCall in
  let key := toolCallKey toolCallIndex in
  if decide (key ∈ completedToolCalls st) then (st, [])
  else
    let toolCall0 :=
      default {| b_id := truthy_str (d_id deltaToolCall); b_name := "";
                 b_arguments := ""; b_index := toolCallIndex |}
              (assoc_get key (toolCallBuffer st)) in
    let toolCall :=
      {| b_id := match truthy_str (d_id deltaToolCall), truthy_str (b_id toolCall0) with
                 | Some i, None => Some i
                 | _, _ => b_id toolCall0
                 end;
         b_name := match truthy_str (d_name deltaToolCall) with
                   | Some n => n
                   | None => b_name toolCall0
                   end;
         b_arguments := match truthy_str (d_arguments deltaToolCall) with
                        | Some a => b_arguments toolCall0 ++ a
                        | None => b_arguments toolCall0
                        end;
         b_index := b_index toolCall0 |} in
    let buffer := assoc_set key toolCall (toolCallBuffer st) in
    if nonempty (b_name toolCall) && nonempty (b_arguments toolCall)
       && nonempty (trim (b_arguments toolCall))
       && parses (b_arguments toolCall)
    then
      ({| toolCallBuffer := assoc_delete key buffer;
          completedToolCalls := {[key]} ∪ completedToolCalls st |},
       [{| c_id := or_str (b_id toolCall)
                     (Some ("temp_" ++ pretty toolCallIndex)%string);
           c_name := b_name toolCall;
           c_arguments := b_arguments toolCall;
           c_index := b_index toolCall |}])
    else
      ({| toolCallBuffer := buffer;
          completedToolCalls := completedToolCalls st |}, []).

(** The body of the loop over [choice.message.tool_calls], run when
    [finish_reason === 'tool_calls']. *)
Definition parseChunk_final (st : CommandParser) (toolCall : DeltaToolCall)
  : CommandParser * list CompletedToolCall :=
  let key := toolCallKey (d_index toolCall) in
  if decide (key ∈ completedToolCalls st) then (st, [])
  else
    match truthy_str (d_name toolCall), truthy_str (d_arguments toolCall) with
    | Some name, Some arguments =>
        let retired :=
          {| toolCallBuffer := assoc_delete key (toolCallBuffer st);
             completedToolCalls := {[key]} ∪ completedToolCalls st |} in
        if parses arguments then
          (retired,
           [{| c_id := d_id toolCall; c_name := name;
               c_arguments := arguments; c_index := d_index toolCall |}])
        else
          match assoc_get key (toolCallBuffer st) with
          | Some bufferedToolCall =>
              if nonempty (b_name bufferedToolCall)
                 && nonempty (b_arguments bufferedToolCall)
                 && parses (b_arguments bufferedToolCall)
              then
                (retired,
                 [{| c_id := or_str (b_id bufferedToolCall)
                               (or_str (d_id toolCall)
                                  (Some ("temp_" ++ pretty (d_index toolCall))%string));
                     c_name := b_name bufferedToolCall;
                     c_arguments := b_arguments bufferedToolCall;
                     c_index := b_index bufferedToolCall |}])
              else (st, [])
          | None => (st, [])
          end
    | _, _ => (st, [])
    end.

(** A loop that threads the parser and appends what each step pushes. *)
Fixpoint collect {A} (step : CommandParser -> A -> CommandParser * list CompletedToolCall)
  (st : CommandParser) (xs : list A) : CommandParser * list CompletedToolCall :=
  match xs with
  | [] => (st, [])
  | x :: rest =>
      let '(st1, out1) := step st x in
      let '(st2, out2) := collect step st1 rest in
      (st2, out1 ++ out2)
  end.

Definition parseChunk_choice (st : CommandParser) (choice : Choice)
  : CommandParser * list CompletedToolCall :=
  let '(st1, out1) := collect parseChunk_delta st (delta_tool_calls choice) in
  match finish_reason choice with
  | Some reason =>
      if String.eqb reason "tool_calls" then
        let '(st2, out2) := collect parseChunk_final st1 (message_tool_calls choice) in
        (st2, out1 ++ out2)
      else (st1, out1)
  | None => (st1, out1)
  end.

(** [parseChunk(chunk)]. *)
Definition parseChunk (st : CommandParser) (chunk : Chunk)
  : CommandParser * list CompletedToolCall :=
  collect parseChunk_choice st chunk.

(** ** The fenced-text parser (incremental-text-parser.js) *)

Record TextParser : Type := {
  (** [null], or [{ startIndex }]. *)
  currentCodeBlock : option nat;
  currentLanguage : option string;
  parsedCommands : list JsVal;
  textBuffer : string
}.

Definition new_TextParser : TextParser :=
  {| currentCodeBlock := None; currentLanguage := None;
     parsedCommands := []; textBuffer := "" |}.

(** [isValidCommand(command)]. *)
Definition isValidCommand (command : JsVal) : bool :=
  if negb (truthy command) || negb (typeof_object command) then false
  else
    match get_prop command "name", get_prop command "arguments" with
    | Return name, Return arguments =>
        if negb (truthy name) || negb (is_string name) then false
        else truthy arguments
    | _, _ => false
    end.

Definition allowed_language (language : string) : bool :=
  String.eqb language "render" || String.eqb language "json"
  || String.eqb language "javascript" || String.eqb language "js".

(** [parseCodeBlock(codeContent, language)]: a JSON.parse that throws in
    the first two branches leaves [commands] empty. *)
Definition parseCodeBlock (codeContent language : string) : list JsVal :=
  if negb (allowed_language language) then []
  else if String.prefix "[" (trim codeContent) then
    match JSON_parse P codeContent with
    | Some (JArr items) => filter isValidCommand items
    | _ => []
    end
  else if String.prefix "{" (trim codeContent) then
    match JSON_parse P codeContent with
    | Some data => if isValidCommand data then [data] else []
    | None => []
    end
  else
    let lines := filter (fun line => nonempty (trim line)) (split_lines codeContent) in
    flat_map (fun line =>
                match JSON_parse P (trim line) with
                | Some item => if isValidCommand item then [item] else []
                | None => []
                end) lines.

(** The [while (true)] loop of [parseTextChunk]; [searchStart] is 0 on
    every iteration.  Each iteration that does not leave the loop cuts a
    whole fenced block out of the buffer, so [S (length textBuffer)]
    iterations are never used up ([parseTextChunk_loop_enough]). *)
Fixpoint parseTextChunk_loop (fuel : nat) (st : TextParser) (newCommands : list JsVal)
  : TextParser * list JsVal :=
  match fuel with
  | O => (st, newCommands)
  | S fuel' =>
      match indexOf fence (textBuffer st) with
      | None => (st, newCommands)
      | Some codeBlockStart =>
          let afterStart := substring_from (codeBlockStart + 3) (textBuffer st) in
          match indexOf fence afterStart with
          | None =>
              let language := toLowerCase (fst (match_language afterStart)) in
              match currentCodeBlock st with
              | Some startIndex =>
                  if (startIndex =? codeBlockStart)%nat then (st, newCommands)
                  else
                    ({| currentCodeBlock := Some codeBlockStart;
                        currentLanguage := Some language;
                        parsedCommands := parsedCommands st;
                        textBuffer := textBuffer st |}, newCommands)
              | None =>
                  ({| currentCodeBlock := Some codeBlockStart;
                      currentLanguage := Some language;
                      parsedCommands := parsedCommands st;
                      textBuffer := textBuffer st |}, newCommands)
              end
          | Some codeBlockEnd =>
              let blockEnd := (codeBlockStart + 3 + codeBlockEnd + 3)%nat in
              let fullCodeBlock := substring codeBlockStart blockEnd (textBuffer st) in
              let languageMatch := match_language (substring_from 3 fullCodeBlock) in
              let language := toLowerCase (fst languageMatch) in
              let codeStart := (3 + snd languageMatch)%nat in
              let codeContent :=
                trim (substring codeStart (String.length fullCodeBlock - 3) fullCodeBlock) in
              let commands := parseCodeBlock codeContent language in
              parseTextChunk_loop fuel'
                {| currentCodeBlock := None;
                   currentLanguage := None;
                   parsedCommands := parsedCommands st;
                   textBuffer := substring 0 codeBlockStart (textBuffer st)
                                 ++ substring_from blockEnd (textBuffer st) |}
                (newCommands ++ commands)
          end
      end
  end.

(** [parseTextChunk(textChunk)]. *)
Definition parseTextChunk (st : TextParser) (textChunk : string)
  : TextParser * list JsVal :=
  let buffer := (textBuffer st ++ textChunk)%string in
  parseTextChunk_loop (S (String.length buffer))
    {| currentCodeBlock := currentCodeBlock st;
       currentLanguage := currentLanguage st;
       parsedCommands := parsedCommands st;
       textBuffer := buffer |} [].

End Parsers.

(** ** A JSON reader

    An executable instance of [JSON_parse] for running the embedding on
    concrete instructions.  It reads the JSON grammar with integer numbers
    and byte-sized characters; a text with a fraction, an exponent or a
    [\u] escape above [ÿ] is outside [JsVal] and is not read. *)
Module Json.

Definition is_ws (c : ascii) : bool :=
  match nat_of_ascii c with
  | 32 | 9 | 10 | 13 => true
  | _ => false
  end.

Fixpoint skip_ws (cs : list ascii) : list ascii :=
  match cs with
  | c :: rest => if is_ws c then skip_ws rest else cs
  | [] => []
  end.

Definition is_digit (c : ascii) : bool :=
  (48 <=? nat_of_ascii c)%nat && (nat_of_ascii c <=? 57)%nat.

Definition hex_value (c : ascii) : option nat :=
  let n := nat_of_ascii c in
  if (48 <=? n)%nat && (n <=? 57)%nat then Some (n - 48)%nat
  else if (97 <=? n)%nat && (n <=? 102)%nat then Some (n - 87)%nat
  else if (65 <=? n)%nat && (n <=? 70)%nat then Some (n - 55)%nat
  else None.

(** The characters of a string literal after its opening quote. *)
Fixpoint read_string (cs : list ascii) : option (string * list ascii) :=
  match cs with
  | [] => None
  | c :: rest =>
      match nat_of_ascii c with
      | 34 => Some (EmptyString, rest)
      | 92 =>
          match rest with
          | e :: rest' =>
              let continue (ch : ascii) (tail : list ascii) :=
                match read_string tail with
                | Some (s, out) => Some (String ch s, out)
                | None => None
                end in
              match nat_of_ascii e with
              | 34 => continue (ascii_of_nat 34) rest'
              | 92 => continue (ascii_of_nat 92) rest'
              | 47 => continue (ascii_of_nat 47) rest'
              | 98 => continue (ascii_of_nat 8) rest'
              | 102 => continue (ascii_of_nat 12) rest'
              | 110 => continue (ascii_of_nat 10) rest'
              | 114 => continue (ascii_of_nat 13) rest'
              | 116 => continue (ascii_of_nat 9) rest'
              | 117 =>
                  match rest' with
                  | a :: b :: c1 :: d :: tail =>
                      match hex_value a, hex_value b, hex_value c1, hex_value d with
                      | Some 0%nat, Some 0%nat, Some x, Some y =>
                          continue (ascii_of_nat (16 * x + y)) tail
                      | _, _, _, _ => None
                      end
                  | _ => None
                  end
              | _ => None
              end
          | [] => None
          end
      | n =>
          if (n <? 32)%nat then None
          else match read_string rest with
               | Some (s, out) => Some (String c s, out)
               | None => None
               end
      end
  end.

Fixpoint read_digits (acc : Z) (cs : list ascii) : Z * list ascii :=
  match cs with
  | c :: rest =>
      if is_digit c
      then read_digits (10 * acc + Z.of_nat (nat_of_ascii c - 48)) rest
      else (acc, cs)
  | [] => (acc, [])
  end.

Definition starts_fraction (cs : list ascii) : bool :=
  match cs with
  | c :: _ => match nat_of_ascii c with 46 | 101 | 69 => true | _ => false end
  | [] => false
  end.

(** An integer literal without its sign: no leading zero before a digit. *)
Definition read_unsigned (cs : list ascii) : option (Z * list ascii) :=
  match cs with
  | c :: rest =>
      if negb (is_digit c) then None
      else if (nat_of_ascii c =? 48)%nat then
        match rest with
        | d :: _ => if is_digit d || starts_fraction rest then None else Some (0%Z, rest)
        | [] => Some (0%Z, rest)
        end
      else
        let '(n, out) := read_digits 0 cs in
        if starts_fraction out then None else Some (n, out)
  | [] => None
  end.

Fixpoint read_literal (lit : list ascii) (cs : list ascii) : option (list ascii) :=
  match lit, cs with
  | [], _ => Some cs
  | l :: lit', c :: cs' => if Ascii.eqb l c then read_literal lit' cs' else None
  | _ :: _, [] => None
  end.

Definition chars (s : string) : list ascii := list_ascii_of_string s.

(** [read_value] reads one value; [read_items] the rest of an array after
    its [[] or after a comma; [read_members] likewise for an object. *)
Fixpoint read_value (fuel : nat) (cs : list ascii) : option (JsVal * list ascii) :=
  match fuel with
  | O => None
  | S fuel' =>
      match skip_ws cs with
      | [] => None
      | c :: rest =>
          match nat_of_ascii c with
          | 110 => match read_literal (chars "ull") rest with
                   | Some out => Some (JNull, out) | None => None end
          | 116 => match read_literal (chars "rue") rest with
                   | Some out => Some (JBool true, out) | None => None end
          | 102 => match read_literal (chars "alse") rest with
                   | Some out => Some (JBool false, out) | None => None end
          | 34 => match read_string rest with
                  | Some (s, out) => Some (JStr s, out) | None => None end
          | 45 => match read_unsigned rest with
                  | Some (n, out) => Some (JNum (- n), out) | None => None end
          | 91 =>
              match skip_ws rest with
              | d :: rest' =>
                  if (nat_of_ascii d =? 93)%nat then Some (JArr [], rest')
                  else match read_items fuel' [] rest with
                       | Some (items, out) => Some (JArr items, out)
                       | None => None
                       end
              | [] => None
              end
          | 123 =>
              match skip_ws rest with
              | d :: rest' =>
                  if (nat_of_ascii d =? 125)%nat then Some (JObj [], rest')
                  else match read_members fuel' [] rest with
                       | Some (fields, out) => Some (JObj fields, out)
                       | None => None
                       end
              | [] => None
              end
          | _ => match read_unsigned (c :: rest) with
                 | Some (n, out) => Some (JNum n, out) | None => None end
          end
      end
  end
with read_items (fuel : nat) (acc : list JsVal) (cs : list ascii)
  : option (list JsVal * list ascii) :=
  match fuel with
  | O => None
  | S fuel' =>
      match read_value fuel' cs with
      | None => None
      | Some (v, out) =>
          match skip_ws out with
          | c :: rest =>
              match nat_of_ascii c with
              | 44 => read_items fuel' (acc ++ [v]) rest
              | 93 => Some (acc ++ [v], rest)
              | _ => None
              end
          | [] => None
          end
      end
  end
with read_members (fuel : nat) (acc : list (string * JsVal)) (cs : list ascii)
  : option (list (string * JsVal) * list ascii) :=
  match fuel with
  | O => None
  | S fuel' =>
      match skip_ws cs with
      | q :: after_quote =>
          if negb (nat_of_ascii q =? 34)%nat then None else
          match read_string after_quote with
          | None => None
          | Some (key, after_key) =>
              match skip_ws after_key with
              | colon :: after_colon =>
                  if negb (nat_of_ascii colon =? 58)%nat then None else
                  match read_value fuel' after_colon with
                  | None => None
                  | Some (v, out) =>
                      match skip_ws out with
                      | c :: rest =>
                          match nat_of_ascii c with
                          | 44 => read_members fuel' (assoc_set key v acc) rest
                          | 125 => Some (assoc_set key v acc, rest)
                          | _ => None
                          end
                      | [] => None
                      end
                  end
              | [] => None
              end
          end
      | [] => None
      end
  end.

(** The whole text must be one value between optional white space. *)
Definition parse (text : string) : option JsVal :=
  let cs := chars text in
  match read_value (2 * length cs + 2) cs with
  | Some (v, out) => match skip_ws out with [] => Some v | _ => None end
  | None => None
  end.

End Json.

(** A platform for running the embedding: the JSON reader above, ids
    [element_0], [element_1], ..., names made of letters, digits, [-] and
    [_] starting with a letter, and a call stack of 1000 frames. *)
Module Host.

Definition is_letter (c : ascii) : bool :=
  let n := nat_of_ascii c in
  ((65 <=? n)%nat && (n <=? 90)%nat) || ((97 <=? n)%nat && (n <=? 122)%nat).

Definition is_name_char (c : ascii) : bool :=
  is_letter c || Json.is_digit c
  || (nat_of_ascii c =? 45)%nat || (nat_of_ascii c =? 95)%nat.

Definition valid_name (s : string) : bool :=
  match list_ascii_of_string s with
  | c :: rest => is_letter c && forallb is_name_char rest
  | [] => false
  end.

Definition platform : Platform :=
  {| JSON_parse := Json.parse;
     generateId := fun n => ("element_" ++ pretty n)%string;
     validElementName := valid_name;
     validAttributeName := valid_name;
     innerHTML_text := js_String;
     stack_depth := 1000;
     call_inherited := fun key args =>
       if String.eqb key "toString" then Return (JStr "[object Undefined]")
       else if String.eqb key "constructor" then
         Return (match arg 0 args with
                 | JUndefined | JNull => JObj []
                 | v => v
                 end)
       else Throw (TypeError ("cannot call boundTools." ++ key)%string) |}.

End Host.


(** ** Concrete instructions

    The instructions and chunks the properties below are run on. *)
Module Example.

(** A JSON text written with apostrophes for its double quotes. *)
Fixpoint json_text (s : string) : string :=
  match s with
  | EmptyString => EmptyString
  | String c rest =>
      String (if (nat_of_ascii c =? 39)%nat then ascii_of_nat 34 else c)
             (json_text rest)
  end.

Definition instruction (name : string) (arguments : JsVal) : JsVal :=
  JObj [("name", JStr name); ("arguments", arguments)].

(** [h(parentId, tagName, { id })]. *)
Definition create (parentId : JsVal) (tag id : string) : JsVal :=
  instruction "h"
    (JObj [("parentId", parentId); ("tagName", JStr tag);
           ("props", JObj [("id", JStr id)])]).

Definition div_node : DomNode :=
  {| tagName := "div"; textContent := ""; attributes := [] |}.

(** The store after [h(null, "div", {id: "p"})] and
    [h("p", "div", {id: "c"})]. *)
Definition parent_and_child : DOMManager :=
  fst (executeToolCalls Host.platform
         [create JNull "div" "p"; create (JStr "p") "div" "c"] new_DOMManager).

(** The store after [h(null, "div", {id: "X"})]. *)
Definition one_element : DOMManager :=
  fst (executeToolCalls Host.platform [create JNull "div" "X"] new_DOMManager).

Definition unknown_tool : JsVal := instruction "nope" (JObj []).
Definition malformed : JsVal := instruction "h" (JStr "{bad").

(** A structured-delta chunk carrying one whole fragment for slot 0. *)
Definition whole_fragment : Chunk :=
  [{| delta_tool_calls :=
        [{| d_index := 0; d_id := Some "call_0"; d_name := Some "removeElement";
            d_arguments := Some "{}" |}];
      finish_reason := None;
      message_tool_calls := [] |}].

(** The two halves of the fenced block of the specification's example. *)
Definition first_half : string := json_text "[{'name':'create','arguments':{".
Definition second_half : string :=
  (json_text "'parentId':null,'label':'div'}}]" ++ nl)%string.
Definition create_command : JsVal :=
  JObj [("name", JStr "create");
        ("arguments", JObj [("parentId", JNull); ("label", JStr "div")])].

End Example.

(** ** The ends of the streams

    [flush()] of the two parsers, the batches of [StreamProcessor]
    (stream-processor.js) and [IncrementalRenderer]
    (incremental-renderer.js).  The optional callbacks ([onToolCall],
    [onCommand], [onError]) are left unset, and [console.error] prints
    only. *)

Section Streams.

Variable P : Platform.

(** The loop of [IncrementalCommandParser.flush()] over
    [toolCallBuffer.entries()]: the retired slots after it and what it
    pushed to [remainingToolCalls]. *)
Fixpoint flush_loop (completed : gset string)
  (entries : list (string * BufferedToolCall))
  : gset string * list CompletedToolCall :=
  match entries with
  | [] => (completed, [])
  | (key, toolCall) :: rest =>
      if decide (key ∈ completed) then flush_loop completed rest
      else if nonempty (b_name toolCall) && nonempty (b_arguments toolCall)
              && nonempty (trim (b_arguments toolCall))
              && parses P (b_arguments toolCall)
      then
        let '(completed', out) := flush_loop ({[key]} ∪ completed) rest in
        (completed',
         {| c_id := or_str (b_id toolCall)
                      (Some ("temp_" ++ pretty (b_index toolCall))%string);
            c_name := b_name toolCall;
            c_arguments := b_arguments toolCall;
            c_index := b_index toolCall |} :: out)
      else flush_loop completed rest
  end.

(** [IncrementalCommandParser.flush()]. *)
Definition CommandParser_flush (st : CommandParser)
  : CommandParser * list CompletedToolCall :=
  let '(completed, out) := flush_loop (completedToolCalls st) (toolCallBuffer st) in
  ({| toolCallBuffer := []; completedToolCalls := completed |}, out).

(** [IncrementalCommandParser.reset()]. *)
Definition CommandParser_reset (st : CommandParser) : CommandParser :=
  {| toolCallBuffer := []; completedToolCalls := ∅ |}.

(** [IncrementalTextParser.flush()].  [parseCodeBlock] called with a [null]
    language returns no command. *)
Definition TextParser_flush (st : TextParser) : TextParser * list JsVal :=
  let remainingCommands :=
    match currentCodeBlock st with
    | Some startIndex =>
        if nonempty (textBuffer st) then
          let codeStart :=
            (startIndex + match truthy_str (currentLanguage st) with
                          | Some language => String.length language + 4
                          | None => 4
                          end)%nat in
          let codeContent := trim (substring_from codeStart (textBuffer st)) in
          if nonempty codeContent then
            match currentLanguage st with
            | Some language => parseCodeBlock P codeContent language
            | None => []
            end
          else []
        else []
    | None => []
    end in
  ({| currentCodeBlock := None; currentLanguage := None;
      parsedCommands := parsedCommands st; textBuffer := "" |},
   remainingCommands).

(** [IncrementalTextParser.reset()]. *)
Definition TextParser_reset (st : TextParser) : TextParser := new_TextParser.

(** *** StreamProcessor *)

(** [this.options.batchSize]: [undefined], or a number of calls. *)
Inductive BatchSize : Type :=
| Unset
| Size (n : nat).

(** The constructor of [StreamProcessor]:
    [{ batchSize: options.batchSize || 1, ..., ...options }].  The spread
    comes last, so a [batchSize] property of [options] wins whatever its
    value; [own] is that property, [None] when [options] has none. *)
Definition StreamProcessor_batchSize (own : option BatchSize) : BatchSize :=
  match own with
  | Some batchSize => batchSize
  | None => Size 1
  end.

(** The constructor of [Renderer] always passes the property:
    [{ ..., batchSize: options.batchSize, ... }]. *)
Definition Renderer_batchSize (own : option BatchSize) : BatchSize :=
  StreamProcessor_batchSize (Some (default Unset own)).

(** [for (let i = 0; i < pending.length; i += batchSize)
       batches.push(pending.slice(i, i + batchSize))]
    with a number for [batchSize]; [None] when [fuel] iterations do not
    end the loop. *)
Fixpoint slices (fuel i batchSize : nat) (pending : list JsVal)
  : option (list (list JsVal)) :=
  if (i <? length pending)%nat then
    match fuel with
    | O => None
    | S fuel' =>
        option_map (cons (take batchSize (drop i pending)))
                   (slices fuel' (i + batchSize) batchSize pending)
    end
  else Some [].

(** The same loop for either kind of [batchSize].  With [undefined],
    [i + batchSize] is NaN: [slice(0, NaN)] is empty and [NaN < length] is
    false, so a non-empty queue gives the one batch [[]]. *)
Definition batches (fuel : nat) (batchSize : BatchSize) (pending : list JsVal)
  : option (list (list JsVal)) :=
  match batchSize with
  | Unset => Some (match pending with [] => [] | _ :: _ => [[]] end)
  | Size n => slices fuel 0 n pending
  end.

(** [for (const batch of batches) try { executeToolCalls(batch) ... }
    catch (error) { ... }]; [seen] collects the results in the order
    [onToolCall] would be handed them. *)
Fixpoint run_batches (seen : list ResultEntry) (bs : list (list JsVal))
  : M DOMManager (list ResultEntry) :=
  match bs with
  | [] => ret seen
  | batch :: rest =>
      let! seen1 :=
        try_catch
          (let! results := executeToolCalls P batch in ret (seen ++ results))
          (fun _ => ret seen) in
      run_batches seen1 rest
  end.

(** [flushPendingToolCalls()] on the queue [pending]: the queue is emptied
    and the batches are run.  [None] when the slicing loop does not end
    within [fuel] iterations. *)
Definition flushPendingToolCalls (fuel : nat) (batchSize : BatchSize)
  (pending : list JsVal) : option (M DOMManager (list ResultEntry)) :=
  match pending with
  | [] => Some (ret [])
  | _ :: _ => option_map (run_batches []) (batches fuel batchSize pending)
  end.

(** *** IncrementalRenderer *)

(** The object [{ id, name, arguments, index }] the parser returns. *)
Definition completed_object (c : CompletedToolCall) : JsVal :=
  JObj [("id", match c_id c with Some i => JStr i | None => JUndefined end);
        ("name", JStr (c_name c));
        ("arguments", JStr (c_arguments c));
        ("index", JNum (c_index c))].

(** The record pushed to [this.executedToolCalls]. *)
Definition executed_record (c : CompletedToolCall) : JsVal :=
  JObj [("id", match c_id c with Some i => JStr i | None => JUndefined end);
        ("type", JStr "function");
        ("function", JObj [("name", JStr (c_name c));
                           ("arguments", JStr (c_arguments c))])].

Record IncrementalRenderer : Type := {
  parser : CommandParser;
  renderer : DOMManager;
  executedToolCalls : list JsVal
}.

(** The body of the loop over the completed tool calls, the same in
    [processChunk] and in [flush]: the store, [this.executedToolCalls] and
    the local [executedToolCalls] after it. *)
Definition execute_completed
  (st : DOMManager * list JsVal * list ResultEntry) (c : CompletedToolCall)
  : DOMManager * list JsVal * list ResultEntry :=
  let '(dm, executed, results) := st in
  let toolCall := completed_object c in
  match executeToolCall P toolCall dm with
  | (dm', Return result) =>
      (dm', executed ++ [executed_record c], results ++ [Success result toolCall])
  | (dm', Throw error) =>
      (dm', executed, results ++ [Failure (message error) toolCall])
  end.

(** [IncrementalRenderer.processChunk(chunk)], for a chunk of tool-call
    fragments. *)
Definition IncrementalRenderer_processChunk (r : IncrementalRenderer) (chunk : Chunk)
  : IncrementalRenderer * list ResultEntry :=
  let '(parser', completed) := parseChunk P (parser r) chunk in
  let '(dm, executed, results) :=
    fold_left execute_completed completed (renderer r, executedToolCalls r, []) in
  ({| parser := parser'; renderer := dm; executedToolCalls := executed |}, results).

(** [IncrementalRenderer.flush()]. *)
Definition IncrementalRenderer_flush (r : IncrementalRenderer)
  : IncrementalRenderer * list ResultEntry :=
  let '(parser', remaining) := CommandParser_flush (parser r) in
  let '(dm, executed, results) :=
    fold_left execute_completed remaining (renderer r, executedToolCalls r, []) in
  ({| parser := parser'; renderer := dm; executedToolCalls := executed |}, results).

End Streams.

(** ** Slots of the structured-delta parser *)

(** The slot key an emitted tool call was accumulated under. *)
Definition slot (c : CompletedToolCall) : string := toolCallKey (c_index c).

(** Every buffered record sits under the key of its own index. *)
Definition buffer_ok (st : CommandParser) : Prop :=
  forall k b, assoc_get k (toolCallBuffer st) = Some b -> toolCallKey (b_index b) = k.

(** [emits_once step]: a step of the parser emits only for slots that are
    not retired, at most once per slot, and retires the slots it emits
    for. *)
Definition emits_once {A}
  (step : CommandParser -> A -> CommandParser * list CompletedToolCall) : Prop :=
  forall st x st' out,
    step st x = (st', out) -> buffer_ok st ->
    buffer_ok st'
    /\ completedToolCalls st' = list_to_set (map slot out) ∪ completedToolCalls st
    /\ NoDup (map slot out)
    /\ (forall c, c ∈ out -> slot c ∉ completedToolCalls st).

(** ** The invariants of the element map

    The data model's invariants, as checks that run on a map.  ["root"] is
    the sentinel of a top-level element, so a well-formed map has no
    element of that name. *)

Definition all_elements (check : string -> ElementInfo -> bool)
  (els : gmap string ElementInfo) : bool :=
  forallb (fun kv => check (fst kv) (snd kv)) (map_to_list els).

Definition is_live (els : gmap string ElementInfo) (id : string) : bool :=
  match els !! id with Some _ => true | None => false end.

Definition mem (x : string) (l : list string) : bool := existsb (String.eqb x) l.

(** I1: every element's [parentId] is ["root"] or names a live element. *)
Definition I1 (els : gmap string ElementInfo) : bool :=
  all_elements (fun _ info =>
    String.eqb (parentId info) "root" || is_live els (parentId info)) els.

(** I2: an element is in the child set of [p] exactly when it is live and
    its [parentId] is [p]. *)
Definition I2 (els : gmap string ElementInfo) : bool :=
  all_elements (fun p info =>
    forallb (fun c => match els !! c with
                      | Some ic => String.eqb (parentId ic) p
                      | None => false
                      end) (children info)) els
  && all_elements (fun c ic =>
       match els !! parentId ic with
       | Some ip => mem c (children ip)
       | None => true
       end) els.

(** The sentinel names no element. *)
Definition root_is_sentinel (els : gmap string ElementInfo) : bool :=
  negb (is_live els "root").

(** An id is a non-empty string. *)
Definition ids_nonempty (els : gmap string ElementInfo) : bool :=
  negb (is_live els "").

Definition store_ok (els : gmap string ElementInfo) : bool :=
  root_is_sentinel els && ids_nonempty els && I1 els && I2 els.

(** [fits depth els x]: removing [x] nests at most [depth] calls, so the
    child sets below [x] hold no cycle (I4 below [x]). *)
Fixpoint fits (depth : nat) (els : gmap string ElementInfo) (x : string) : bool :=
  match depth with
  | O => false
  | S depth' =>
      match els !! x with
      | None => true
      | Some info => forallb (fits depth' els) (children info)
      end
  end.

(** [reach els x d]: [d] is [x] or is below [x] through the child sets. *)
Inductive reach (els : gmap string ElementInfo) : string -> string -> Prop :=
| reach_self x : reach els x x
| reach_child x info c d :
    els !! x = Some info -> c ∈ children info -> reach els c d -> reach els x d.


(** [shrinks els els']: [els'] is [els] after some removals.  What is live
    in [els'] was live, with its node and parent and no new child; a child
    that left a child set is gone; and whatever was below an element that is
    gone is gone with it. *)
Record shrinks (els els' : gmap string ElementInfo) : Prop := {
  shrinks_live : forall y i', els' !! y = Some i' ->
    exists i, els !! y = Some i /\ parentId i' = parentId i /\ node i' = node i
              /\ (forall c, c ∈ children i' -> c ∈ children i);
  shrinks_pruned : forall y i i' c,
    els !! y = Some i -> els' !! y = Some i' -> c ∈ children i ->
    c ∈ children i' \/ els' !! c = None;
  shrinks_closed : forall y d,
    is_Some (els !! y) -> els' !! y = None -> reach els y d -> els' !! d = None
}.

(** What one call of [removeElement] establishes, given a stack that
    [fits]. *)
Definition removal_ok (depth : nat) : Prop :=
  forall x (els : gmap string ElementInfo), fits depth els x = true ->
    exists els', removeElement_rec depth x els = (els', Return tt)
      /\ shrinks els els'
      /\ els' !! x = None
      /\ (els !! x = None -> els' = els)
      /\ (forall info ip', els !! x = Some info ->
            els' !! parentId info = Some ip' ->
            names_element (parentId info) = true -> x ∉ children ip').

(** [within els els']: the live elements and child links of [els'] are
    among those of [els]. *)
Definition within (els els' : gmap string ElementInfo) : Prop :=
  forall y i', els' !! y = Some i' ->
    exists i, els !! y = Some i /\ (forall c, c ∈ children i' -> c ∈ children i).

(** [well_formed els]: what [store_ok] checks, as propositions. *)
Record well_formed (els : gmap string ElementInfo) : Prop := {
  wf_root : els !! "root" = None;
  wf_nonempty : els !! "" = None;
  wf_parent : forall k info, els !! k = Some info ->
    parentId info = "root" \/ is_Some (els !! parentId info);
  wf_child_live : forall p ip c, els !! p = Some ip -> c ∈ children ip ->
    exists ic, els !! c = Some ic /\ parentId ic = p;
  wf_child_listed : forall c ic ip, els !! c = Some ic ->
    els !! parentId ic = Some ip -> c ∈ children ip
}.

(** [tidy els els']: an element that was listed by its parent and is gone
    from [els'] is gone from its parent's child set too. *)
Definition tidy (els els' : gmap string ElementInfo) : Prop :=
  forall p ip' c ic,
    els' !! p = Some ip' -> c ∈ children ip' ->
    els !! c = Some ic -> parentId ic = p -> names_element p = true ->
    is_Some (els' !! c).

(** ** What the properties of the streams are stated with *)

(** The test the delta loop and [flush] put to a buffered record before
    they emit it: a name, arguments that are not blank, and arguments
    [JSON.parse] accepts. *)
Definition complete (P : Platform) (name arguments : string) : bool :=
  nonempty name && nonempty arguments && nonempty (trim arguments)
  && parses P arguments.

(** Every record in the buffer fails that test. *)
Definition pending_only (P : Platform) (st : CommandParser) : Prop :=
  Forall (fun kb => complete P (b_name kb.2) (b_arguments kb.2) = false)
         (toolCallBuffer st).

(** The fragments of one tool call as the stream delivers them: the first
    carries the id and the name, each carries a piece of the arguments. *)
Definition fragments (index : Z) (id : option string) (name : string)
  (first : string) (rest : list string) : list DeltaToolCall :=
  {| d_index := index; d_id := id; d_name := Some name;
     d_arguments := Some first |}
  :: map (fun piece => {| d_index := index; d_id := None; d_name := None;
                          d_arguments := Some piece |}) rest.

(** The pieces put together. *)
Definition joined (pieces : list string) : string :=
  fold_right String.append "" pieces.

(** What every emitted tool call has: a name and arguments that are not
    empty, and arguments [JSON.parse] accepts. *)
Definition emitted_ok (P : Platform) (c : CompletedToolCall) : Prop :=
  nonempty (c_name c) = true /\ nonempty (c_arguments c) = true
  /\ parses P (c_arguments c) = true.

(** The completed tool calls whose entry reports a success. *)
Fixpoint succeeded (completed : list CompletedToolCall) (results : list ResultEntry)
  : list CompletedToolCall :=
  match completed, results with
  | c :: completed', r :: results' =>
      if success r then c :: succeeded completed' results'
      else succeeded completed' results'
  | _, _ => []
  end.

(** Two results of the fenced-text parser that agree on the buffer and on
    the commands. *)
Definition same_text (x y : TextParser * list JsVal) : Prop :=
  textBuffer x.1 = textBuffer y.1 /\ x.2 = y.2.


(** * Properties *)

#[local] Arguments String.append !s1 s2 : simpl nomatch.

(** ** Strings and the monad *)

Lemma append_empty_r (s : string) : (s ++ "")%string = s.
Proof. induction s as [|c s IH]; [reflexivity | cbn; f_equal; exact IH]. Qed.

Lemma append_assoc (a b c : string) :
  ((a ++ b) ++ c)%string = (a ++ (b ++ c))%string.
Proof. induction a as [|x a IH]; [reflexivity | cbn; f_equal; exact IH]. Qed.

Lemma eqb_empty_false (s : string) : s ≠ "" -> String.eqb s "" = false.
Proof. intros H. now apply String.eqb_neq. Qed.

Lemma with_node_same (info : ElementInfo) :
  with_node info (with_text (node info) (textContent (node info))) = info.
Proof. destruct info as [[? ? ?] ? ?]; reflexivity. Qed.

Lemma with_elements_same (dm : DOMManager) : with_elements dm (elements dm) = dm.
Proof. destruct dm; reflexivity. Qed.

(** ** The text operations *)

Section TextOperations.

Variable P : Platform.

Lemma DOMManager_appendText_live els id info text :
  els !! id = Some info ->
  DOMManager_appendText id text els =
    (<[id := with_node info (with_text (node info) (textContent (node info) ++ text))]> els,
     Return tt).
Proof. intros H. unfold DOMManager_appendText. now rewrite H. Qed.

(** C9. appendText is associative with respect to splitting: on a live
    element, appending [s1] and then [s2] both succeed and leave the store
    that one append of [s1 ++ s2] leaves, with the text extended by
    [s1 ++ s2]. *)
Theorem appendText_split (els : gmap string ElementInfo) (id s1 s2 : string)
  (info : ElementInfo) :
  els !! id = Some info ->
  exists els1 els2 info2,
    DOMManager_appendText id s1 els = (els1, Return tt)
    /\ DOMManager_appendText id s2 els1 = (els2, Return tt)
    /\ DOMManager_appendText id (s1 ++ s2) els = (els2, Return tt)
    /\ els2 !! id = Some info2
    /\ textContent (node info2) = (textContent (node info) ++ (s1 ++ s2))%string.
Proof.
  intros Hlive.
  rewrite (DOMManager_appendText_live els id info s1 Hlive).
  rewrite (DOMManager_appendText_live els id info (s1 ++ s2) Hlive).
  eexists _, _, _. split; [reflexivity|].
  rewrite (DOMManager_appendText_live _ id _ s2 (lookup_insert_eq _ _ _)).
  simpl. rewrite insert_insert_eq, append_assoc.
  split; [reflexivity|]. split; [reflexivity|].
  split; [apply lookup_insert_eq | reflexivity].
Qed.

(** The dispatcher on a [setText] or [appendText] instruction whose
    arguments are the object [args]. *)
Lemma executeToolCall_text_args dm name args id t :
  name = "setText" \/ name = "appendText" ->
  get_prop args "elementId" = Return (JStr id) ->
  get_prop args "text" = Return t ->
  id ≠ "" ->
  executeToolCall P (JObj [("name", JStr name); ("arguments", args)]) dm =
    match on_elements
            ((if String.eqb name "setText"
              then DOMManager_setText else DOMManager_appendText)
               id (js_String (js_or (js_or t (JStr "")) (JStr ""))))
            dm with
    | (dm', Return _) => (dm', Return (success_result id))
    | (dm', Throw e) => (dm', Throw e)
    end.
Proof.
  intros Hname Hid Htext Hne.
  assert (Hobj : exists fields, args = JObj fields).
  { destruct args; simpl in Hid; try discriminate. eauto. }
  destruct Hobj as [fields ->].
  cbn in Hid, Htext. injection Hid as Hid. injection Htext as Htext.
  unfold executeToolCall, bind, lift_outcome, try_catch, ret.
  destruct Hname as [-> | ->]; cbn.
  - rewrite Hid, Htext. cbn. rewrite (eqb_empty_false id Hne).
    unfold bind, on_elements, ret, throw.
    destruct (DOMManager_setText _ _ _) as [els [[]|e]]; reflexivity.
  - rewrite Hid, Htext. cbn. rewrite (eqb_empty_false id Hne).
    unfold bind, on_elements, ret, throw.
    destruct (DOMManager_appendText _ _ _) as [els [[]|e]]; reflexivity.
Qed.

(** C10. A setText or appendText instruction whose arguments omit [text],
    or carry a falsy [text], is executed as with the empty string: it
    succeeds on a live element, setText clears the text and appendText
    leaves the store as it was. *)
Theorem missing_text_is_empty_string (dm : DOMManager) (id : string)
  (info : ElementInfo) (args t : JsVal) :
  elements dm !! id = Some info ->
  id ≠ "" ->
  get_prop args "elementId" = Return (JStr id) ->
  get_prop args "text" = Return t ->
  truthy t = false ->
  let explicit := JObj [("elementId", JStr id); ("text", JStr "")] in
  let call name a := executeToolCall P (JObj [("name", JStr name); ("arguments", a)]) dm in
  call "setText" args = call "setText" explicit
  /\ call "appendText" args = call "appendText" explicit
  /\ call "setText" args =
       (with_elements dm
          (<[id := with_node info (with_text (node info) "")]> (elements dm)),
        Return (success_result id))
  /\ call "appendText" args = (dm, Return (success_result id)).
Proof.
  intros Hlive Hne Hid Htext Hfalsy explicit call. subst call explicit. cbv beta.
  assert (He : get_prop (JObj [("elementId", JStr id); ("text", JStr "")]) "elementId"
               = Return (JStr id)) by reflexivity.
  assert (Ht : get_prop (JObj [("elementId", JStr id); ("text", JStr "")]) "text"
               = Return (JStr "")) by reflexivity.
  rewrite !(executeToolCall_text_args dm _ args id t) by auto.
  rewrite !(executeToolCall_text_args dm _ _ id (JStr "") ) by auto.
  assert (Hs : js_String (js_or (js_or t (JStr "")) (JStr "")) = "").
  { unfold js_or. rewrite Hfalsy. reflexivity. }
  rewrite Hs. cbn [js_or truthy String.eqb negb js_String].
  unfold on_elements, DOMManager_setText, DOMManager_appendText.
  cbn. rewrite Hlive. cbn.
  rewrite append_empty_r, with_node_same, (insert_id (elements dm) id info Hlive).
  rewrite with_elements_same. repeat split.
Qed.

End TextOperations.

(** ** The dispatcher *)

Section Dispatcher.

Variable P : Platform.

Lemma executeToolCalls_loop_cons acc tc rest dm :
  executeToolCalls_loop P acc (tc :: rest) dm =
    match executeToolCall P tc dm with
    | (dm1, Return r) => executeToolCalls_loop P (acc ++ [Success r tc]) rest dm1
    | (dm1, Throw e) =>
        executeToolCalls_loop P (acc ++ [Failure (message e) tc]) rest dm1
    end.
Proof.
  cbn [executeToolCalls_loop].
  unfold bind at 1. unfold executeToolCalls_step, try_catch, bind, ret.
  destruct (executeToolCall P tc dm) as [dm1 [r|e]]; reflexivity.
Qed.

(** The loop never throws, and pushes one entry per instruction, in the
    order of the instructions. *)
Lemma executeToolCalls_loop_total tcs :
  forall acc dm, exists dm' rs,
    executeToolCalls_loop P acc tcs dm = (dm', Return (acc ++ rs))
    /\ length rs = length tcs
    /\ map entry_toolCall rs = tcs.
Proof.
  induction tcs as [|tc rest IH]; intros acc dm.
  - exists dm, []. rewrite app_nil_r. repeat split.
  - rewrite executeToolCalls_loop_cons.
    destruct (executeToolCall P tc dm) as [dm1 [r|e]].
    + destruct (IH (acc ++ [Success r tc]) dm1) as (dm' & rs & Heq & Hlen & Hmap).
      exists dm', (Success r tc :: rs). rewrite Heq, <- app_assoc.
      cbn. rewrite Hlen, Hmap. repeat split.
    + destruct (IH (acc ++ [Failure (message e) tc]) dm1)
        as (dm' & rs & Heq & Hlen & Hmap).
      exists dm', (Failure (message e) tc :: rs). rewrite Heq, <- app_assoc.
      cbn. rewrite Hlen, Hmap. repeat split.
Qed.

Lemma executeToolCall_unknown tc dm nameV :
  get_prop tc "name" = Return nameV ->
  (if truthy nameV then boundTools (id_key nameV) else None) = None ->
  executeToolCall P tc dm = (dm, Throw (Error ("Unknown tool: " ++ js_String nameV))).
Proof.
  intros Hname Hunknown.
  assert (Hargs : exists a, get_prop tc "arguments" = Return a).
  { destruct tc; cbn in Hname |- *; try discriminate; eauto. }
  destruct Hargs as [a Hargs].
  unfold executeToolCall, bind, lift_outcome. rewrite Hname, Hargs, Hunknown.
  reflexivity.
Qed.

Lemma executeToolCall_bad_json tc dm nameV toolFn text :
  get_prop tc "name" = Return nameV ->
  truthy nameV = true ->
  boundTools (id_key nameV) = Some toolFn ->
  get_prop tc "arguments" = Return (JStr text) ->
  JSON_parse P text = None ->
  executeToolCall P tc dm = (dm, Throw (Error ("Invalid JSON arguments: " ++ text))).
Proof.
  intros Hname Htruthy Hbound Hargs Hparse.
  unfold executeToolCall, bind, lift_outcome.
  rewrite Hname, Hargs, Htruthy, Hbound, Hparse. reflexivity.
Qed.

(** C1, as the code has it. [executeToolCall] returns the tool's result or
    raises: an unknown name raises "Unknown tool", a string of arguments
    that is not JSON raises "Invalid JSON arguments", both before the store
    is touched.  The result envelope is made by [executeToolCalls], which
    catches what [executeToolCall] raises and itself never raises. *)
Theorem executeToolCall_raises_executeToolCalls_captures
  (tc : JsVal) (dm : DOMManager) :
  executeToolCalls P [tc] dm =
    match executeToolCall P tc dm with
    | (dm', Return r) => (dm', Return [Success r tc])
    | (dm', Throw e) => (dm', Return [Failure (message e) tc])
    end
  /\ (forall tcs, exists dm' results,
        executeToolCalls P tcs dm = (dm', Return results))
  /\ (forall nameV,
        get_prop tc "name" = Return nameV ->
        (if truthy nameV then boundTools (id_key nameV) else None) = None ->
        executeToolCall P tc dm =
          (dm, Throw (Error ("Unknown tool: " ++ js_String nameV))))
  /\ (forall nameV toolFn text,
        get_prop tc "name" = Return nameV ->
        truthy nameV = true ->
        boundTools (id_key nameV) = Some toolFn ->
        get_prop tc "arguments" = Return (JStr text) ->
        JSON_parse P text = None ->
        executeToolCall P tc dm =
          (dm, Throw (Error ("Invalid JSON arguments: " ++ text)))).
Proof.
  split; [|split; [|split]].
  - unfold executeToolCalls. rewrite executeToolCalls_loop_cons.
    destruct (executeToolCall P tc dm) as [dm1 [r|e]]; reflexivity.
  - intros tcs. unfold executeToolCalls.
    destruct (executeToolCalls_loop_total tcs [] dm) as (dm' & rs & Heq & _).
    eauto.
  - intros nameV. apply executeToolCall_unknown.
  - intros nameV toolFn text. apply executeToolCall_bad_json.
Qed.


(** C8, at the input where the code departs from it. A creation
    instruction whose [tagName] is empty, absent or not a string is
    rejected: [h] raises, nothing is created, and the batch reports a
    failed entry. *)
Theorem h_rejects_invalid_tagName (dm : DOMManager) (parentId tag props : JsVal) :
  truthy tag && is_string tag = false ->
  let toolCall :=
    JObj [("name", JStr "h");
          ("arguments",
           JObj [("parentId", parentId); ("tagName", tag); ("props", props)])] in
  h P parentId tag props dm = (dm, Throw (Error "tagName must be a non-empty string"))
  /\ executeToolCall P toolCall dm =
       (dm, Throw (Error "tagName must be a non-empty string"))
  /\ executeToolCalls P [toolCall] dm =
       (dm, Return [Failure "tagName must be a non-empty string" toolCall]).
Proof.
  intros Hbad toolCall.
  assert (Hh : forall props', h P parentId tag props' dm =
             (dm, Throw (Error "tagName must be a non-empty string"))).
  { intros props'. unfold h.
    replace (negb (truthy tag) || negb (is_string tag)) with true; [reflexivity|].
    destruct (truthy tag), (is_string tag); cbn in *; congruence. }
  assert (Hexec : executeToolCall P toolCall dm =
             (dm, Throw (Error "tagName must be a non-empty string"))).
  { unfold executeToolCall, toolCall, bind, lift_outcome, try_catch. cbn.
    unfold bind, lift_outcome. rewrite Hh. reflexivity. }
  split; [apply Hh|]. split; [exact Hexec|].
  unfold executeToolCalls. rewrite executeToolCalls_loop_cons, Hexec. reflexivity.
Qed.

End Dispatcher.

(** ** Removal *)

Section Removal.

Implicit Types els : gmap string ElementInfo.

Lemma all_elements_spec check els :
  all_elements check els = true <->
  forall k info, els !! k = Some info -> check k info = true.
Proof.
  unfold all_elements. rewrite forallb_forall. split.
  - intros H k info Hk. apply (H (k, info)).
    apply list_elem_of_In, elem_of_map_to_list. exact Hk.
  - intros H [k info] Hin. apply list_elem_of_In, elem_of_map_to_list in Hin.
    now apply H.
Qed.

Lemma mem_spec x l : mem x l = true <-> x ∈ l.
Proof.
  unfold mem. rewrite existsb_exists. split.
  - intros (y & Hin & Heq). apply String.eqb_eq in Heq. subst y.
    now apply list_elem_of_In.
  - intros Hin. exists x. split; [now apply list_elem_of_In | apply String.eqb_refl].
Qed.

Lemma forallb_elem_of {A} (f : A -> bool) (l : list A) :
  forallb f l = true <-> forall x, x ∈ l -> f x = true.
Proof.
  rewrite forallb_forall. split; intros H x Hx; apply H;
    [now apply list_elem_of_In | now apply list_elem_of_In].
Qed.

Lemma set_delete_spec x y l : y ∈ set_delete x l <-> y ≠ x /\ y ∈ l.
Proof.
  unfold set_delete. rewrite list_elem_of_filter.
  split; intros [H1 H2]; split; try assumption.
  - intros ->. rewrite String.eqb_refl in H1. exact H1.
  - destruct (String.eqb x y) eqn:E; [|exact I].
    apply String.eqb_eq in E. congruence.
Qed.

Lemma lookup_detach pid x els y :
  detach_from_parent pid x els !! y =
    match els !! y with
    | Some i =>
        Some (if String.eqb y pid && names_element pid
              then with_children i (set_delete x (children i)) else i)
    | None => None
    end.
Proof.
  unfold detach_from_parent.
  destruct (names_element pid) eqn:Hn.
  - destruct (String.eqb y pid) eqn:E.
    + apply String.eqb_eq in E. subst y.
      destruct (els !! pid) as [ip|] eqn:Hp; cbn.
      * now rewrite lookup_insert_eq.
      * now rewrite Hp.
    + apply String.eqb_neq in E.
      destruct (els !! pid) as [ip|] eqn:Hp; cbn.
      * rewrite lookup_insert_ne by congruence. now destruct (els !! y).
      * now destruct (els !! y).
  - rewrite andb_false_r. now destruct (els !! y).
Qed.

Lemma reach_dead els c d : els !! c = None -> reach els c d -> d = c.
Proof. intros Hc Hr. destruct Hr; [reflexivity | congruence]. Qed.

Lemma shrinks_refl els : shrinks els els.
Proof.
  split.
  - intros y i Hy. exists i. auto.
  - intros y i i' c Hy Hy' Hc. left. congruence.
  - intros y d [i Hy] Hdead. congruence.
Qed.

Lemma shrinks_dead_stays els els' y :
  shrinks els els' -> els !! y = None -> els' !! y = None.
Proof.
  intros Hs Hy. destruct (els' !! y) as [i'|] eqn:E; [|reflexivity].
  destruct (shrinks_live _ _ Hs y i' E) as (i & Hi & _). congruence.
Qed.

Lemma reach_shrinks els els1 y d :
  shrinks els els1 -> reach els y d -> reach els1 y d \/ els1 !! d = None.
Proof.
  intros Hs Hr. induction Hr as [x | x info c d Hx Hc Hr IH].
  - left. constructor.
  - destruct IH as [IH | IH]; [|now right].
    destruct (els1 !! x) as [i1|] eqn:Hx1.
    + destruct (shrinks_pruned _ _ Hs x info i1 c Hx Hx1 Hc) as [Hin | Hdead].
      * left. econstructor; eassumption.
      * right. now rewrite (reach_dead _ _ _ Hdead IH).
    + right. apply (shrinks_closed _ _ Hs x d); [eauto | exact Hx1 |].
      econstructor; eassumption.
Qed.

Lemma shrinks_trans els els1 els2 :
  shrinks els els1 -> shrinks els1 els2 -> shrinks els els2.
Proof.
  intros H1 H2. split.
  - intros y i2 Hy2.
    destruct (shrinks_live _ _ H2 y i2 Hy2) as (i1 & Hy1 & Hp & Hn & Hc).
    destruct (shrinks_live _ _ H1 y i1 Hy1) as (i & Hy & Hp' & Hn' & Hc').
    exists i. repeat split; try congruence. auto.
  - intros y i i2 c Hy Hy2 Hc.
    destruct (shrinks_live _ _ H2 y i2 Hy2) as (i1 & Hy1 & _).
    destruct (shrinks_pruned _ _ H1 y i i1 c Hy Hy1 Hc) as [Hin | Hdead].
    + apply (shrinks_pruned _ _ H2 y i1 i2 c Hy1 Hy2 Hin).
    + right. now apply (shrinks_dead_stays els1).
  - intros y d Hlive Hdead Hr.
    destruct (els1 !! y) as [i1|] eqn:Hy1.
    + destruct (reach_shrinks _ _ _ _ H1 Hr) as [Hr1 | Hd1].
      * apply (shrinks_closed _ _ H2 y d); eauto.
      * now apply (shrinks_dead_stays els1).
    + apply (shrinks_dead_stays els1); [assumption|].
      now apply (shrinks_closed _ _ H1 y d).
Qed.

Lemma fits_shrinks depth : forall els els' x,
  shrinks els els' -> fits depth els x = true -> fits depth els' x = true.
Proof.
  induction depth as [|depth IH]; intros els els' x Hs Hfit; [discriminate|].
  cbn in *. destruct (els' !! x) as [i'|] eqn:Hx'; [|reflexivity].
  destruct (shrinks_live _ _ Hs x i' Hx') as (i & Hx & _ & _ & Hsub).
  rewrite Hx in Hfit. rewrite forallb_elem_of in Hfit |- *.
  intros c Hc. apply (IH els); auto.
Qed.

(** The last two statements of [removeElement]: the id leaves its parent's
    child set and the map. *)
Lemma shrinks_retire els1 pid x :
  (forall i1, els1 !! x = Some i1 -> forall c, c ∈ children i1 -> els1 !! c = None) ->
  shrinks els1 (delete x (detach_from_parent pid x els1)).
Proof.
  intros Hkids.
  assert (Hlook : forall y, y ≠ x ->
            delete x (detach_from_parent pid x els1) !! y =
              match els1 !! y with
              | Some i => Some (if String.eqb y pid && names_element pid
                                then with_children i (set_delete x (children i))
                                else i)
              | None => None
              end).
  { intros y Hy. rewrite lookup_delete_ne by congruence. apply lookup_detach. }
  split.
  - intros y i' Hy'.
    destruct (decide (y = x)) as [-> | Hne]; [now rewrite lookup_delete_eq in Hy'|].
    rewrite (Hlook y Hne) in Hy'.
    destruct (els1 !! y) as [i|]; [|discriminate]. injection Hy' as <-.
    exists i. destruct (String.eqb y pid && names_element pid); cbn; repeat split; auto.
    intros c Hc. now apply set_delete_spec in Hc.
  - intros y i i' c Hy Hy' Hc.
    destruct (decide (y = x)) as [-> | Hne]; [now rewrite lookup_delete_eq in Hy'|].
    rewrite (Hlook y Hne), Hy in Hy'. injection Hy' as <-.
    destruct (String.eqb y pid && names_element pid); cbn; [|now left].
    destruct (decide (c = x)) as [-> | Hcx].
    + right. apply lookup_delete_eq.
    + left. now apply set_delete_spec.
  - intros y d [i Hy] Hdead Hr.
    destruct (decide (y = x)) as [-> | Hne].
    + destruct Hr as [x | x info c d Hx Hc Hr]; [exact Hdead|].
      rewrite (reach_dead _ _ _ (Hkids info Hx c Hc) Hr).
      destruct (decide (c = x)) as [-> | Hcx]; [apply lookup_delete_eq|].
      rewrite (Hlook c Hcx), (Hkids info Hx c Hc). reflexivity.
    + rewrite (Hlook y Hne), Hy in Hdead. discriminate.
Qed.

Lemma for_each_cons {S A} (body : A -> M S unit) x rest s :
  for_each body (x :: rest) s =
    match body x s with
    | (s', Return _) => for_each body rest s'
    | (s', Throw e) => (s', Throw e)
    end.
Proof. reflexivity. Qed.

Lemma removal_loop depth :
  removal_ok depth ->
  forall cs els, (forall c, c ∈ cs -> fits depth els c = true) ->
    exists els1, for_each (removeElement_rec depth) cs els = (els1, Return tt)
      /\ shrinks els els1
      /\ (forall c, c ∈ cs -> els1 !! c = None).
Proof.
  intros Hcall cs. induction cs as [|c rest IH]; intros els Hfit.
  - exists els. split; [reflexivity|]. split; [apply shrinks_refl|].
    intros c Hc. now apply elem_of_nil in Hc.
  - destruct (Hcall c els) as (els_a & Hrun & Hs & Hdead & _).
    { apply Hfit. now left. }
    destruct (IH els_a) as (els1 & Hrun1 & Hs1 & Hdead1).
    { intros c' Hc'. apply (fits_shrinks _ els); [assumption|].
      apply Hfit. now right. }
    exists els1. rewrite for_each_cons, Hrun. split; [exact Hrun1|].
    split; [now apply (shrinks_trans _ els_a)|].
    intros c' Hc'. apply elem_of_cons in Hc' as [-> | Hc'].
    + now apply (shrinks_dead_stays els_a).
    + now apply Hdead1.
Qed.

Lemma removal_ok_all depth : removal_ok depth.
Proof.
  induction depth as [|depth IH]; intros x els Hfit; [discriminate|].
  cbn [fits] in Hfit. cbn [removeElement_rec].
  destruct (els !! x) as [info|] eqn:Hx.
  - rewrite forallb_elem_of in Hfit.
    destruct (removal_loop depth IH (children info) els Hfit)
      as (els1 & Hrun & Hs & Hdead).
    rewrite Hrun.
    assert (Hstep : shrinks els1
              (delete x (detach_from_parent (parentId info) x els1))).
    { apply shrinks_retire. intros i1 Hx1 c Hc. apply Hdead.
      destruct (shrinks_live _ _ Hs x i1 Hx1) as (i & Hxi & _ & _ & Hsub).
      assert (i = info) by congruence. subst i. auto. }
    eexists. split; [reflexivity|].
    split; [now apply (shrinks_trans _ els1)|].
    split; [apply lookup_delete_eq|].
    split; [discriminate|].
    intros info0 ip' Hinfo0 Hp Hnames Hin.
    injection Hinfo0 as <-.
    destruct (decide (parentId info = x)) as [Heq | Hne].
    + rewrite Heq, lookup_delete_eq in Hp. discriminate.
    + rewrite lookup_delete_ne, lookup_detach in Hp by congruence.
      destruct (els1 !! parentId info) as [ip|]; [|discriminate].
      rewrite String.eqb_refl, Hnames in Hp. injection Hp as <-.
      cbn in Hin. apply set_delete_spec in Hin. now destruct Hin.
  - exists els. split; [reflexivity|]. split; [apply shrinks_refl|].
    split; [exact Hx|]. split; [reflexivity|]. intros info ip' H. discriminate.
Qed.

(** Only what is below [x] is removed, whether the call returns or
    throws. *)
Lemma within_refl els : within els els.
Proof. intros y i Hy. exists i. auto. Qed.

Lemma within_trans els els1 els2 : within els els1 -> within els1 els2 -> within els els2.
Proof.
  intros H1 H2 y i2 Hy2. destruct (H2 y i2 Hy2) as (i1 & Hy1 & Hsub1).
  destruct (H1 y i1 Hy1) as (i & Hy & Hsub). exists i. split; auto.
Qed.

Lemma reach_within els els' a b : within els els' -> reach els' a b -> reach els a b.
Proof.
  intros Hw Hr. induction Hr as [x | x info c d Hx Hc Hr IH]; [constructor|].
  destruct (Hw x info Hx) as (i & Hxi & Hsub).
  econstructor; [exact Hxi | apply Hsub, Hc | exact IH].
Qed.

Lemma within_retire els1 pid x : within els1 (delete x (detach_from_parent pid x els1)).
Proof.
  intros y i' Hy'.
  destruct (decide (y = x)) as [-> | Hne]; [now rewrite lookup_delete_eq in Hy'|].
  rewrite lookup_delete_ne, lookup_detach in Hy' by congruence.
  destruct (els1 !! y) as [i|]; [|discriminate]. injection Hy' as <-.
  exists i. split; [reflexivity|].
  destruct (String.eqb y pid && names_element pid); cbn; auto.
  intros c Hc. now apply set_delete_spec in Hc.
Qed.

Lemma removal_only_below depth : forall x els els' o,
  removeElement_rec depth x els = (els', o) ->
  within els els'
  /\ (forall y, is_Some (els !! y) -> els' !! y = None -> reach els x y).
Proof.
  induction depth as [|depth IH]; intros x els els' o Hrun.
  - injection Hrun as <- <-. split; [apply within_refl|].
    intros y [i Hy] Hdead. congruence.
  - cbn [removeElement_rec] in Hrun.
    destruct (els !! x) as [info|] eqn:Hx.
    2:{ injection Hrun as <- <-. split; [apply within_refl|].
        intros y [i Hy] Hdead. congruence. }
    assert (Hloop : forall cs cur out oc,
      for_each (removeElement_rec depth) cs cur = (out, oc) ->
      within cur out
      /\ (forall y, is_Some (cur !! y) -> out !! y = None ->
            exists c, c ∈ cs /\ reach cur c y)).
    { induction cs as [|c rest IHcs]; intros cur out oc Hfe.
      - injection Hfe as <- <-. split; [apply within_refl|].
        intros y [i Hy] Hdead. congruence.
      - rewrite for_each_cons in Hfe.
        destruct (removeElement_rec depth c cur) as [els_a [[]|e]] eqn:Hc.
        + destruct (IH _ _ _ _ Hc) as [Hw Hbelow].
          destruct (IHcs _ _ _ Hfe) as [Hw' Hbelow'].
          split; [now apply (within_trans _ els_a)|].
          intros y Hy Hdead. destruct (els_a !! y) as [ia|] eqn:Hya.
          * destruct (Hbelow' y) as (c' & Hc' & Hr); [eauto | assumption |].
            exists c'. split; [now right | now apply (reach_within _ els_a)].
          * exists c. split; [now left | now apply Hbelow].
        + injection Hfe as <- <-. destruct (IH _ _ _ _ Hc) as [Hw Hbelow].
          split; [assumption|]. intros y Hy Hdead.
          exists c. split; [now left | now apply Hbelow]. }
    destruct (for_each (removeElement_rec depth) (children info) els)
      as [els1 [[]|e]] eqn:Hfe; injection Hrun as <- <-;
      destruct (Hloop _ _ _ _ Hfe) as [Hw Hbelow].
    + split; [apply (within_trans _ els1); [assumption | apply within_retire]|].
      intros y Hy Hdead.
      destruct (decide (y = x)) as [-> | Hne]; [constructor|].
      rewrite lookup_delete_ne, lookup_detach in Hdead by congruence.
      destruct (els1 !! y) as [i1|] eqn:Hy1; [discriminate|].
      destruct (Hbelow y Hy Hy1) as (c & Hc & Hr).
      econstructor; eassumption.
    + split; [assumption|]. intros y Hy Hdead.
      destruct (Hbelow y Hy Hdead) as (c & Hc & Hr).
      econstructor; eassumption.
Qed.




End Removal.

(** ** Renaming and re-creating *)

Section Identity.

Variable P : Platform.

Lemma I1_false els c ic :
  els !! c = Some ic -> parentId ic ≠ "root" -> els !! parentId ic = None ->
  I1 els = false.
Proof.
  intros Hc Hroot Hdead. apply not_true_is_false. unfold I1.
  rewrite all_elements_spec. intros Hall. specialize (Hall c ic Hc).
  unfold is_live in Hall. rewrite Hdead, orb_false_r in Hall.
  now apply String.eqb_eq in Hall.
Qed.

(** C2, at the input where the code departs from it. Renaming [p] to a
    fresh id [q] through [updateElement] re-keys the element and leaves
    every child of [p] with [parentId] still [p], which no longer resolves:
    I1 fails in the map the call returns. *)
Theorem rename_leaves_children_behind (els : gmap string ElementInfo)
  (p q c : string) (ip ic : ElementInfo) (props : JsVal) (n : DomNode) :
  els !! p = Some ip ->
  els !! c = Some ic ->
  parentId ic = p ->
  p ≠ "root" -> c ≠ p -> c ≠ q -> q ≠ p -> q ≠ "" ->
  get_prop props "id" = Return (JStr q) ->
  setProps P props (node ip) = (n, Return tt) ->
  exists els',
    DOMManager_updateElement P p props els = (els', Return tt)
    /\ els' !! p = None
    /\ (exists iq, els' !! q = Some iq /\ node iq = n /\ parentId iq = parentId ip)
    /\ (exists ic', els' !! c = Some ic' /\ parentId ic' = p)
    /\ I1 els' = false.
Proof.
  intros Hp Hc Hpar Hroot Hcp Hcq Hqp Hq Hid Hset.
  unfold DOMManager_updateElement. rewrite Hp, Hset, Hid.
  cbn [truthy strict_eq_str].
  rewrite (eqb_empty_false q Hq). apply String.eqb_neq in Hqp as Hqp'.
  rewrite Hqp'. cbn [negb andb]. cbv zeta. cbn [id_key js_String].
  set (info := with_node ip n).
  set (els2 := delete p (<[q := info]> (<[p := info]> els))).
  assert (H2p : els2 !! p = None) by apply lookup_delete_eq.
  assert (H2q : els2 !! q = Some info).
  { unfold els2. rewrite lookup_delete_ne, lookup_insert_eq by congruence. reflexivity. }
  assert (H2c : els2 !! c = Some ic).
  { unfold els2. rewrite lookup_delete_ne, !lookup_insert_ne by congruence. exact Hc. }
  assert (Hfinal : forall els',
    els' !! p = None ->
    (exists iq, els' !! q = Some iq /\ node iq = n /\ parentId iq = parentId ip) ->
    (exists ic', els' !! c = Some ic' /\ parentId ic' = p) ->
    els' !! p = None
    /\ (exists iq, els' !! q = Some iq /\ node iq = n /\ parentId iq = parentId ip)
    /\ (exists ic', els' !! c = Some ic' /\ parentId ic' = p)
    /\ I1 els' = false).
  { intros els' H1 H2 H3. repeat split; try assumption.
    destruct H3 as (ic' & Hc' & Hpar'). apply (I1_false els' c ic' Hc'); congruence. }
  destruct (names_element (parentId info)) eqn:Hnames.
  - destruct (els2 !! parentId info) as [parentInfo|] eqn:Hparent.
    + eexists. split; [reflexivity|].
      assert (Hpp : parentId info ≠ p) by congruence.
      apply Hfinal.
      * rewrite lookup_insert_ne by congruence. exact H2p.
      * destruct (decide (parentId info = q)) as [E|E].
        -- rewrite E, lookup_insert_eq. rewrite E, H2q in Hparent.
           injection Hparent as <-. eexists. split; [reflexivity|]. split; reflexivity.
        -- rewrite lookup_insert_ne by congruence. eexists. split; [exact H2q|].
           split; reflexivity.
      * destruct (decide (parentId info = c)) as [E|E].
        -- rewrite E, lookup_insert_eq. rewrite E, H2c in Hparent.
           injection Hparent as <-. eexists. split; [reflexivity|]. exact Hpar.
        -- rewrite lookup_insert_ne by congruence. eauto.
    + eexists. split; [reflexivity|]. apply Hfinal; eauto.
  - eexists. split; [reflexivity|]. apply Hfinal; eauto.
Qed.

(** Re-creating the live id [X] with [parentId] equal to [X] itself
    installs an element that is its own parent and its own child: its child
    set is not empty, and every later [removeElement(X)] recurses until the
    stack is exhausted. *)
Theorem createElement_under_itself (dm dm1 : DOMManager) (X tag : string)
  (props : JsVal) (n0 n : DomNode) :
  is_Some (elements dm !! X) ->
  X ≠ "" -> X ≠ "root" ->
  get_prop props "id" = Return (JStr X) ->
  removeElement P X dm = (dm1, Return tt) ->
  document_createElement P tag = Return n0 ->
  setProps P props n0 = (n, Return tt) ->
  exists dm',
    createElement P X tag props dm = (dm', Return X)
    /\ elements dm' !! X = Some {| node := n; parentId := X; children := [X] |}
    /\ (forall depth,
          removeElement_rec depth X (elements dm') =
            (elements dm', Throw (RangeError "Maximum call stack size exceeded"))).
Proof.
  intros [old Hlive] Hne Hroot Hid Hrm Hdoc Hset.
  assert (Hnames : names_element X = true).
  { unfold names_element. now rewrite !eqb_empty_false, (proj2 (String.eqb_neq X "root")). }
  unfold createElement, bind, lift_outcome, ret, on_elements.
  rewrite Hid. cbn [truthy id_key js_String].
  rewrite (eqb_empty_false X Hne). cbn [negb].
  rewrite Hlive, Hrm, Hdoc, Hset.
  unfold attach_to_parent, or_root. rewrite Hnames, lookup_insert_eq.
  rewrite (eqb_empty_false X Hne). cbn.
  eexists. split; [reflexivity|]. cbn [elements with_elements].
  rewrite insert_insert_eq.
  unfold with_children. cbn [children node parentId].
  split; [apply lookup_insert_eq|].
  induction depth as [|depth IH]; [reflexivity|].
  cbn [removeElement_rec]. rewrite lookup_insert_eq. cbn [children].
  rewrite for_each_cons, IH. reflexivity.
Qed.

Lemma lookup_attach pid x (els : gmap string ElementInfo) y :
  attach_to_parent pid x els !! y =
    match els !! y with
    | Some i =>
        Some (if String.eqb y pid && names_element pid
              then with_children i (set_add x (children i)) else i)
    | None => None
    end.
Proof.
  unfold attach_to_parent.
  destruct (names_element pid) eqn:Hn.
  - destruct (String.eqb y pid) eqn:E.
    + apply String.eqb_eq in E. subst y.
      destruct (els !! pid) as [ip|] eqn:Hp; cbn.
      * now rewrite lookup_insert_eq.
      * now rewrite Hp.
    + apply String.eqb_neq in E.
      destruct (els !! pid) as [ip|] eqn:Hp; cbn.
      * rewrite lookup_insert_ne by congruence. now destruct (els !! y).
      * now destruct (els !! y).
  - rewrite andb_false_r. now destruct (els !! y).
Qed.

(** C3, as the code has it. Re-creating the live id [X] under a parent
    other than [X] itself, when the old subtree fits the stack and the DOM
    accepts the tag and the props: the old occupant and everything below it
    are removed first, then the new element is installed under [X] with an
    empty child set, and [X] resolves to it. *)
Theorem createElement_reuses_id (dm : DOMManager) (X parent tag : string)
  (props : JsVal) (old : ElementInfo) (n0 n : DomNode) :
  elements dm !! X = Some old ->
  get_prop props "id" = Return (JStr X) ->
  X ≠ "" ->
  parent ≠ X ->
  fits (stack_depth P) (elements dm) X = true ->
  document_createElement P tag = Return n0 ->
  setProps P props n0 = (n, Return tt) ->
  let installed := {| node := n; parentId := or_root parent; children := [] |} in
  exists dm' els1,
    removeElement_rec (stack_depth P) X (elements dm) = (els1, Return tt)
    /\ (forall d, reach (elements dm) X d -> els1 !! d = None)
    /\ createElement P parent tag props dm = (dm', Return X)
    /\ elements dm' = attach_to_parent parent X (<[X := installed]> els1)
    /\ elements dm' !! X = Some installed
    /\ (forall d, reach (elements dm) X d -> d ≠ X -> elements dm' !! d = None)
    /\ (forall parentInfo, elements dm' !! parent = Some parentInfo ->
          names_element parent = true -> X ∈ children parentInfo).
Proof.
  intros Hlive Hid Hne Hparent Hfit Hdoc Hset installed.
  destruct (removal_ok_all (stack_depth P) X (elements dm) Hfit)
    as (els1 & Hrun & Hs & Hgone & _ & _).
  assert (Hbelow : forall d, reach (elements dm) X d -> els1 !! d = None).
  { intros d Hr. apply (shrinks_closed _ _ Hs X d); eauto. }
  exists (with_elements dm (attach_to_parent parent X (<[X := installed]> els1))), els1.
  split; [exact Hrun|]. split; [exact Hbelow|].
  assert (HX : attach_to_parent parent X (<[X := installed]> els1) !! X = Some installed).
  { rewrite lookup_attach, lookup_insert_eq.
    now rewrite (proj2 (String.eqb_neq X parent)) by congruence. }
  split; [|split; [reflexivity|split; [exact HX|]]].
  - unfold createElement, bind, lift_outcome, ret, on_elements, removeElement, on_elements.
    rewrite Hid. cbn [truthy id_key js_String].
    rewrite (eqb_empty_false X Hne). cbn [negb].
    rewrite Hlive, Hrun, Hdoc, Hset. reflexivity.
  - split.
    + intros d Hr Hd. cbn [elements with_elements].
      rewrite lookup_attach, lookup_insert_ne by congruence.
      now rewrite (Hbelow d Hr).
    + intros parentInfo Hp Hnames. cbn [elements with_elements] in Hp.
      rewrite lookup_attach, lookup_insert_ne in Hp by congruence.
      destruct (els1 !! parent) as [ip|]; [|discriminate].
      rewrite String.eqb_refl, Hnames in Hp. injection Hp as <-.
      cbn. unfold set_add. destruct (existsb (String.eqb X) (children ip)) eqn:E.
      * now apply mem_spec.
      * apply elem_of_app. right. now apply list_elem_of_singleton.
Qed.

End Identity.

(** ** The structured-delta parser *)

Section CommandParserProperties.

Variable P : Platform.

Lemma assoc_get_set_eq {A} k (v : A) l : assoc_get k (assoc_set k v l) = Some v.
Proof.
  induction l as [|[k' v'] l IH]; cbn.
  - now rewrite String.eqb_refl.
  - destruct (String.eqb k' k) eqn:E; cbn; rewrite ?E.
    + now rewrite String.eqb_refl.
    + exact IH.
Qed.

Lemma assoc_get_set_ne {A} k k' (v : A) l :
  k ≠ k' -> assoc_get k' (assoc_set k v l) = assoc_get k' l.
Proof.
  intros Hne. induction l as [|[k0 v0] l IH]; cbn.
  - now rewrite (proj2 (String.eqb_neq k k')).
  - destruct (String.eqb k0 k) eqn:E; cbn.
    + apply String.eqb_eq in E. subst k0.
      now rewrite (proj2 (String.eqb_neq k k')).
    + now rewrite IH.
Qed.

Lemma assoc_get_delete {A} k k' (b : A) l :
  assoc_get k' (assoc_delete k l) = Some b -> k' ≠ k /\ assoc_get k' l = Some b.
Proof.
  unfold assoc_delete. induction l as [|[k0 v0] l IH]; [discriminate|].
  rewrite filter_cons. cbn [fst].
  destruct (String.eqb k0 k) eqn:E.
  - rewrite decide_False by (cbn; tauto).
    intros H. destruct (IH H) as [Hne Hget]. split; [exact Hne|].
    apply String.eqb_eq in E. subst k0. cbn.
    now rewrite (proj2 (String.eqb_neq k k')) by congruence.
  - rewrite decide_True by (cbn; tauto). cbn.
    destruct (String.eqb k0 k') eqn:E'.
    + intros H. split; [|exact H]. apply String.eqb_eq in E'. subst k0.
      now apply String.eqb_neq.
    + exact IH.
Qed.

Lemma emits_once_silent (st st' : CommandParser) :
  buffer_ok st' ->
  completedToolCalls st' = completedToolCalls st ->
  buffer_ok st'
  /\ completedToolCalls st' = list_to_set (map slot []) ∪ completedToolCalls st
  /\ NoDup (map slot [])
  /\ (forall c : CompletedToolCall, c ∈ [] -> slot c ∉ completedToolCalls st).
Proof.
  intros Hok Hsame. split; [exact Hok|]. split; [cbn; rewrite Hsame; set_solver|].
  split; [constructor|]. intros c Hc. inversion Hc.
Qed.

Lemma emits_once_nothing (st : CommandParser) :
  buffer_ok st ->
  buffer_ok st
  /\ completedToolCalls st = list_to_set (map slot []) ∪ completedToolCalls st
  /\ NoDup (map slot [])
  /\ (forall c : CompletedToolCall, c ∈ [] -> slot c ∉ completedToolCalls st).
Proof. intros Hok. now apply emits_once_silent. Qed.

Lemma emits_once_one (st st' : CommandParser) (c : CompletedToolCall) key :
  slot c = key ->
  key ∉ completedToolCalls st ->
  buffer_ok st' ->
  completedToolCalls st' = {[key]} ∪ completedToolCalls st ->
  buffer_ok st'
  /\ completedToolCalls st' = list_to_set (map slot [c]) ∪ completedToolCalls st
  /\ NoDup (map slot [c])
  /\ (forall c', c' ∈ [c] -> slot c' ∉ completedToolCalls st).
Proof.
  intros Hslot Hnew Hok Hdone. split; [exact Hok|].
  change (map slot [c]) with [slot c]. rewrite Hslot.
  split; [rewrite Hdone; set_solver|].
  split; [apply NoDup_singleton|].
  intros c' Hc'. apply list_elem_of_singleton in Hc'. subst c'. now rewrite Hslot.
Qed.

Lemma parseChunk_delta_emits_once : emits_once (parseChunk_delta P).
Proof.
  intros st d st' out Hstep Hok. unfold parseChunk_delta in Hstep.
  set (key := toolCallKey (d_index d)) in *.
  destruct (decide (key ∈ completedToolCalls st)) as [Hdone | Hnew].
  { injection Hstep as <- <-. now apply emits_once_nothing. }
  set (toolCall0 := default _ (assoc_get key (toolCallBuffer st))) in *.
  assert (Hkey0 : toolCallKey (b_index toolCall0) = key).
  { unfold toolCall0. destruct (assoc_get key (toolCallBuffer st)) as [b|] eqn:Hb; cbn.
    - now apply Hok.
    - reflexivity. }
  match type of Hstep with
  | (if ?cond then _ else _) = _ => destruct cond
  end; injection Hstep as <- <-.
  - apply (emits_once_one st _ _ key); cbn; auto.
    intros k b Hget. cbn in Hget. apply assoc_get_delete in Hget as [Hne Hget].
    rewrite assoc_get_set_ne in Hget by congruence. now apply Hok.
  - apply emits_once_silent; [|reflexivity]. intros k b Hget. cbn in Hget.
    destruct (decide (key = k)) as [<- | Hne].
    + rewrite assoc_get_set_eq in Hget. injection Hget as <-. exact Hkey0.
    + rewrite assoc_get_set_ne in Hget by assumption. now apply Hok.
Qed.

Lemma parseChunk_final_emits_once : emits_once (parseChunk_final P).
Proof.
  intros st d st' out Hstep Hok. unfold parseChunk_final in Hstep.
  set (key := toolCallKey (d_index d)) in *.
  destruct (decide (key ∈ completedToolCalls st)) as [Hdone | Hnew].
  { injection Hstep as <- <-. now apply emits_once_nothing. }
  assert (Hretired : buffer_ok
            {| toolCallBuffer := assoc_delete key (toolCallBuffer st);
               completedToolCalls := {[key]} ∪ completedToolCalls st |}).
  { intros k b Hget. cbn in Hget. apply assoc_get_delete in Hget as [_ Hget].
    now apply Hok. }
  destruct (truthy_str (d_name d)) as [name|];
    [|injection Hstep as <- <-; now apply emits_once_nothing].
  destruct (truthy_str (d_arguments d)) as [arguments|];
    [|injection Hstep as <- <-; now apply emits_once_nothing].
  destruct (parses P arguments).
  { injection Hstep as <- <-. now apply (emits_once_one st _ _ key). }
  destruct (assoc_get key (toolCallBuffer st)) as [b|] eqn:Hb;
    [|injection Hstep as <- <-; now apply emits_once_nothing].
  match type of Hstep with
  | (if ?cond then _ else _) = _ => destruct cond
  end; injection Hstep as <- <-.
  - apply (emits_once_one st _ _ key); auto. now apply Hok.
  - now apply emits_once_nothing.
Qed.

(** Two steps in a row. *)
Lemma emits_once_seq (st st1 st2 : CommandParser) (out1 out2 : list CompletedToolCall) :
  (buffer_ok st1
   /\ completedToolCalls st1 = list_to_set (map slot out1) ∪ completedToolCalls st
   /\ NoDup (map slot out1)
   /\ (forall c, c ∈ out1 -> slot c ∉ completedToolCalls st)) ->
  (buffer_ok st2
   /\ completedToolCalls st2 = list_to_set (map slot out2) ∪ completedToolCalls st1
   /\ NoDup (map slot out2)
   /\ (forall c, c ∈ out2 -> slot c ∉ completedToolCalls st1)) ->
  buffer_ok st2
  /\ completedToolCalls st2 = list_to_set (map slot (out1 ++ out2)) ∪ completedToolCalls st
  /\ NoDup (map slot (out1 ++ out2))
  /\ (forall c, c ∈ out1 ++ out2 -> slot c ∉ completedToolCalls st).
Proof.
  intros (_ & Hdone1 & Hnd1 & Hnew1) (Hok2 & Hdone2 & Hnd2 & Hnew2).
  split; [exact Hok2|].
  split; [rewrite Hdone2, Hdone1, map_app, list_to_set_app_L; set_solver|].
  split.
  - rewrite map_app. apply NoDup_app. split; [exact Hnd1|]. split; [|exact Hnd2].
    intros k Hk1 Hk2. apply list_elem_of_In, in_map_iff in Hk2 as (c & <- & Hc).
    apply list_elem_of_In in Hc. apply (Hnew2 c Hc). rewrite Hdone1.
    apply elem_of_union_l, elem_of_list_to_set. exact Hk1.
  - intros c Hc. apply elem_of_app in Hc as [Hc | Hc]; [now apply Hnew1|].
    intros Hin. apply (Hnew2 c Hc). rewrite Hdone1. now apply elem_of_union_r.
Qed.

Lemma collect_emits_once {A}
  (step : CommandParser -> A -> CommandParser * list CompletedToolCall) :
  emits_once step -> emits_once (collect step).
Proof.
  intros Hstep st xs. revert st.
  induction xs as [|x rest IH]; intros st st' out Hrun Hok; cbn in Hrun.
  - injection Hrun as <- <-. now apply emits_once_nothing.
  - destruct (step st x) as [st1 out1] eqn:H1.
    destruct (collect step st1 rest) as [st2 out2] eqn:H2.
    injection Hrun as <- <-.
    pose proof (Hstep st x st1 out1 H1 Hok) as Hfirst.
    apply (emits_once_seq st st1 st2); [exact Hfirst|].
    apply (IH st1); [exact H2 | apply Hfirst].
Qed.

Lemma parseChunk_choice_emits_once : emits_once (parseChunk_choice P).
Proof.
  intros st choice st' out Hrun Hok. unfold parseChunk_choice in Hrun.
  destruct (collect (parseChunk_delta P) st (delta_tool_calls choice))
    as [st1 out1] eqn:H1.
  pose proof (collect_emits_once _ parseChunk_delta_emits_once _ _ _ _ H1 Hok) as Hd.
  assert (Hskip : (st', out) = (st1, out1) ->
            buffer_ok st'
            /\ completedToolCalls st' = list_to_set (map slot out) ∪ completedToolCalls st
            /\ NoDup (map slot out)
            /\ (forall c, c ∈ out -> slot c ∉ completedToolCalls st)).
  { intros E. injection E as -> ->. exact Hd. }
  destruct (finish_reason choice) as [reason|]; [|now apply Hskip].
  destruct (String.eqb reason "tool_calls"); [|now apply Hskip].
  destruct (collect (parseChunk_final P) st1 (message_tool_calls choice))
    as [st2 out2] eqn:H2.
  injection Hrun as <- <-.
  apply (emits_once_seq st st1 st2); [exact Hd|].
  apply (collect_emits_once _ parseChunk_final_emits_once _ _ _ _ H2), Hd.
Qed.

Lemma parseChunk_emits_once : emits_once (parseChunk P).
Proof. apply collect_emits_once, parseChunk_choice_emits_once. Qed.

(** C5. A fragment for a retired slot is ignored: the parser is unchanged
    and nothing is emitted.  Hence over any sequence of chunks no slot is
    emitted for twice, none is emitted for that was retired before, and
    every slot emitted for is retired afterwards. *)
Theorem retired_slot_never_emits_again
  (st : CommandParser) (chunks : list Chunk) :
  buffer_ok st ->
  (forall d, toolCallKey (d_index d) ∈ completedToolCalls st ->
     parseChunk_delta P st d = (st, []) /\ parseChunk_final P st d = (st, []))
  /\ (forall st' out,
        collect (parseChunk P) st chunks = (st', out) ->
        NoDup (map slot out)
        /\ (forall c, c ∈ out ->
              (slot c ∉ completedToolCalls st) /\ (slot c ∈ completedToolCalls st'))
        /\ (completedToolCalls st ⊆ completedToolCalls st')).
Proof.
  intros Hok. split.
  - intros d Hdone. unfold parseChunk_delta, parseChunk_final.
    now rewrite !decide_True by assumption.
  - intros st' out Hrun.
    destruct (collect_emits_once _ parseChunk_emits_once st chunks st' out Hrun Hok)
      as (_ & Hdone & Hnd & Hnew).
    split; [exact Hnd|]. split; [|rewrite Hdone; set_solver].
    intros c Hc. split; [now apply Hnew|].
    rewrite Hdone. apply elem_of_union_l, elem_of_list_to_set.
    apply list_elem_of_In, in_map, list_elem_of_In, Hc.
Qed.

End CommandParserProperties.

(** ** The fenced-text parser *)

Section TextParserProperties.

Variable P : Platform.

Lemma length_append (a b : string) :
  String.length (a ++ b) = (String.length a + String.length b)%nat.
Proof. induction a as [|c a IH]; cbn; [reflexivity | now rewrite IH]. Qed.

Lemma drop_chars_app (a b : string) : drop_chars (String.length a) (a ++ b) = b.
Proof. induction a as [|c a IH]; cbn; [reflexivity | exact IH]. Qed.

Lemma take_chars_app (a b : string) : take_chars (String.length a) (a ++ b) = a.
Proof. induction a as [|c a IH]; cbn; [reflexivity | now rewrite IH]. Qed.

Lemma take_chars_all (a : string) : take_chars (String.length a) a = a.
Proof. rewrite <- (append_empty_r a) at 2. apply take_chars_app. Qed.

Lemma drop_chars_all (a : string) : drop_chars (String.length a) a = "".
Proof. rewrite <- (append_empty_r a) at 2. apply drop_chars_app. Qed.

(** The characters from [length a] to [length a + length m] of
    [a ++ m ++ b] are [m]. *)
Lemma substring_middle (a m b : string) (lo hi : nat) :
  lo = String.length a -> hi = (String.length a + String.length m)%nat ->
  substring lo hi (a ++ m ++ b) = m.
Proof.
  intros -> ->. unfold substring.
  rewrite Nat.min_l, Nat.max_r by lia.
  rewrite drop_chars_app.
  replace (String.length a + String.length m - String.length a)%nat
    with (String.length m) by lia.
  apply take_chars_app.
Qed.

Lemma prefix_empty (s : string) : String.prefix "" s = true.
Proof. destruct s; reflexivity. Qed.

Lemma indexOf_at_fence (s : string) : indexOf fence (fence ++ s) = Some 0%nat.
Proof. unfold fence. cbn. now rewrite prefix_empty. Qed.

Lemma word_prefix_app (lang tail : string) :
  all_word lang = true -> word_prefix tail = "" ->
  word_prefix (lang ++ tail) = lang.
Proof.
  unfold all_word. intros H Htail.
  induction lang as [|c lang IH]; cbn; [exact Htail|].
  cbn in H. apply andb_true_iff in H as [Hc Hrest].
  rewrite Hc. now rewrite IH.
Qed.

Lemma word_prefix_line (lang rest : string) :
  all_word lang = true -> word_prefix (lang ++ nl ++ rest) = lang.
Proof. intros H. now apply word_prefix_app. Qed.

Lemma match_language_line (lang rest : string) :
  all_word lang = true ->
  match_language (lang ++ nl ++ rest) = (lang, S (String.length lang)).
Proof.
  intros Hw. unfold match_language.
  rewrite (word_prefix_line lang rest Hw), drop_chars_app.
  replace (String.prefix nl (nl ++ rest)) with true
    by (unfold nl; cbn; now rewrite prefix_empty).
  cbn [fst]. f_equal. lia.
Qed.

Lemma allowed_language_word (lang : string) :
  allowed_language lang = true -> all_word lang = true /\ toLowerCase lang = lang.
Proof.
  unfold allowed_language. rewrite !orb_true_iff, !String.eqb_eq.
  intros [[[-> | ->] | ->] | ->]; split; reflexivity.
Qed.

(** One iteration of the loop, by what it finds in the buffer. *)
Lemma loop_no_fence fuel st cmds :
  indexOf fence (textBuffer st) = None ->
  parseTextChunk_loop P fuel st cmds = (st, cmds).
Proof. intros H. destruct fuel; [reflexivity|]. cbn [parseTextChunk_loop]. now rewrite H. Qed.

Lemma loop_closed_block fuel st cmds codeBlockStart codeBlockEnd :
  indexOf fence (textBuffer st) = Some codeBlockStart ->
  indexOf fence (substring_from (codeBlockStart + 3) (textBuffer st)) = Some codeBlockEnd ->
  parseTextChunk_loop P (S fuel) st cmds =
    let blockEnd := (codeBlockStart + 3 + codeBlockEnd + 3)%nat in
    let fullCodeBlock := substring codeBlockStart blockEnd (textBuffer st) in
    let languageMatch := match_language (substring_from 3 fullCodeBlock) in
    parseTextChunk_loop P fuel
      {| currentCodeBlock := None; currentLanguage := None;
         parsedCommands := parsedCommands st;
         textBuffer := substring 0 codeBlockStart (textBuffer st)
                       ++ substring_from blockEnd (textBuffer st) |}
      (cmds ++ parseCodeBlock P
                 (trim (substring (3 + snd languageMatch)
                          (String.length fullCodeBlock - 3) fullCodeBlock))
                 (toLowerCase (fst languageMatch))).
Proof. intros H1 H2. cbn [parseTextChunk_loop]. now rewrite H1, H2. Qed.

(** An opening fence with no closing fence behind it: the loop records
    the block and leaves. *)
Lemma loop_open_block fuel st cmds rest :
  textBuffer st = (fence ++ rest)%string ->
  indexOf fence rest = None ->
  currentCodeBlock st = None ->
  parseTextChunk_loop P (S fuel) st cmds =
    ({| currentCodeBlock := Some 0%nat;
        currentLanguage := Some (toLowerCase (fst (match_language rest)));
        parsedCommands := parsedCommands st;
        textBuffer := textBuffer st |}, cmds).
Proof.
  intros Hbuf Hnone Hcur. cbn [parseTextChunk_loop].
  rewrite Hbuf, indexOf_at_fence. cbn [Nat.add].
  change (substring_from 3 (fence ++ rest)) with rest.
  now rewrite Hnone, Hcur.
Qed.

(** A buffer that is exactly one fenced block: the loop hands its content
    to [parseCodeBlock], cuts the block out and leaves on the empty
    buffer. *)
Lemma loop_one_block fuel st cmds lang content :
  textBuffer st = (fence ++ lang ++ nl ++ content ++ fence)%string ->
  all_word lang = true ->
  indexOf fence (lang ++ nl ++ content ++ fence)
    = Some (String.length (lang ++ nl ++ content)) ->
  parseTextChunk_loop P (S fuel) st cmds =
    ({| currentCodeBlock := None; currentLanguage := None;
        parsedCommands := parsedCommands st; textBuffer := "" |},
     cmds ++ parseCodeBlock P (trim content) (toLowerCase lang)).
Proof.
  intros Hbuf Hw Hclose.
  rewrite (loop_closed_block fuel st cmds 0 (String.length (lang ++ nl ++ content)));
    [| rewrite Hbuf; apply indexOf_at_fence | rewrite Hbuf; exact Hclose].
  rewrite Hbuf.
  set (buffer := (fence ++ lang ++ nl ++ content ++ fence)%string).
  set (blockEnd := (0 + 3 + String.length (lang ++ nl ++ content) + 3)%nat).
  cbv zeta.
  assert (Hlen : String.length buffer = blockEnd).
  { unfold buffer, blockEnd. rewrite !length_append. cbn. lia. }
  assert (Hfull : substring 0 blockEnd buffer = buffer).
  { unfold substring. rewrite Nat.min_l, Nat.max_r by lia. cbn [drop_chars].
    rewrite Nat.sub_0_r, <- Hlen. apply take_chars_all. }
  rewrite Hfull.
  change (substring_from 3 buffer) with (lang ++ nl ++ content ++ fence)%string.
  rewrite (match_language_line lang (content ++ fence) Hw). cbn [fst snd].
  assert (Hcontent :
    substring (3 + S (String.length lang)) (String.length buffer - 3) buffer = content).
  { unfold buffer.
    replace (fence ++ lang ++ nl ++ content ++ fence)%string
      with ((fence ++ lang ++ nl) ++ content ++ fence)%string
      by (now rewrite !append_assoc).
    apply substring_middle.
    - rewrite !length_append. cbn. lia.
    - rewrite !length_append. cbn. lia. }
  rewrite Hcontent.
  assert (Hcut : (substring 0 0 buffer ++ substring_from blockEnd buffer)%string = "").
  { unfold substring, substring_from.
    rewrite <- Hlen, drop_chars_all. reflexivity. }
  rewrite Hcut. now apply loop_no_fence.
Qed.

(** The fuel of [parseTextChunk] is never used up: an iteration that goes
    on has cut at least the two fences out of the buffer. *)
Lemma length_take_chars n s : String.length (take_chars n s) = Nat.min n (String.length s).
Proof.
  revert s. induction n as [|n IH]; intros [|c s]; cbn; try reflexivity.
  now rewrite IH.
Qed.

Lemma length_drop_chars n s : String.length (drop_chars n s) = (String.length s - n)%nat.
Proof.
  revert s. induction n as [|n IH]; intros [|c s]; cbn; try reflexivity.
  apply IH.
Qed.

Lemma prefix_length a s : String.prefix a s = true -> (String.length a <= String.length s)%nat.
Proof.
  revert s. induction a as [|c a IH]; intros [|d s]; cbn; try lia; try discriminate.
  destruct (ascii_dec c d); [|discriminate]. intros H. apply IH in H. lia.
Qed.

Lemma indexOf_bound pat s n :
  indexOf pat s = Some n -> (n + String.length pat <= String.length s)%nat.
Proof.
  revert n. induction s as [|c s IH]; intros n; cbn [indexOf].
  - destruct (String.prefix pat "") eqn:E; [|discriminate].
    intros [= <-]. now apply prefix_length in E.
  - destruct (String.prefix pat (String c s)) eqn:E.
    + intros [= <-]. now apply prefix_length in E.
    + destruct (indexOf pat s) as [m|]; [|discriminate].
      intros [= <-]. specialize (IH m eq_refl). cbn. lia.
Qed.

Lemma parseTextChunk_loop_enough fuel : forall st cmds,
  (String.length (textBuffer st) < fuel)%nat ->
  parseTextChunk_loop P (S fuel) st cmds = parseTextChunk_loop P fuel st cmds.
Proof.
  induction fuel as [|fuel IH]; intros st cmds Hlen; [lia|].
  destruct (indexOf fence (textBuffer st)) as [start|] eqn:H1.
  2:{ now rewrite !loop_no_fence. }
  destruct (indexOf fence (substring_from (start + 3) (textBuffer st)))
    as [e|] eqn:H2.
  2:{ cbn [parseTextChunk_loop]. now rewrite H1, H2. }
  rewrite (loop_closed_block (S fuel) st cmds start e H1 H2).
  rewrite (loop_closed_block fuel st cmds start e H1 H2).
  cbv zeta. apply IH. cbn [textBuffer].
  apply indexOf_bound in H1, H2. cbn in H1, H2.
  unfold substring_from in H2. rewrite length_drop_chars in H2.
  rewrite length_append. unfold substring, substring_from.
  rewrite length_take_chars, !length_drop_chars. lia.
Qed.

(** Trimming twice is trimming once. *)
Lemma trim_end_idem (s : string) : trim_end (trim_end s) = trim_end s.
Proof.
  induction s as [|c r IH]; [reflexivity|]. cbn [trim_end].
  destruct (trim_end r) as [|d t] eqn:E.
  - destruct (is_space c) eqn:Hc; [reflexivity|]. cbn. now rewrite Hc.
  - cbn [trim_end] in IH |- *. now rewrite IH.
Qed.

Lemma trim_start_head (s : string) :
  trim_start s = "" \/ exists c r, trim_start s = String c r /\ is_space c = false.
Proof.
  induction s as [|c r IH]; [now left|]. cbn [trim_start].
  destruct (is_space c) eqn:Hc; [exact IH|]. right. eauto.
Qed.

Lemma trim_idem (s : string) : trim (trim s) = trim s.
Proof.
  unfold trim. destruct (trim_start_head s) as [-> | (c & r & -> & Hc)];
    [reflexivity|].
  assert (Hhead : exists r', trim_end (String c r) = String c r').
  { cbn [trim_end]. destruct (trim_end r); [rewrite Hc|]; eauto. }
  destruct Hhead as [r' Hr']. rewrite Hr'. cbn [trim_start]. rewrite Hc.
  rewrite <- Hr'. apply trim_end_idem.
Qed.

(** C6. A fenced block of an allowed language, split across two calls after
    part of its content: the first call returns no instruction, the second
    returns the valid elements of the block's JSON array, here the single
    [item], and leaves the buffer empty. *)
Theorem fenced_block_split_in_two (lang p1 p2 : string)
  (items : list JsVal) (item : JsVal) :
  allowed_language lang = true ->
  indexOf fence (lang ++ nl ++ p1) = None ->
  indexOf fence (lang ++ nl ++ (p1 ++ p2) ++ fence)
    = Some (String.length (lang ++ nl ++ (p1 ++ p2))) ->
  String.prefix "[" (trim (p1 ++ p2)) = true ->
  JSON_parse P (trim (p1 ++ p2)) = Some (JArr items) ->
  filter isValidCommand items = [item] ->
  exists st1 st2,
    parseTextChunk P new_TextParser (fence ++ lang ++ nl ++ p1) = (st1, [])
    /\ parseTextChunk P st1 (p2 ++ fence) = (st2, [item])
    /\ textBuffer st2 = ""
    /\ currentCodeBlock st2 = None.
Proof.
  intros Hlang Hopen Hclose Hbracket Hparse Hvalid.
  destruct (allowed_language_word lang Hlang) as [Hw Hlower].
  eexists _, _. split.
  - unfold parseTextChunk. cbn [textBuffer new_TextParser String.append].
    apply loop_open_block; [reflexivity | exact Hopen | reflexivity].
  - cbn [textBuffer currentCodeBlock currentLanguage parsedCommands new_TextParser].
    unfold parseTextChunk. cbn [textBuffer].
    assert (Hbuf : ((fence ++ lang ++ nl ++ p1) ++ p2 ++ fence)%string
                   = (fence ++ lang ++ nl ++ (p1 ++ p2) ++ fence)%string).
    { now rewrite !append_assoc. }
    rewrite Hbuf.
    rewrite (loop_one_block _ _ [] lang (p1 ++ p2)); [|reflexivity | exact Hw | exact Hclose].
    cbn [app]. unfold parseCodeBlock.
    rewrite trim_idem, Hlower, Hlang, Hbracket, Hparse, Hvalid. cbn [negb].
    repeat split.
Qed.

End TextParserProperties.

(** ** Well-formed stores *)

Section WellFormed.

Variable P : Platform.

Implicit Types els : gmap string ElementInfo.

Lemma is_live_true els k : is_live els k = true <-> is_Some (els !! k).
Proof.
  unfold is_live. destruct (els !! k); split; intros H; eauto; try discriminate.
  now destruct H.
Qed.

Lemma store_ok_well_formed els : store_ok els = true <-> well_formed els.
Proof.
  unfold store_ok, root_is_sentinel, ids_nonempty, I1, I2.
  rewrite !andb_true_iff, !negb_true_iff, !all_elements_spec.
  split.
  - intros [[[Hroot Hempty] H1] [Ha Hb]]. split.
    + unfold is_live in Hroot. now destruct (els !! "root").
    + unfold is_live in Hempty. now destruct (els !! "").
    + intros k info Hk. specialize (H1 k info Hk).
      apply orb_true_iff in H1 as [H1 | H1].
      * left. now apply String.eqb_eq.
      * right. now apply is_live_true.
    + intros p ip c Hp Hc. specialize (Ha p ip Hp).
      rewrite forallb_elem_of in Ha. specialize (Ha c Hc).
      destruct (els !! c) as [ic|]; [|discriminate].
      exists ic. split; [reflexivity | now apply String.eqb_eq].
    + intros c ic ip Hc Hp. specialize (Hb c ic Hc). rewrite Hp in Hb.
      now apply mem_spec.
  - intros [Hroot Hempty H1 Ha Hb]. repeat split.
    + unfold is_live. now rewrite Hroot.
    + unfold is_live. now rewrite Hempty.
    + intros k info Hk. apply orb_true_iff.
      destruct (H1 k info Hk) as [E | E].
      * left. now apply String.eqb_eq.
      * right. now apply is_live_true.
    + intros p ip Hp. apply forallb_elem_of. intros c Hc.
      destruct (Ha p ip c Hp Hc) as (ic & -> & E). now apply String.eqb_eq.
    + intros c ic Hc. destruct (els !! parentId ic) as [ip|] eqn:Hp; [|reflexivity].
      apply mem_spec. now apply (Hb c ic ip).
Qed.

(** Well-formedness looks only at who is live, at parents and at child
    sets. *)
Lemma well_formed_same_structure els els' :
  (forall k, match els' !! k, els !! k with
             | Some i', Some i => parentId i' = parentId i /\ children i' = children i
             | None, None => True
             | _, _ => False
             end) ->
  well_formed els -> well_formed els'.
Proof.
  intros Hsame [Hroot Hempty H1 Ha Hb].
  assert (Hfwd : forall k i', els' !! k = Some i' ->
            exists i, els !! k = Some i /\ parentId i' = parentId i
                      /\ children i' = children i).
  { intros k i' Hk. specialize (Hsame k). rewrite Hk in Hsame.
    destruct (els !! k) as [i|]; [|contradiction]. exists i. tauto. }
  assert (Hbwd : forall k i, els !! k = Some i ->
            exists i', els' !! k = Some i' /\ parentId i' = parentId i
                       /\ children i' = children i).
  { intros k i Hk. specialize (Hsame k). rewrite Hk in Hsame.
    destruct (els' !! k) as [i'|]; [|contradiction]. exists i'. tauto. }
  assert (Hnone : forall k, els !! k = None -> els' !! k = None).
  { intros k Hk. specialize (Hsame k). rewrite Hk in Hsame.
    now destruct (els' !! k). }
  split; auto.
  - intros k i' Hk. destruct (Hfwd k i' Hk) as (i & Hi & Hp & _).
    rewrite Hp. destruct (H1 k i Hi) as [E | [ip E]]; [now left|].
    right. destruct (Hbwd _ _ E) as (ip' & E' & _). eauto.
  - intros p ip' c Hp Hc. destruct (Hfwd p ip' Hp) as (ip & Hip & _ & Hch).
    rewrite Hch in Hc. destruct (Ha p ip c Hip Hc) as (ic & Hic & Hpc).
    destruct (Hbwd _ _ Hic) as (ic' & Hic' & Hp' & _). exists ic'. split; congruence.
  - intros c ic' ip' Hc Hp. destruct (Hfwd c ic' Hc) as (ic & Hic & Hpc & _).
    destruct (Hfwd _ ip' Hp) as (ip & Hip & _ & Hch).
    rewrite Hch. apply (Hb c ic ip Hic). now rewrite <- Hpc.
Qed.


Lemma DOMManager_setText_live els id text info :
  els !! id = Some info ->
  DOMManager_setText id text els =
    (<[id := with_node info (with_text (node info) text)]> els, Return tt).
Proof. intros H. unfold DOMManager_setText. now rewrite H. Qed.

(** X2. [setText] replaces the text whatever it was, and a following
    [appendText] extends what was set: setting [a] and appending [b] leaves
    the map that setting [a ++ b] leaves. *)
Theorem setText_then_appendText els id a b info :
  els !! id = Some info ->
  exists els1 els2,
    DOMManager_setText id a els = (els1, Return tt)
    /\ DOMManager_appendText id b els1 = (els2, Return tt)
    /\ DOMManager_setText id (a ++ b) els = (els2, Return tt)
    /\ (forall earlier els0,
          DOMManager_setText id earlier els = (els0, Return tt) ->
          DOMManager_setText id a els0 = (els1, Return tt))
    /\ (exists info2, els2 !! id = Some info2
                      /\ textContent (node info2) = (a ++ b)%string).
Proof.
  intros Hlive.
  rewrite !(DOMManager_setText_live els id _ info Hlive).
  eexists _, _. split; [reflexivity|].
  rewrite (DOMManager_appendText_live _ id _ b (lookup_insert_eq _ _ _)).
  cbn. rewrite insert_insert_eq.
  split; [reflexivity|]. split; [reflexivity|]. split.
  - intros earlier els0 H0.
    rewrite (DOMManager_setText_live els id _ info Hlive) in H0.
    injection H0 as <-.
    rewrite (DOMManager_setText_live _ id _ _ (lookup_insert_eq _ _ _)).
    cbn. now rewrite insert_insert_eq.
  - eexists. split; [apply lookup_insert_eq | reflexivity].
Qed.

(** X3. An update, a setText or an appendText that addresses an id which is
    not live is reported as a failed entry carrying the not-found message,
    and the store is untouched; a removal of the same id succeeds. *)
Theorem absent_target_fails_except_removal (dm : DOMManager) (id : string)
  (props text : JsVal) :
  elements dm !! id = None ->
  id ≠ "" ->
  stack_depth P ≠ 0%nat ->
  let not_found_message :=
    ("Element with id " ++ dquote ++ id ++ dquote ++ " not found")%string in
  let call name (rest : list (string * JsVal)) :=
    JObj [("name", JStr name); ("arguments", JObj (("elementId", JStr id) :: rest))] in
  executeToolCalls P [call "updateElement" [("props", props)]] dm
    = (dm, Return [Failure not_found_message (call "updateElement" [("props", props)])])
  /\ executeToolCalls P [call "setText" [("text", text)]] dm
     = (dm, Return [Failure not_found_message (call "setText" [("text", text)])])
  /\ executeToolCalls P [call "appendText" [("text", text)]] dm
     = (dm, Return [Failure not_found_message (call "appendText" [("text", text)])])
  /\ executeToolCalls P [call "removeElement" []] dm
     = (dm, Return [Success (success_result id) (call "removeElement" [])]).
Proof.
  intros Hnone Hne Hdepth not_found_message call.
  assert (Hcheck : String.eqb id "" = false) by now apply eqb_empty_false.
  unfold executeToolCalls. rewrite !executeToolCalls_loop_cons.
  unfold call, executeToolCall, bind, lift_outcome, try_catch, ret. cbn.
  unfold updateElement, setText, appendText, tool_removeElement, check_elementId.
  rewrite Hcheck.
  unfold bind, on_elements, removeElement, on_elements,
    DOMManager_updateElement, DOMManager_setText, DOMManager_appendText,
    not_found, throw, ret.
  rewrite Hnone.
  destruct (stack_depth P) as [|depth]; [congruence|].
  cbn [removeElement_rec]. rewrite Hnone. cbn.
  rewrite with_elements_same. repeat split.
Qed.

Lemma reach_snoc els a b c ib :
  reach els a b -> els !! b = Some ib -> c ∈ children ib -> reach els a c.
Proof.
  intros Hr Hb Hc. induction Hr as [x | x info c' d Hx Hc' Hr IH].
  - econstructor; [exact Hb | exact Hc | constructor].
  - econstructor; [exact Hx | exact Hc' | now apply IH].
Qed.

Lemma tidy_refl els : tidy els els.
Proof. intros p ip' c ic _ _ Hc _ _. eauto. Qed.

Lemma tidy_trans els els1 els2 :
  shrinks els els1 -> tidy els els1 -> shrinks els1 els2 -> tidy els1 els2 ->
  tidy els els2.
Proof.
  intros Hs1 Ht1 Hs2 Ht2 p ip2 c ic Hp Hc Hic Hpar Hnames.
  destruct (shrinks_live _ _ Hs2 p ip2 Hp) as (ip1 & Hp1 & _ & _ & Hsub).
  destruct (Ht1 p ip1 c ic Hp1 (Hsub c Hc) Hic Hpar Hnames) as [ic1 Hic1].
  destruct (shrinks_live _ _ Hs1 c ic1 Hic1) as (ic' & Hic' & Hpar' & _).
  apply (Ht2 p ip2 c ic1 Hp Hc Hic1); [congruence | exact Hnames].
Qed.

Lemma removal_tidy depth : forall x els els',
  fits depth els x = true ->
  removeElement_rec depth x els = (els', Return tt) ->
  tidy els els'.
Proof.
  induction depth as [|depth IH]; intros x els els' Hfit Hrun; [discriminate|].
  cbn [fits] in Hfit. cbn [removeElement_rec] in Hrun.
  destruct (els !! x) as [info|] eqn:Hx.
  2:{ injection Hrun as <-. apply tidy_refl. }
  rewrite forallb_elem_of in Hfit.
  assert (Hloop : forall cs cur out,
            (forall c, c ∈ cs -> fits depth cur c = true) ->
            for_each (removeElement_rec depth) cs cur = (out, Return tt) ->
            tidy cur out /\ shrinks cur out).
  { induction cs as [|c rest IHcs]; intros cur out Hfits Hfe.
    - injection Hfe as <-. split; [apply tidy_refl | apply shrinks_refl].
    - rewrite for_each_cons in Hfe.
      destruct (removal_ok_all depth c cur) as (els_a & Hrun_a & Hs_a & _).
      { apply Hfits. now left. }
      rewrite Hrun_a in Hfe.
      destruct (IHcs els_a out) as [Ht Hs]; [|exact Hfe|].
      { intros c' Hc'. apply (fits_shrinks _ cur); [assumption|].
        apply Hfits. now right. }
      split; [|now apply (shrinks_trans _ els_a)].
      apply (tidy_trans _ els_a); try assumption.
      apply (IH c cur els_a); [apply Hfits; now left | exact Hrun_a]. }
  destruct (for_each (removeElement_rec depth) (children info) els)
    as [els1 [[]|e]] eqn:Hfe; [|discriminate].
  injection Hrun as <-.
  destruct (Hloop _ _ _ Hfit Hfe) as [Ht Hs].
  intros p ip2 c ic Hp Hc Hic Hpar Hnames.
  destruct (decide (p = x)) as [-> | Hpx]; [now rewrite lookup_delete_eq in Hp|].
  rewrite lookup_delete_ne, lookup_detach in Hp by congruence.
  destruct (els1 !! p) as [ip1|] eqn:Hp1; [|discriminate]. injection Hp as <-.
  destruct (decide (c = x)) as [-> | Hcx].
  - exfalso. assert (ic = info) by congruence. subst ic.
    rewrite Hpar, String.eqb_refl, Hnames in Hc. cbn in Hc.
    apply set_delete_spec in Hc. now destruct Hc.
  - assert (Hc1 : c ∈ children ip1).
    { destruct (String.eqb p (parentId info) && names_element (parentId info));
        [cbn in Hc; now apply set_delete_spec in Hc | exact Hc]. }
    destruct (Ht p ip1 c ic Hp1 Hc1 Hic Hpar Hnames) as [ic1 Hic1].
    rewrite lookup_delete_ne, lookup_detach, Hic1 by congruence. eauto.
Qed.

(** X4. Removal keeps a well-formed map well formed, and removing the same id
    again changes nothing. *)
Theorem removeElement_keeps_store_ok (depth : nat) els (x : string) :
  store_ok els = true ->
  fits depth els x = true ->
  exists els',
    removeElement_rec depth x els = (els', Return tt)
    /\ store_ok els' = true
    /\ removeElement_rec depth x els' = (els', Return tt).
Proof.
  rewrite store_ok_well_formed. intros [Hroot Hempty H1 Ha Hb] Hfit.
  destruct (removal_ok_all depth x els Hfit)
    as (els' & Hrun & Hs & Hgone & Hnoop & _).
  pose proof (removal_tidy depth x els els' Hfit Hrun) as Ht.
  destruct (removal_only_below depth x els els' _ Hrun) as [_ Honly].
  assert (Hbelow : forall d, reach els x d -> els' !! d = None).
  { intros d Hr. destruct (els !! x) as [info|] eqn:Hx.
    - apply (shrinks_closed _ _ Hs x d); eauto.
    - now rewrite (reach_dead _ _ _ Hx Hr). }
  exists els'. split; [exact Hrun|]. split.
  - apply store_ok_well_formed. split.
    + now apply (shrinks_dead_stays els).
    + now apply (shrinks_dead_stays els).
    + intros y i' Hy'.
      destruct (shrinks_live _ _ Hs y i' Hy') as (i & Hy & Hp & _).
      rewrite Hp. destruct (H1 y i Hy) as [E | [ip Hpl]]; [now left|].
      right. destruct (els' !! parentId i) as [ip'|] eqn:Hp'; [eauto|].
      exfalso. assert (Hr : reach els x y).
      { apply (reach_snoc els x (parentId i) y ip); [|exact Hpl|].
        - apply Honly; eauto.
        - now apply (Hb y i ip). }
      rewrite (Hbelow y Hr) in Hy'. discriminate.
    + intros p ip' c Hp' Hc'.
      destruct (shrinks_live _ _ Hs p ip' Hp') as (ip & Hp & _ & _ & Hsub).
      destruct (Ha p ip c Hp (Hsub c Hc')) as (ic & Hc & Hpar).
      assert (Hnames : names_element p = true).
      { unfold names_element.
        destruct (String.eqb_spec p "") as [E|_]; [congruence|].
        destruct (String.eqb_spec p "root") as [E|_]; [congruence|]. reflexivity. }
      destruct (Ht p ip' c ic Hp' Hc' Hc Hpar Hnames) as [ic' Hic'].
      exists ic'. split; [exact Hic'|].
      destruct (shrinks_live _ _ Hs c ic' Hic') as (ic0 & Hic0 & Hpar0 & _).
      congruence.
    + intros c ic' ip' Hc' Hp'.
      destruct (shrinks_live _ _ Hs c ic' Hc') as (ic & Hc & Hpar & _).
      rewrite Hpar in Hp'.
      destruct (shrinks_live _ _ Hs _ ip' Hp') as (ip & Hp & _).
      pose proof (Hb c ic ip Hc Hp) as Hin.
      destruct (shrinks_pruned _ _ Hs _ ip ip' c Hp Hp' Hin) as [Hin' | Hdead];
        [exact Hin' | congruence].
  - destruct depth as [|depth]; [discriminate|].
    cbn [removeElement_rec]. now rewrite Hgone.
Qed.

Lemma set_add_spec x y l : y ∈ set_add x l <-> y = x \/ y ∈ l.
Proof.
  unfold set_add. destruct (existsb (String.eqb x) l) eqn:E.
  - split; [now right|]. intros [-> | H]; [now apply mem_spec | exact H].
  - rewrite elem_of_app, list_elem_of_singleton. tauto.
Qed.

Lemma names_element_live els p :
  well_formed els -> is_Some (els !! p) -> names_element p = true.
Proof.
  intros Hwf [ip Hp]. unfold names_element.
  destruct (String.eqb_spec p "") as [E|_];
    [rewrite E, (wf_nonempty _ Hwf) in Hp; discriminate|].
  destruct (String.eqb_spec p "root") as [E|_];
    [rewrite E, (wf_root _ Hwf) in Hp; discriminate|].
  reflexivity.
Qed.




(** X6. Renaming an element that has no children, to an id that is not live,
    keeps a well-formed map well formed: the element moves to the new id
    with its node and parent, and its parent lists the new id in place of
    the old one. *)
Theorem rename_childless_keeps_store_ok els (p q : string) (ip : ElementInfo)
  (props : JsVal) (n : DomNode) :
  store_ok els = true ->
  els !! p = Some ip ->
  children ip = [] ->
  els !! q = None -> q ≠ "" -> q ≠ "root" ->
  get_prop props "id" = Return (JStr q) ->
  setProps P props (node ip) = (n, Return tt) ->
  exists els',
    DOMManager_updateElement P p props els = (els', Return tt)
    /\ els' !! p = None
    /\ els' !! q = Some {| node := n; parentId := parentId ip; children := [] |}
    /\ (forall parentInfo, els' !! parentId ip = Some parentInfo ->
          q ∈ children parentInfo /\ p ∉ children parentInfo)
    /\ (forall k, k ≠ p -> k ≠ q -> k ≠ parentId ip -> els' !! k = els !! k)
    /\ store_ok els' = true.
Proof.
  rewrite !store_ok_well_formed.
  intros Hwf Hp Hleaf Hq Hqe Hqr Hid Hset.
  assert (Hqp : q ≠ p) by congruence.
  set (pid := parentId ip).
  set (info := with_node ip n).
  assert (Hinfo : info = {| node := n; parentId := pid; children := [] |}).
  { unfold info, with_node, pid. now rewrite Hleaf. }
  assert (Hnochild : forall c ic, els !! c = Some ic -> parentId ic ≠ p).
  { intros c ic Hc E. rewrite <- E in Hp.
    pose proof (wf_child_listed _ Hwf c ic ip Hc Hp) as Hin.
    rewrite Hleaf in Hin. inversion Hin. }
  assert (Hpidp : pid ≠ p) by (apply (Hnochild p ip Hp)).
  assert (Hpidq : pid ≠ q).
  { intros E. destruct (wf_parent _ Hwf p ip Hp) as [E' | [x Hx]];
      [fold pid in E' | fold pid in Hx]; congruence. }
  assert (Hpid : pid = "root" \/ is_Some (els !! pid)) by apply (wf_parent _ Hwf p ip Hp).
  assert (Hrun : exists els',
    DOMManager_updateElement P p props els = (els', Return tt)
    /\ forall k, els' !! k =
         if decide (k = p) then None
         else if decide (k = q) then Some info
         else match els !! k with
              | Some i => Some (if String.eqb k pid && names_element pid
                                then with_children i
                                       (set_add q (set_delete p (children i)))
                                else i)
              | None => None
              end).
  { unfold DOMManager_updateElement. rewrite Hp, Hset, Hid.
    cbn [truthy strict_eq_str]. rewrite (eqb_empty_false q Hqe).
    rewrite (proj2 (String.eqb_neq q p)) by assumption.
    cbn [negb andb]. cbv zeta. cbn [id_key js_String].
    fold info. change (parentId info) with pid.
    set (els2 := delete p (<[q := info]> (<[p := info]> els))).
    assert (H2 : forall k, els2 !! k =
              if decide (k = p) then None
              else if decide (k = q) then Some info else els !! k).
    { intros k. unfold els2. destruct (decide (k = p)) as [-> | Hkp].
      - apply lookup_delete_eq.
      - rewrite lookup_delete_ne by congruence.
        destruct (decide (k = q)) as [-> | Hkq].
        + apply lookup_insert_eq.
        + now rewrite !lookup_insert_ne by congruence. }
    destruct (names_element pid) eqn:Hnames.
    - destruct Hpid as [E | [parentInfo Hpl]];
        [rewrite E in Hnames; discriminate|].
      rewrite H2, decide_False, decide_False, Hpl by assumption.
      eexists. split; [reflexivity|]. intros k.
      destruct (decide (k = pid)) as [-> | Hk].
      + rewrite lookup_insert_eq, decide_False, decide_False, Hpl by assumption.
        now rewrite String.eqb_refl.
      + rewrite lookup_insert_ne, H2 by congruence.
        rewrite (proj2 (String.eqb_neq k pid)) by assumption. cbn.
        destruct (decide (k = p)); [reflexivity|].
        destruct (decide (k = q)); [reflexivity|]. now destruct (els !! k).
    - exists els2. split; [reflexivity|]. intros k. rewrite H2, andb_false_r.
      destruct (decide (k = p)); [reflexivity|].
      destruct (decide (k = q)); [reflexivity|]. now destruct (els !! k). }
  destruct Hrun as (els' & Hrun & Hlook).
  assert (Hold : forall k i', k ≠ q -> els' !! k = Some i' ->
            k ≠ p /\ exists i, els !! k = Some i /\ parentId i' = parentId i
              /\ (k ≠ pid -> i' = i)
              /\ (forall c, c ∈ children i' -> c = q \/ (c ≠ p /\ c ∈ children i))
              /\ (forall c, c ∈ children i -> c ≠ p -> c ∈ children i')).
  { intros k i' Hkq Hl. rewrite Hlook in Hl.
    destruct (decide (k = p)) as [|Hkp]; [discriminate|].
    rewrite decide_False in Hl by assumption. split; [exact Hkp|].
    destruct (els !! k) as [i|] eqn:Hi; [|discriminate]. injection Hl as <-.
    exists i. destruct (String.eqb k pid) eqn:E; cbn.
    - apply String.eqb_eq in E. subst k.
      rewrite (names_element_live els pid Hwf) by eauto. cbn.
      repeat split; auto; try congruence.
      + intros c. rewrite set_add_spec, set_delete_spec. tauto.
      + intros c Hc Hcp. rewrite set_add_spec, set_delete_spec. tauto.
    - repeat split; auto. intros c Hc. right. split; [|exact Hc].
      intros ->. destruct (wf_child_live _ Hwf k i p Hi Hc) as (ip0 & Hip0 & Hpar).
      assert (ip0 = ip) by congruence. subst ip0.
      fold pid in Hpar. apply String.eqb_neq in E. congruence. }
  assert (Hkeep : forall k i, k ≠ p -> els !! k = Some i -> is_Some (els' !! k)).
  { intros k i Hkp Hk. rewrite Hlook, decide_False, decide_False by congruence.
    rewrite Hk. eauto. }
  assert (HQ : els' !! q = Some info).
  { rewrite Hlook, decide_False, decide_True by congruence. reflexivity. }
  exists els'. split; [exact Hrun|].
  split; [rewrite Hlook, decide_True by reflexivity; reflexivity|].
  split; [now rewrite HQ, Hinfo|].
  assert (Hwf' : well_formed els').
  { split.
    - rewrite Hlook. destruct (decide ("root" = p)) as [|_]; [reflexivity|].
      rewrite decide_False by congruence. now rewrite (wf_root _ Hwf).
    - rewrite Hlook. destruct (decide ("" = p)) as [|_]; [reflexivity|].
      rewrite decide_False by congruence. now rewrite (wf_nonempty _ Hwf).
    - intros k i' Hl. destruct (decide (k = q)) as [-> | Hkq].
      + rewrite HQ in Hl. injection Hl as <-. rewrite Hinfo. cbn.
        destruct Hpid as [E | [x Hx]]; [now left|]. right. now apply (Hkeep pid x).
      + destruct (Hold k i' Hkq Hl) as (Hkp & i & Hi & Hpar & _). rewrite Hpar.
        destruct (wf_parent _ Hwf k i Hi) as [E | [x Hx]]; [now left|].
        right. apply (Hkeep _ x); [|exact Hx]. now apply (Hnochild k i).
    - intros k i' c Hl Hc. destruct (decide (k = q)) as [-> | Hkq].
      + rewrite HQ in Hl. injection Hl as <-. rewrite Hinfo in Hc. inversion Hc.
      + destruct (Hold k i' Hkq Hl) as (Hkp & i & Hi & _ & Hsame & Hsub & _).
        destruct (Hsub c Hc) as [-> | [Hcp Hin]].
        * exists info. split; [exact HQ|]. rewrite Hinfo. cbn.
          destruct (decide (k = pid)) as [E|E]; [now symmetry|].
          rewrite (Hsame E) in Hc.
          destruct (wf_child_live _ Hwf k i q Hi Hc) as (x & Hx & _). congruence.
        * destruct (wf_child_live _ Hwf k i c Hi Hin) as (ic & Hic & Hpar).
          destruct (Hkeep c ic Hcp Hic) as [ic' Hic'].
          assert (Hcq : c ≠ q) by congruence.
          destruct (Hold c ic' Hcq Hic') as (_ & ic0 & Hic0 & Hpar0 & _).
          exists ic'. split; [exact Hic' | congruence].
    - intros c ic' ip' Hl Hpl. destruct (decide (c = q)) as [-> | Hcq].
      + rewrite HQ in Hl. injection Hl as <-. rewrite Hinfo in Hpl. cbn in Hpl.
        rewrite Hlook, decide_False, decide_False in Hpl by assumption.
        destruct (els !! pid) as [x|] eqn:Hx; [|discriminate].
        rewrite String.eqb_refl, (names_element_live els pid Hwf) in Hpl by eauto.
        injection Hpl as <-. cbn. apply set_add_spec. now left.
      + destruct (Hold c ic' Hcq Hl) as (Hcp & ic & Hic & Hpar & _).
        rewrite Hpar in Hpl.
        assert (Hpq : parentId ic ≠ q).
        { destruct (wf_parent _ Hwf c ic Hic) as [E | [x Hx]]; congruence. }
        destruct (Hold _ ip' Hpq Hpl) as (_ & x & Hx & _ & _ & _ & Hsup).
        apply Hsup; [|exact Hcp]. now apply (wf_child_listed _ Hwf c ic x). }
  split.
  { intros parentInfo Hpl. fold pid in Hpl. split.
    - apply (wf_child_listed _ Hwf' q info parentInfo HQ). now rewrite Hinfo.
    - intros Hin. destruct (wf_child_live _ Hwf' pid parentInfo p Hpl Hin) as (x & Hx & _).
      rewrite Hlook, decide_True in Hx by reflexivity. discriminate. }
  split; [|apply store_ok_well_formed; exact Hwf'].
  intros k Hkp Hkq Hkpid. rewrite Hlook, decide_False, decide_False by assumption.
  fold pid in Hkpid. rewrite (proj2 (String.eqb_neq k pid)) by assumption.
  now destruct (els !! k).
Qed.

End WellFormed.

(** ** Properties and updates without a new id *)

Section Props.

Variable P : Platform.

Lemma setProp_spec key value n n' o :
  setProp P key value n = (n', o) ->
  tagName n' = tagName n
  /\ (forall k, k ≠ key -> assoc_get k (attributes n') = assoc_get k (attributes n))
  /\ (key ≠ "dangerouslySetInnerHTML" -> textContent n' = textContent n).
Proof.
  unfold setProp. intros H.
  assert (Hrec : forall v,
            (({| tagName := tagName n; textContent := textContent n;
                 attributes := assoc_set key v (attributes n) |}, Return tt)
             : DomNode * Outcome unit) = (n', o) ->
            tagName n' = tagName n
            /\ (forall k, k ≠ key ->
                  assoc_get k (attributes n') = assoc_get k (attributes n))
            /\ (key ≠ "dangerouslySetInnerHTML" -> textContent n' = textContent n)).
  { intros v E. injection E as <- _. cbn. repeat split.
    intros k Hk. apply assoc_get_set_ne. congruence. }
  destruct (String.eqb key "className"); [now apply (Hrec value)|].
  destruct (String.eqb key "style" && typeof_object value); [now apply (Hrec value)|].
  destruct (String.eqb_spec key "dangerouslySetInnerHTML") as [Hd|Hd].
  - destruct (get_prop value "__html") as [html|e].
    + injection H as <- _. cbn. repeat split; [|congruence].
      intros k Hk. apply assoc_get_set_ne. congruence.
    + injection H as <- _. repeat split.
  - destruct (validAttributeName P key); [now apply (Hrec value)|].
    injection H as <- _. repeat split.
Qed.

Lemma setProp_loop entries : forall n n' o,
  for_each (fun kv : string * JsVal => setProp P kv.1 kv.2) entries n = (n', o) ->
  tagName n' = tagName n
  /\ (forall k, k ∉ entries.*1 ->
        assoc_get k (attributes n') = assoc_get k (attributes n))
  /\ ("dangerouslySetInnerHTML" ∉ entries.*1 -> textContent n' = textContent n).
Proof.
  induction entries as [|[key value] rest IH]; intros n n' o H.
  - injection H as <- _. repeat split.
  - rewrite for_each_cons in H. cbn [fst snd] in H.
    destruct (setProp P key value n) as [n1 [[]|e]] eqn:E;
      apply setProp_spec in E as (Htag & Hattr & Htext).
    + apply IH in H as (Htag' & Hattr' & Htext'). split; [congruence|]. split.
      * intros k Hk. cbn in Hk. apply not_elem_of_cons in Hk as [Hk1 Hk2].
        rewrite Hattr' by exact Hk2. now apply Hattr.
      * intros Hk. cbn in Hk. apply not_elem_of_cons in Hk as [Hk1 Hk2].
        rewrite Htext' by exact Hk2. apply Htext. congruence.
    + injection H as <- _. split; [exact Htag|]. split.
      * intros k Hk. cbn in Hk. apply not_elem_of_cons in Hk as [Hk1 Hk2].
        now apply Hattr.
      * intros Hk. cbn in Hk. apply not_elem_of_cons in Hk as [Hk1 Hk2].
        apply Htext. congruence.
Qed.

Lemma setProps_tagName props n n' o :
  setProps P props n = (n', o) -> tagName n' = tagName n.
Proof.
  unfold setProps, bind, lift_outcome, ret. intros H.
  destruct (own_entries props) as [entries|e]; [|now injection H as <- _].
  destruct (get_prop props "textContent") as [text|e]; [|now injection H as <- _].
  assert (Hloop : exists n1, tagName n1 = tagName n
            /\ for_each (fun kv : string * JsVal => setProp P kv.1 kv.2)
                 (filter (fun kv : string * JsVal => negb (special_prop kv.1)) entries)
                 n1 = (n', o)).
  { destruct text; eexists; (split; [|exact H]); reflexivity. }
  destruct Hloop as (n1 & Htag & Hloop).
  apply setProp_loop in Hloop as (Htag' & _). congruence.
Qed.


(** X8. [updateElement] with properties that give no new id keeps the tree:
    whether it returns or throws, every other element is as it was, the
    element keeps its parent, its children and its tag name, and a
    well-formed map stays well formed. *)
Theorem updateElement_without_rename_keeps_the_tree
  els (id : string) (props : JsVal) els' (o : Outcome unit) :
  (forall idv, get_prop props "id" = Return idv ->
     truthy idv = false \/ idv = JStr id) ->
  DOMManager_updateElement P id props els = (els', o) ->
  (forall k, k ≠ id -> els' !! k = els !! k)
  /\ (els !! id = None -> els' = els /\ exists e, o = Throw e)
  /\ (forall info, els !! id = Some info ->
        exists info', els' !! id = Some info'
          /\ node info' = (setProps P props (node info)).1
          /\ parentId info' = parentId info /\ children info' = children info
          /\ tagName (node info') = tagName (node info))
  /\ (store_ok els = true -> store_ok els' = true).
Proof.
  intros Hid Hrun. unfold DOMManager_updateElement in Hrun.
  destruct (els !! id) as [info|] eqn:Hlive.
  2: { unfold not_found, throw in Hrun. injection Hrun as <- <-.
       repeat split; eauto. intros info; discriminate. }
  assert (Hshape : els' = <[id := with_node info (setProps P props (node info)).1]> els).
  { destruct (setProps P props (node info)) as [n [[]|e]]; cbn [fst].
    - cbv zeta in Hrun. destruct (get_prop props "id") as [idv|e] eqn:E.
      + destruct (Hid idv eq_refl) as [Hf | ->].
        * rewrite Hf in Hrun. cbn [andb] in Hrun. now injection Hrun as <- _.
        * cbn [strict_eq_str] in Hrun. rewrite String.eqb_refl, andb_false_r in Hrun.
          now injection Hrun as <- _.
      + now injection Hrun as <- _.
    - now injection Hrun as <- _. }
  subst els'. split; [intros k Hk; now rewrite lookup_insert_ne by congruence|].
  split; [discriminate|]. split.
  - intros info0 [= <-]. eexists. rewrite lookup_insert_eq. split; [reflexivity|].
    unfold with_node. cbn [node parentId children]. repeat split.
    destruct (setProps P props (node info)) as [n o'] eqn:E. cbn [fst].
    now apply setProps_tagName in E.
  - rewrite !store_ok_well_formed. apply well_formed_same_structure.
    intros k. destruct (decide (k = id)) as [-> | Hne].
    + rewrite lookup_insert_eq, Hlive. split; reflexivity.
    + rewrite lookup_insert_ne by congruence. destruct (els !! k); auto.
Qed.

End Props.

(** ** Batches *)

Section Batches.

Variable P : Platform.

Lemma executeToolCalls_loop_from tcs : forall dm, exists dm' rs,
  forall acc, executeToolCalls_loop P acc tcs dm = (dm', Return (acc ++ rs)).
Proof.
  induction tcs as [|tc rest IH]; intros dm.
  - exists dm, []. intros acc. now rewrite app_nil_r.
  - destruct (executeToolCall P tc dm) as [dm1 [r|e]] eqn:E;
      destruct (IH dm1) as (dm' & rs & Hrs).
    + exists dm', (Success r tc :: rs). intros acc.
      rewrite executeToolCalls_loop_cons, E, Hrs, <- app_assoc. reflexivity.
    + exists dm', (Failure (message e) tc :: rs). intros acc.
      rewrite executeToolCalls_loop_cons, E, Hrs, <- app_assoc. reflexivity.
Qed.

Lemma executeToolCalls_loop_app l1 : forall l2 acc dm,
  executeToolCalls_loop P acc (l1 ++ l2) dm =
    (let! results := executeToolCalls_loop P acc l1 in
     executeToolCalls_loop P results l2) dm.
Proof.
  induction l1 as [|tc rest IH]; intros l2 acc dm.
  - reflexivity.
  - change ((tc :: rest) ++ l2) with (tc :: (rest ++ l2)).
    unfold bind. rewrite !executeToolCalls_loop_cons.
    destruct (executeToolCall P tc dm) as [dm1 [r|e]]; apply IH.
Qed.

(** X9. Running a list of tool calls in two parts, the second on the store
    the first left, gives the store and the entries of running it whole. *)
Theorem executeToolCalls_app (l1 l2 : list JsVal) (dm : DOMManager) :
  exists dm1 r1 dm2 r2,
    executeToolCalls P l1 dm = (dm1, Return r1)
    /\ executeToolCalls P l2 dm1 = (dm2, Return r2)
    /\ executeToolCalls P (l1 ++ l2) dm = (dm2, Return (r1 ++ r2)).
Proof.
  destruct (executeToolCalls_loop_from l1 dm) as (dm1 & r1 & H1).
  destruct (executeToolCalls_loop_from l2 dm1) as (dm2 & r2 & H2).
  exists dm1, r1, dm2, r2. unfold executeToolCalls.
  rewrite executeToolCalls_loop_app. unfold bind.
  rewrite !H1, !H2. repeat split.
Qed.

Lemma run_batches_concat bs : forall seen dm,
  run_batches P seen bs dm = executeToolCalls_loop P seen (concat bs) dm.
Proof.
  induction bs as [|batch rest IH]; intros seen dm.
  - reflexivity.
  - cbn [run_batches concat]. rewrite executeToolCalls_loop_app.
    unfold bind at 1. unfold try_catch, bind, ret, executeToolCalls.
    destruct (executeToolCalls_loop_from batch dm) as (dm1 & rs & Hrs).
    rewrite !Hrs. cbn. apply IH.
Qed.

Lemma slices_eq fuel i n pending :
  slices fuel i n pending =
    if (i <? length pending)%nat then
      match fuel with
      | O => None
      | S fuel' =>
          option_map (cons (take n (drop i pending)))
                     (slices fuel' (i + n) n pending)
      end
    else Some [].
Proof. destruct fuel; reflexivity. Qed.

Lemma slices_positive n pending fuel : forall i,
  (length pending - i <= fuel)%nat ->
  exists bs, slices fuel i (S n) pending = Some bs
    /\ concat bs = drop i pending.
Proof.
  induction fuel as [|fuel IH]; intros i Hfuel; rewrite slices_eq;
    destruct (Nat.ltb_spec i (length pending)) as [Hlt|Hge];
    try (exists []; rewrite drop_ge by lia; now split); [lia|].
  destruct (IH (i + S n)%nat) as (bs & Hbs & Hcat); [lia|].
  rewrite Hbs. cbn. eexists. split; [reflexivity|].
  cbn [concat]. rewrite Hcat, <- drop_drop.
  apply take_drop.
Qed.

(** X10. With a positive [batchSize], [flushPendingToolCalls] ends and does
    what one call of [executeToolCalls] on the whole queue does: the same
    store and the same entries in the same order, whatever the batch
    size. *)
Theorem flushPendingToolCalls_is_executeToolCalls
  (n : nat) (pending : list JsVal) (dm : DOMManager) :
  exists run,
    flushPendingToolCalls P (length pending) (Size (S n)) pending = Some run
    /\ run dm = executeToolCalls P pending dm.
Proof.
  destruct pending as [|tc rest]; [exists (ret []); split; reflexivity|].
  destruct (slices_positive n (tc :: rest) (length (tc :: rest)) 0)
    as (bs & Hbs & Hcat); [lia|].
  exists (run_batches P [] bs). unfold flushPendingToolCalls, batches.
  rewrite Hbs. split; [reflexivity|].
  rewrite run_batches_concat, Hcat. reflexivity.
Qed.

(** X11. A [Renderer] made without a [batchSize] option hands [batchSize:
    undefined] to its [StreamProcessor], which then empties the queue
    without running any of it; and with [batchSize] 0 the slicing loop of a
    non-empty queue never ends. *)
Theorem flushPendingToolCalls_without_batchSize
  (pending : list JsVal) (dm : DOMManager) :
  (exists run,
     flushPendingToolCalls P (length pending) (Renderer_batchSize None) pending
       = Some run
     /\ run dm = (dm, Return []))
  /\ (forall fuel, pending <> [] ->
        flushPendingToolCalls P fuel (StreamProcessor_batchSize (Some (Size 0)))
          pending = None)
  /\ (exists run,
        flushPendingToolCalls P (length pending) (StreamProcessor_batchSize None)
          pending = Some run
        /\ run dm = executeToolCalls P pending dm).
Proof.
  split; [|split].
  - destruct pending as [|tc rest]; eexists; split; reflexivity.
  - intros fuel Hne. destruct pending as [|tc rest]; [congruence|].
    unfold flushPendingToolCalls, StreamProcessor_batchSize, batches.
    assert (H : slices fuel 0 0 (tc :: rest) = None).
    { induction fuel as [|fuel IH]; [reflexivity|].
      rewrite slices_eq. cbn [length Nat.ltb Nat.leb]. cbn [Nat.add].
      now rewrite IH. }
    now rewrite H.
  - destruct pending as [|tc rest]; [exists (ret []); split; reflexivity|].
    destruct (slices_positive 0 (tc :: rest) (length (tc :: rest)) 0)
      as (bs & Hbs & Hcat); [lia|].
    exists (run_batches P [] bs).
    unfold flushPendingToolCalls, StreamProcessor_batchSize, batches.
    rewrite Hbs. split; [reflexivity|].
    rewrite run_batches_concat, Hcat. reflexivity.
Qed.

End Batches.


(** ** The structured-delta parser: completeness of what is emitted *)

Section CommandParserStreams.

Variable P : Platform.

Lemma collect_app {A} (step : CommandParser -> A -> CommandParser * list CompletedToolCall)
  xs : forall st ys,
  collect step st (xs ++ ys) =
    let '(st1, out1) := collect step st xs in
    let '(st2, out2) := collect step st1 ys in
    (st2, out1 ++ out2).
Proof.
  induction xs as [|x xs IH]; intros st ys; cbn [collect app].
  - now destruct (collect step st ys).
  - destruct (step st x) as [st1 out1]. rewrite IH.
    destruct (collect step st1 xs) as [st2 out2].
    destruct (collect step st2 ys) as [st3 out3]. now rewrite app_assoc.
Qed.

Lemma collect_invariant {A}
  (step : CommandParser -> A -> CommandParser * list CompletedToolCall)
  (I : CommandParser -> Prop) (Q : CompletedToolCall -> Prop) :
  (forall st x, I st -> I (step st x).1 /\ Forall Q (step st x).2) ->
  forall xs st, I st -> I (collect step st xs).1 /\ Forall Q (collect step st xs).2.
Proof.
  intros Hstep xs. induction xs as [|x xs IH]; intros st Hst; cbn [collect].
  - split; [exact Hst | constructor].
  - destruct (Hstep st x Hst) as [H1 H2]. destruct (step st x) as [st1 out1].
    destruct (IH st1 H1) as [H3 H4]. destruct (collect step st1 xs) as [st2 out2].
    split; [exact H3 | apply Forall_app; split; assumption].
Qed.

Lemma elem_of_assoc_set {A} k (v : A) l x :
  x ∈ assoc_set k v l -> x = (k, v) \/ x ∈ l.
Proof.
  induction l as [|[k' v'] l IH]; cbn.
  - intros H. apply list_elem_of_singleton in H. now left.
  - destruct (String.eqb k' k).
    + intros H. apply elem_of_cons in H as [->|H]; [now left|].
      right. now apply elem_of_cons; right.
    + intros H. apply elem_of_cons in H as [->|H].
      * right. now apply elem_of_cons; left.
      * destruct (IH H) as [->|H']; [now left|]. right. now apply elem_of_cons; right.
Qed.

Lemma pending_only_delete st key completed :
  pending_only P st ->
  pending_only P {| toolCallBuffer := assoc_delete key (toolCallBuffer st);
                    completedToolCalls := completed |}.
Proof.
  unfold pending_only. cbn. rewrite !Forall_forall. intros H x Hx.
  apply H. unfold assoc_delete in Hx. apply list_elem_of_filter in Hx. tauto.
Qed.

Lemma parseChunk_delta_pending st d :
  pending_only P st ->
  pending_only P (parseChunk_delta P st d).1
  /\ Forall (emitted_ok P) (parseChunk_delta P st d).2.
Proof.
  intros Hst. unfold parseChunk_delta. cbv zeta.
  destruct (decide _) as [|_]; [split; [exact Hst | constructor]|].
  set (toolCall0 := default _ _).
  set (toolCall := Build_BufferedToolCall _ _ _ _).
  destruct (nonempty (b_name toolCall) && nonempty (b_arguments toolCall)
            && nonempty (trim (b_arguments toolCall))
            && parses P (b_arguments toolCall)) eqn:E; cbn [fst snd].
  - split.
    + unfold pending_only in *. cbn. rewrite Forall_forall in *. intros x Hx.
      unfold assoc_delete in Hx. apply list_elem_of_filter in Hx as [Hne Hx].
      apply elem_of_assoc_set in Hx as [->|Hx]; [|now apply Hst].
      cbn in Hne. now rewrite String.eqb_refl in Hne.
    + repeat constructor; cbn; rewrite !andb_true_iff in E; tauto.
  - split; [|constructor].
    unfold pending_only in *. cbn. rewrite Forall_forall in *. intros x Hx.
    apply elem_of_assoc_set in Hx as [->|Hx]; [exact E | now apply Hst].
Qed.

Lemma truthy_str_nonempty o s : truthy_str o = Some s -> nonempty s = true.
Proof.
  destruct o as [t|]; cbn; [|discriminate].
  destruct (nonempty t) eqn:E; [|discriminate]. now intros [= <-].
Qed.

Lemma parseChunk_final_pending st d :
  pending_only P st ->
  pending_only P (parseChunk_final P st d).1
  /\ Forall (emitted_ok P) (parseChunk_final P st d).2.
Proof.
  intros Hst. unfold parseChunk_final. cbv zeta.
  destruct (decide _) as [|_]; [split; [exact Hst | constructor]|].
  destruct (truthy_str (d_name d)) as [name|] eqn:Hn;
    [|split; [exact Hst | constructor]].
  destruct (truthy_str (d_arguments d)) as [arguments|] eqn:Ha;
    [|split; [exact Hst | constructor]].
  destruct (parses P arguments) eqn:Hp; cbn [fst snd].
  - split; [now apply pending_only_delete|].
    repeat constructor; cbn; eauto using truthy_str_nonempty.
  - destruct (assoc_get _ _) as [b|]; [|split; [exact Hst | constructor]].
    destruct (nonempty (b_name b) && nonempty (b_arguments b)
              && parses P (b_arguments b)) eqn:E; cbn [fst snd];
      [|split; [exact Hst | constructor]].
    split; [now apply pending_only_delete|].
    repeat constructor; cbn; rewrite !andb_true_iff in E; tauto.
Qed.

Lemma parseChunk_choice_pending st choice :
  pending_only P st ->
  pending_only P (parseChunk_choice P st choice).1
  /\ Forall (emitted_ok P) (parseChunk_choice P st choice).2.
Proof.
  intros Hst. unfold parseChunk_choice.
  destruct (collect_invariant (parseChunk_delta P) (pending_only P) (emitted_ok P)
              parseChunk_delta_pending (delta_tool_calls choice) st Hst) as [H1 H2].
  destruct (collect (parseChunk_delta P) st (delta_tool_calls choice)) as [st1 out1].
  cbn [fst snd] in *.
  destruct (finish_reason choice) as [reason|]; [|now split].
  destruct (String.eqb reason "tool_calls"); [|now split].
  destruct (collect_invariant (parseChunk_final P) (pending_only P) (emitted_ok P)
              parseChunk_final_pending (message_tool_calls choice) st1 H1) as [H3 H4].
  destruct (collect (parseChunk_final P) st1 (message_tool_calls choice)) as [st2 out2].
  split; [exact H3 | apply Forall_app; split; assumption].
Qed.

Lemma parseChunk_pending st chunk :
  pending_only P st ->
  pending_only P (parseChunk P st chunk).1
  /\ Forall (emitted_ok P) (parseChunk P st chunk).2.
Proof.
  apply (collect_invariant (parseChunk_choice P) (pending_only P) (emitted_ok P)
           parseChunk_choice_pending).
Qed.

Lemma flush_loop_pending entries : forall completed,
  Forall (fun kb => complete P (b_name kb.2) (b_arguments kb.2) = false) entries ->
  flush_loop P completed entries = (completed, []).
Proof.
  induction entries as [|[key b] rest IH]; intros completed Hall; [reflexivity|].
  apply Forall_cons in Hall as [Hb Hrest]. cbn [flush_loop].
  unfold complete in Hb. cbn in Hb. rewrite Hb.
  destruct (decide _); now apply IH.
Qed.

Lemma parseChunk_feed_pending chunks : forall st,
  pending_only P st ->
  pending_only P (fold_left (fun st chunk => (parseChunk P st chunk).1) chunks st).
Proof.
  induction chunks as [|chunk rest IH]; intros st Hst; [exact Hst|].
  cbn [fold_left]. apply IH. now apply parseChunk_pending.
Qed.

(** X12. Whatever the parser held before, every tool call [parseChunk] returns
    has a name and arguments that are not empty, and arguments [JSON.parse]
    accepts. *)
Theorem parseChunk_emits_complete_calls (st : CommandParser) (chunk : Chunk) :
  Forall (fun c => nonempty (c_name c) = true
                   /\ nonempty (c_arguments c) = true
                   /\ parses P (c_arguments c) = true)
         (parseChunk P st chunk).2.
Proof.
  unfold parseChunk.
  assert (Hchoice : forall st choice, True ->
            True /\ Forall (emitted_ok P) (parseChunk_choice P st choice).2).
  { clear. intros st choice _. split; [exact I|].
    unfold parseChunk_choice.
    assert (Hd : forall st d, True ->
              True /\ Forall (emitted_ok P) (parseChunk_delta P st d).2).
    { clear. intros st d _. split; [exact I|].
      unfold parseChunk_delta. cbv zeta.
      destruct (decide _) as [|_]; [constructor|].
      set (toolCall := Build_BufferedToolCall _ _ _ _).
      destruct (nonempty (b_name toolCall) && nonempty (b_arguments toolCall)
                && nonempty (trim (b_arguments toolCall))
                && parses P (b_arguments toolCall)) eqn:E; cbn [snd];
        [|constructor].
      repeat constructor; cbn; rewrite !andb_true_iff in E; tauto. }
    assert (Hf : forall st d, True ->
              True /\ Forall (emitted_ok P) (parseChunk_final P st d).2).
    { clear. intros st d _. split; [exact I|].
      unfold parseChunk_final. cbv zeta.
      destruct (decide _) as [|_]; [constructor|].
      destruct (truthy_str (d_name d)) as [name|] eqn:Hn; [|constructor].
      destruct (truthy_str (d_arguments d)) as [arguments|] eqn:Ha; [|constructor].
      destruct (parses P arguments) eqn:Hp; cbn [snd].
      - repeat constructor; cbn; eauto using truthy_str_nonempty.
      - destruct (assoc_get _ _) as [b|]; [|constructor].
        destruct (nonempty (b_name b) && nonempty (b_arguments b)
                  && parses P (b_arguments b)) eqn:E; cbn [snd]; [|constructor].
        repeat constructor; cbn; rewrite !andb_true_iff in E; tauto. }
    pose proof (collect_invariant (parseChunk_delta P) (fun _ => True) (emitted_ok P)
                  Hd (delta_tool_calls choice) st I) as [_ H2].
    destruct (collect (parseChunk_delta P) st (delta_tool_calls choice)) as [st1 out1].
    cbn [snd] in *.
    destruct (finish_reason choice) as [reason|]; [|exact H2].
    destruct (String.eqb reason "tool_calls"); [|exact H2].
    pose proof (collect_invariant (parseChunk_final P) (fun _ => True) (emitted_ok P)
                  Hf (message_tool_calls choice) st1 I) as [_ H4].
    destruct (collect (parseChunk_final P) st1 (message_tool_calls choice)) as [st2 out2].
    apply Forall_app; split; assumption. }
  apply (collect_invariant (parseChunk_choice P) (fun _ => True) (emitted_ok P)
           Hchoice chunk st I).
Qed.

(** X13. After any feed of chunks to a new parser, no record left in the buffer
    passes the test for emission, so [flush] emits nothing: it only
    empties the buffer. *)
Theorem CommandParser_flush_emits_nothing (chunks : list Chunk) :
  let st := fold_left (fun st chunk => (parseChunk P st chunk).1) chunks
                      new_CommandParser in
  pending_only P st
  /\ CommandParser_flush P st
     = ({| toolCallBuffer := []; completedToolCalls := completedToolCalls st |}, []).
Proof.
  cbv zeta.
  assert (H : pending_only P (fold_left (fun st chunk => (parseChunk P st chunk).1)
                                chunks new_CommandParser)).
  { apply parseChunk_feed_pending. constructor. }
  split; [exact H|]. unfold CommandParser_flush.
  now rewrite (flush_loop_pending _ _ H).
Qed.

End CommandParserStreams.

(** ** The structured-delta parser: pieces of one tool call *)

Section Reassembly.

Variable P : Platform.

Lemma assoc_get_delete_eq {A} k (l : list (string * A)) :
  assoc_get k (assoc_delete k l) = None.
Proof.
  destruct (assoc_get k (assoc_delete k l)) as [b|] eqn:E; [|reflexivity].
  apply assoc_get_delete in E. tauto.
Qed.

Lemma assoc_get_delete_ne {A} k k' (l : list (string * A)) :
  k' ≠ k -> assoc_get k' (assoc_delete k l) = assoc_get k' l.
Proof.
  intros Hne. unfold assoc_delete.
  induction l as [|[k0 v] l IH]; [reflexivity|].
  rewrite filter_cons. cbn [fst assoc_get].
  destruct (String.eqb_spec k0 k) as [->|Hk0].
  - rewrite decide_False by (cbn; tauto).
    rewrite (proj2 (String.eqb_neq k k')) by congruence. exact IH.
  - rewrite decide_True by (cbn; tauto). cbn [assoc_get]. now rewrite IH.
Qed.

Lemma truthy_str_Some s : nonempty s = true -> truthy_str (Some s) = Some s.
Proof. intros H. cbn. now rewrite H. Qed.

Lemma truthy_str_idem o : truthy_str (truthy_str o) = truthy_str o.
Proof.
  destruct o as [s|]; [|reflexivity]. cbn.
  destruct (nonempty s) eqn:E; [|reflexivity]. cbn. now rewrite E.
Qed.

(** One more piece for a record the buffer holds. *)
Lemma parseChunk_delta_piece st index piece b :
  let key := toolCallKey index in
  let toolCall := {| b_id := b_id b; b_name := b_name b;
                     b_arguments := b_arguments b ++ piece;
                     b_index := b_index b |} in
  key ∉ completedToolCalls st ->
  assoc_get key (toolCallBuffer st) = Some b ->
  nonempty piece = true ->
  parseChunk_delta P st {| d_index := index; d_id := None; d_name := None;
                           d_arguments := Some piece |} =
    if complete P (b_name b) (b_arguments b ++ piece) then
      ({| toolCallBuffer :=
            assoc_delete key (assoc_set key toolCall (toolCallBuffer st));
          completedToolCalls := {[key]} ∪ completedToolCalls st |},
       [{| c_id := or_str (b_id b) (Some ("temp_" ++ pretty index)%string);
           c_name := b_name b;
           c_arguments := b_arguments b ++ piece;
           c_index := b_index b |}])
    else
      ({| toolCallBuffer := assoc_set key toolCall (toolCallBuffer st);
          completedToolCalls := completedToolCalls st |}, []).
Proof.
  intros key toolCall Hkey Hb Hpiece. unfold parseChunk_delta. cbv zeta.
  cbn [d_index d_id d_name d_arguments]. fold key.
  rewrite decide_False by exact Hkey. rewrite Hb. cbn [default].
  rewrite (truthy_str_Some piece Hpiece). cbn [truthy_str].
  cbn [b_name b_arguments b_id b_index]. fold toolCall. unfold complete.
  reflexivity.
Qed.

Lemma joined_cons a rest : joined (a :: rest) = (a ++ joined rest)%string.
Proof. reflexivity. Qed.

Lemma pieces_reassemble rest : forall st index b,
  let key := toolCallKey index in
  key ∉ completedToolCalls st ->
  assoc_get key (toolCallBuffer st) = Some b ->
  rest ≠ [] ->
  Forall (fun piece => nonempty piece = true) rest ->
  (forall k, (0 < k < length rest)%nat ->
     parses P (b_arguments b ++ joined (take k rest)) = false) ->
  complete P (b_name b) (b_arguments b ++ joined rest) = true ->
  exists st',
    collect (parseChunk_delta P) st
      (map (fun piece => {| d_index := index; d_id := None; d_name := None;
                            d_arguments := Some piece |}) rest)
    = (st', [{| c_id := or_str (b_id b) (Some ("temp_" ++ pretty index)%string);
                c_name := b_name b;
                c_arguments := b_arguments b ++ joined rest;
                c_index := b_index b |}])
    /\ completedToolCalls st' = {[key]} ∪ completedToolCalls st
    /\ assoc_get key (toolCallBuffer st') = None
    /\ (forall k, k ≠ key ->
          assoc_get k (toolCallBuffer st') = assoc_get k (toolCallBuffer st)).
Proof.
  induction rest as [|piece rest IH]; intros st index b key Hkey Hb Hne Hall Hpre Hall_ok;
    [congruence|].
  apply Forall_cons in Hall as [Hpiece Hall].
  cbn [map collect].
  rewrite (parseChunk_delta_piece st index piece b Hkey Hb Hpiece). fold key.
  destruct rest as [|piece2 rest].
  - cbn [joined fold_right] in Hall_ok. rewrite append_empty_r in Hall_ok.
    rewrite Hall_ok. cbn [map collect joined fold_right].
    rewrite append_empty_r. eexists. split; [reflexivity|]. cbn.
    split; [reflexivity|]. split; [apply assoc_get_delete_eq|].
    intros k Hk. rewrite assoc_get_delete_ne by assumption.
    now rewrite assoc_get_set_ne by (intros E; apply Hk; symmetry; exact E).
  - assert (Hnot : complete P (b_name b) (b_arguments b ++ piece) = false).
    { unfold complete. specialize (Hpre 1%nat). cbn [take joined fold_right length] in Hpre.
      rewrite append_empty_r in Hpre. rewrite Hpre by lia. apply andb_false_r. }
    rewrite Hnot.
    set (toolCall := Build_BufferedToolCall _ _ _ _).
    set (st1 := Build_CommandParser _ _).
    destruct (IH st1 index toolCall) as (st' & Hrun & Hdone & Hgone & Hother).
    + exact Hkey.
    + unfold st1. cbn. apply assoc_get_set_eq.
    + discriminate.
    + exact Hall.
    + intros k Hk. unfold toolCall. cbn [b_arguments]. rewrite append_assoc.
      apply (Hpre (S k)). cbn [length] in *. lia.
    + unfold toolCall. cbn [b_name b_arguments]. rewrite append_assoc. exact Hall_ok.
    + fold key in Hrun, Hdone, Hgone, Hother.
      change (map _ (piece2 :: rest)) with
        (map (fun piece => {| d_index := index; d_id := None; d_name := None;
                              d_arguments := Some piece |}) (piece2 :: rest)).
      rewrite Hrun. unfold toolCall. cbn [b_id b_name b_arguments b_index app].
      rewrite joined_cons, append_assoc.
      exists st'. split; [reflexivity|]. split; [exact Hdone|].
      split; [exact Hgone|].
      intros k Hk. rewrite (Hother k Hk). unfold st1. cbn.
      now rewrite assoc_get_set_ne by (intros E; apply Hk; symmetry; exact E).
Qed.

(** X14. The arguments of one tool call, delivered in any number of pieces to
    a slot that is neither retired nor buffered: nothing is emitted while
    the pieces joined so far do not parse, and the piece that completes the
    text emits the call once, with the pieces joined in order; the slot is
    then retired and its record gone from the buffer. *)
Theorem fragments_are_reassembled (st : CommandParser) (index : Z)
  (id : option string) (name first : string) (rest : list string) :
  let key := toolCallKey index in
  key ∉ completedToolCalls st ->
  assoc_get key (toolCallBuffer st) = None ->
  nonempty name = true ->
  Forall (fun piece => nonempty piece = true) (first :: rest) ->
  (forall k, (0 < k <= length rest)%nat ->
     parses P (joined (take k (first :: rest))) = false) ->
  parses P (joined (first :: rest)) = true ->
  nonempty (trim (joined (first :: rest))) = true ->
  exists st',
    collect (parseChunk_delta P) st (fragments index id name first rest)
    = (st', [{| c_id := or_str id (Some ("temp_" ++ pretty index)%string);
                c_name := name;
                c_arguments := joined (first :: rest);
                c_index := index |}])
    /\ completedToolCalls st' = {[key]} ∪ completedToolCalls st
    /\ assoc_get key (toolCallBuffer st') = None
    /\ (forall k, k ≠ key ->
          assoc_get k (toolCallBuffer st') = assoc_get k (toolCallBuffer st)).
Proof.
  intros key Hkey Hb Hname Hall Hpre Hparse Htrim.
  apply Forall_cons in Hall as [Hfirst Hall].
  assert (Hwhole : nonempty (joined (first :: rest)) = true).
  { rewrite joined_cons. destruct first; [discriminate | reflexivity]. }
  unfold fragments. cbn [collect].
  unfold parseChunk_delta at 1. cbv zeta.
  cbn [d_index d_id d_name d_arguments]. fold key.
  set (temp := Some ("temp_" ++ pretty index)%string).
  assert (Hor : or_str (truthy_str id) temp = or_str id temp).
  { unfold or_str. now rewrite truthy_str_idem. }
  rewrite decide_False by exact Hkey. rewrite Hb. cbn [default].
  rewrite (truthy_str_Some name Hname), (truthy_str_Some first Hfirst).
  cbn [b_id b_name b_arguments b_index].
  change ("" ++ first)%string with first.
  rewrite truthy_str_idem.
  replace (match truthy_str id with
           | Some i => match truthy_str id with
                       | Some _ => truthy_str id
                       | None => Some i
                       end
           | None => truthy_str id
           end) with (truthy_str id) by (now destruct (truthy_str id)).
  destruct rest as [|piece rest].
  - cbn [joined fold_right] in *. rewrite append_empty_r in *.
    rewrite Hname, Hfirst, Htrim, Hparse. cbn [andb map collect app].
    rewrite Hor. eexists. split; [reflexivity|]. cbn.
    split; [reflexivity|]. split; [apply assoc_get_delete_eq|].
    intros k Hk. rewrite assoc_get_delete_ne by assumption.
    now rewrite assoc_get_set_ne by (intros E; apply Hk; symmetry; exact E).
  - assert (Hnot : parses P first = false).
    { specialize (Hpre 1%nat). cbn [take joined fold_right length] in Hpre.
      rewrite append_empty_r in Hpre. apply Hpre. lia. }
    rewrite Hnot, andb_false_r.
    set (b := Build_BufferedToolCall _ _ _ _).
    set (st1 := Build_CommandParser _ _).
    destruct (pieces_reassemble (piece :: rest) st1 index b)
      as (st' & Hrun & Hdone & Hgone & Hother).
    + exact Hkey.
    + unfold st1. cbn. apply assoc_get_set_eq.
    + discriminate.
    + exact Hall.
    + intros k Hk. unfold b. cbn [b_arguments]. apply (Hpre (S k)).
      cbn [length] in *. lia.
    + unfold b, complete. cbn [b_name b_arguments].
      rewrite joined_cons in Hwhole, Htrim, Hparse.
      now rewrite Hname, Hwhole, Htrim, Hparse.
    + fold key in Hdone, Hgone, Hother. rewrite Hrun.
      unfold b. cbn [b_id b_name b_arguments b_index app]. fold temp. rewrite Hor.
      exists st'. split; [reflexivity|]. split; [exact Hdone|].
      split; [exact Hgone|].
      intros k Hk. rewrite (Hother k Hk). unfold st1. cbn.
      now rewrite assoc_get_set_ne by (intros E; apply Hk; symmetry; exact E).
Qed.

End Reassembly.

(** ** The incremental renderer *)

Section IncrementalRendererProperties.

Variable P : Platform.

Lemma execute_completed_fold completed : forall dm executed acc,
  exists dm' rs,
    (forall acc', executeToolCalls_loop P acc' (map completed_object completed) dm
                  = (dm', Return (acc' ++ rs)))
    /\ fold_left (execute_completed P) completed (dm, executed, acc)
       = (dm', executed ++ map executed_record (succeeded completed rs), acc ++ rs).
Proof.
  induction completed as [|c rest IH]; intros dm executed acc.
  - exists dm, []. split; [intros acc'; now rewrite app_nil_r|].
    cbn. now rewrite !app_nil_r.
  - cbn [fold_left map]. unfold execute_completed at 2.
    destruct (executeToolCall P (completed_object c) dm) as [dm1 [r|e]] eqn:E.
    + destruct (IH dm1 (executed ++ [executed_record c])
                  (acc ++ [Success r (completed_object c)])) as (dm' & rs & Hloop & Hfold).
      exists dm', (Success r (completed_object c) :: rs). split.
      * intros acc'. rewrite executeToolCalls_loop_cons, E, Hloop, <- app_assoc.
        reflexivity.
      * rewrite Hfold. cbn [succeeded success map]. now rewrite <- !app_assoc.
    + destruct (IH dm1 executed (acc ++ [Failure (message e) (completed_object c)]))
        as (dm' & rs & Hloop & Hfold).
      exists dm', (Failure (message e) (completed_object c) :: rs). split.
      * intros acc'. rewrite executeToolCalls_loop_cons, E, Hloop, <- app_assoc.
        reflexivity.
      * rewrite Hfold. cbn [succeeded success map]. now rewrite <- !app_assoc.
Qed.

(** X15. [processChunk] hands the calls its parser completes to the dispatcher
    in the order they were completed: the store and the entries are those
    of [executeToolCalls] on them, and [executedToolCalls] grows by the
    records of the calls that succeeded. *)
Theorem processChunk_is_parseChunk_then_executeToolCalls
  (r : IncrementalRenderer) (chunk : Chunk) :
  exists dm' results,
    executeToolCalls P (map completed_object (parseChunk P (parser r) chunk).2)
                     (renderer r) = (dm', Return results)
    /\ IncrementalRenderer_processChunk P r chunk
       = ({| parser := (parseChunk P (parser r) chunk).1;
             renderer := dm';
             executedToolCalls :=
               executedToolCalls r
               ++ map executed_record
                    (succeeded (parseChunk P (parser r) chunk).2 results) |},
          results).
Proof.
  unfold IncrementalRenderer_processChunk.
  destruct (parseChunk P (parser r) chunk) as [parser' completed]. cbn [fst snd].
  destruct (execute_completed_fold completed (renderer r) (executedToolCalls r) [])
    as (dm' & rs & Hloop & Hfold).
  exists dm', rs. split; [apply (Hloop [])|]. now rewrite Hfold.
Qed.

Lemma processChunk_parser r chunk :
  parser (IncrementalRenderer_processChunk P r chunk).1
  = (parseChunk P (parser r) chunk).1.
Proof.
  unfold IncrementalRenderer_processChunk.
  destruct (parseChunk P (parser r) chunk) as [parser' completed].
  now destruct (fold_left _ _ _) as [[dm executed] results].
Qed.

(** X16. At the end of any feed of chunks to a new renderer, [flush] runs no
    tool call: it returns no entry and leaves the store and
    [executedToolCalls] as they are. *)
Theorem IncrementalRenderer_flush_runs_nothing
  (dm : DOMManager) (chunks : list Chunk) :
  let r := fold_left (fun r chunk => (IncrementalRenderer_processChunk P r chunk).1)
             chunks
             {| parser := new_CommandParser; renderer := dm;
                executedToolCalls := [] |} in
  IncrementalRenderer_flush P r
  = ({| parser := {| toolCallBuffer := [];
                     completedToolCalls := completedToolCalls (parser r) |};
        renderer := renderer r;
        executedToolCalls := executedToolCalls r |}, []).
Proof.
  cbv zeta.
  assert (H : forall r,
            pending_only P (parser r) ->
            pending_only P (parser (fold_left
              (fun r chunk => (IncrementalRenderer_processChunk P r chunk).1)
              chunks r))).
  { induction chunks as [|chunk rest IH]; intros r Hr; [exact Hr|].
    cbn [fold_left]. apply IH. rewrite processChunk_parser.
    now apply parseChunk_pending. }
  match goal with |- IncrementalRenderer_flush P ?r = _ =>
    assert (Hr : pending_only P (parser r)) by (apply H; constructor);
    generalize dependent r
  end.
  intros r Hr. unfold IncrementalRenderer_flush, CommandParser_flush.
  now rewrite (flush_loop_pending P _ _ Hr).
Qed.

End IncrementalRendererProperties.

(** ** The fenced-text parser: chunking *)

Section TextParserStreams.

Variable P : Platform.

Lemma prefix_app_true pat : forall s b,
  String.prefix pat s = true -> String.prefix pat (s ++ b) = true.
Proof.
  induction pat as [|a pat IH]; intros s b H; [apply prefix_empty|].
  destruct s as [|c s]; [discriminate|]. cbn in H |- *.
  destruct (ascii_dec a c); [now apply IH | discriminate].
Qed.

Lemma prefix_app_false pat : forall s b,
  String.prefix pat s = false -> (String.length pat <= String.length s)%nat ->
  String.prefix pat (s ++ b) = false.
Proof.
  induction pat as [|a pat IH]; intros s b H Hlen;
    [now rewrite prefix_empty in H|].
  destruct s as [|c s]; [cbn in Hlen; lia|]. cbn in H, Hlen |- *.
  destruct (ascii_dec a c); [apply IH; [exact H | lia] | reflexivity].
Qed.

Lemma indexOf_eq pat s :
  indexOf pat s =
    if String.prefix pat s then Some 0%nat
    else match s with
         | EmptyString => None
         | String _ rest => option_map S (indexOf pat rest)
         end.
Proof. destruct s; reflexivity. Qed.

(** The first occurrence of a pattern stays the first when text is added
    at the end. *)
Lemma indexOf_app pat s : forall b i,
  indexOf pat s = Some i -> indexOf pat (s ++ b) = Some i.
Proof.
  induction s as [|c s IH]; intros b i H; rewrite indexOf_eq in H;
    rewrite indexOf_eq.
  - destruct (String.prefix pat "") eqn:E; [|discriminate].
    now rewrite (prefix_app_true pat "" b E).
  - destruct (String.prefix pat (String c s)) eqn:E.
    + now rewrite (prefix_app_true pat _ b E).
    + destruct (indexOf pat s) as [i'|] eqn:Hi; [|discriminate].
      rewrite (prefix_app_false pat _ b E).
      * cbn [String.append]. now rewrite (IH b i' eq_refl).
      * apply indexOf_bound in Hi. cbn [String.length]. lia.
Qed.

Lemma drop_chars_app_le n : forall s b,
  (n <= String.length s)%nat -> drop_chars n (s ++ b) = (drop_chars n s ++ b)%string.
Proof.
  induction n as [|n IH]; intros s b H; [reflexivity|].
  destruct s as [|c s]; [cbn in H; lia|]. cbn in H |- *. apply IH. lia.
Qed.

Lemma take_chars_app_le n : forall s b,
  (n <= String.length s)%nat -> take_chars n (s ++ b) = take_chars n s.
Proof.
  induction n as [|n IH]; intros s b H; [reflexivity|].
  destruct s as [|c s]; [cbn in H; lia|]. cbn in H |- *. f_equal. apply IH. lia.
Qed.

Lemma substring_app_le lo hi s b :
  (lo <= hi <= String.length s)%nat -> substring lo hi (s ++ b) = substring lo hi s.
Proof.
  intros H. unfold substring. rewrite drop_chars_app_le by lia.
  apply take_chars_app_le. rewrite length_drop_chars. lia.
Qed.

Lemma loop_step fuel st newCommands :
  parseTextChunk_loop P (S fuel) st newCommands =
    match indexOf fence (textBuffer st) with
    | None => (st, newCommands)
    | Some codeBlockStart =>
        match indexOf fence (substring_from (codeBlockStart + 3) (textBuffer st)) with
        | None =>
            let language :=
              toLowerCase (fst (match_language
                (substring_from (codeBlockStart + 3) (textBuffer st)))) in
            match currentCodeBlock st with
            | Some startIndex =>
                if (startIndex =? codeBlockStart)%nat then (st, newCommands)
                else
                  ({| currentCodeBlock := Some codeBlockStart;
                      currentLanguage := Some language;
                      parsedCommands := parsedCommands st;
                      textBuffer := textBuffer st |}, newCommands)
            | None =>
                ({| currentCodeBlock := Some codeBlockStart;
                    currentLanguage := Some language;
                    parsedCommands := parsedCommands st;
                    textBuffer := textBuffer st |}, newCommands)
            end
        | Some codeBlockEnd =>
            let blockEnd := (codeBlockStart + 3 + codeBlockEnd + 3)%nat in
            let fullCodeBlock := substring codeBlockStart blockEnd (textBuffer st) in
            let languageMatch := match_language (substring_from 3 fullCodeBlock) in
            parseTextChunk_loop P fuel
              {| currentCodeBlock := None; currentLanguage := None;
                 parsedCommands := parsedCommands st;
                 textBuffer := substring 0 codeBlockStart (textBuffer st)
                               ++ substring_from blockEnd (textBuffer st) |}
              (newCommands ++ parseCodeBlock P
                 (trim (substring (3 + snd languageMatch)
                          (String.length fullCodeBlock - 3) fullCodeBlock))
                 (toLowerCase (fst languageMatch)))
        end
    end.
Proof. reflexivity. Qed.

(** What an iteration that leaves the loop does to the buffer: nothing. *)
Lemma loop_open_buffer st (newCommands : list JsVal) codeBlockStart language :
  textBuffer (match currentCodeBlock st with
              | Some startIndex =>
                  if (startIndex =? codeBlockStart)%nat then (st, newCommands)
                  else
                    ({| currentCodeBlock := Some codeBlockStart;
                        currentLanguage := Some language;
                        parsedCommands := parsedCommands st;
                        textBuffer := textBuffer st |}, newCommands)
              | None =>
                  ({| currentCodeBlock := Some codeBlockStart;
                      currentLanguage := Some language;
                      parsedCommands := parsedCommands st;
                      textBuffer := textBuffer st |}, newCommands)
              end).1 = textBuffer st
  /\ (match currentCodeBlock st with
      | Some startIndex =>
          if (startIndex =? codeBlockStart)%nat then (st, newCommands)
          else
            ({| currentCodeBlock := Some codeBlockStart;
                currentLanguage := Some language;
                parsedCommands := parsedCommands st;
                textBuffer := textBuffer st |}, newCommands)
      | None =>
          ({| currentCodeBlock := Some codeBlockStart;
              currentLanguage := Some language;
              parsedCommands := parsedCommands st;
              textBuffer := textBuffer st |}, newCommands)
      end).2 = newCommands.
Proof.
  destruct (currentCodeBlock st) as [startIndex|];
    [destruct (startIndex =? codeBlockStart)%nat|]; now split.
Qed.

Lemma cut_length s i j :
  indexOf fence s = Some i ->
  indexOf fence (substring_from (i + 3) s) = Some j ->
  (i + 3 + j + 3 <= String.length s)%nat
  /\ (String.length (substring 0 i s ++ substring_from (i + 3 + j + 3) s)
      < String.length s)%nat.
Proof.
  intros Hi Hj. apply indexOf_bound in Hi, Hj. unfold substring_from in *.
  rewrite length_drop_chars in Hj. cbn [String.length fence] in Hi, Hj.
  split; [lia|]. unfold substring, substring_from.
  rewrite length_append, length_take_chars, !length_drop_chars. lia.
Qed.

(** The loop never lengthens the buffer. *)
Lemma loop_length fuel : forall st newCommands,
  (String.length (textBuffer (parseTextChunk_loop P fuel st newCommands).1)
   <= String.length (textBuffer st))%nat.
Proof.
  induction fuel as [|fuel IH]; intros st newCommands; [reflexivity|].
  rewrite loop_step.
  destruct (indexOf fence (textBuffer st)) as [i|] eqn:Hi; [|reflexivity].
  destruct (indexOf fence (substring_from (i + 3) (textBuffer st))) as [j|] eqn:Hj.
  - cbv zeta. etransitivity; [apply IH|]. cbn [textBuffer].
    destruct (cut_length _ _ _ Hi Hj). lia.
  - cbv zeta. now rewrite (proj1 (loop_open_buffer st newCommands i _)).
Qed.

(** The buffer left and the commands pushed depend on the buffer only, not
    on the record of the open block. *)
Lemma loop_text_only fuel : forall st st' newCommands,
  textBuffer st = textBuffer st' ->
  textBuffer (parseTextChunk_loop P fuel st newCommands).1
  = textBuffer (parseTextChunk_loop P fuel st' newCommands).1
  /\ (parseTextChunk_loop P fuel st newCommands).2
     = (parseTextChunk_loop P fuel st' newCommands).2.
Proof.
  induction fuel as [|fuel IH]; intros st st' newCommands H; [now split|].
  rewrite !loop_step, <- H.
  destruct (indexOf fence (textBuffer st)) as [i|]; [|now split].
  destruct (indexOf fence (substring_from (i + 3) (textBuffer st))) as [j|].
  - cbv zeta. now apply IH.
  - cbv zeta.
    destruct (loop_open_buffer st newCommands i
                (toLowerCase (match_language (substring_from (i + 3) (textBuffer st))).1))
      as [-> ->].
    rewrite H.
    destruct (loop_open_buffer st' newCommands i
                (toLowerCase (match_language (substring_from (i + 3) (textBuffer st'))).1))
      as [-> ->].
    now split.
Qed.

(** The commands already pushed are kept in front of the new ones. *)
Lemma loop_acc fuel : forall st newCommands,
  parseTextChunk_loop P fuel st newCommands
  = ((parseTextChunk_loop P fuel st []).1,
     newCommands ++ (parseTextChunk_loop P fuel st []).2).
Proof.
  induction fuel as [|fuel IH]; intros st newCommands;
    [cbn; now rewrite app_nil_r|].
  rewrite !loop_step.
  destruct (indexOf fence (textBuffer st)) as [i|];
    [|cbn; now rewrite app_nil_r].
  destruct (indexOf fence (substring_from (i + 3) (textBuffer st))) as [j|].
  - cbv zeta. rewrite IH. rewrite (IH _ ([] ++ _)). cbn [fst snd app].
    now rewrite app_assoc.
  - cbv zeta. destruct (currentCodeBlock st) as [startIndex|];
      [destruct (startIndex =? i)%nat|]; cbn; now rewrite app_nil_r.
Qed.

Lemma loop_fuel fuel : forall st newCommands,
  (String.length (textBuffer st) < fuel)%nat ->
  parseTextChunk_loop P fuel st newCommands
  = parseTextChunk_loop P (S (String.length (textBuffer st))) st newCommands.
Proof.
  induction fuel as [|fuel IH]; intros st newCommands H; [lia|].
  destruct (Nat.eq_dec fuel (String.length (textBuffer st))) as [->|Hne];
    [reflexivity|].
  rewrite parseTextChunk_loop_enough by lia. apply IH. lia.
Qed.

(** Running the loop on a buffer with more text at its end is running it
    on the buffer, adding the text to what is left, and running it
    again. *)
Lemma loop_split fuel : forall st newCommands b stb stc,
  (String.length (textBuffer st ++ b) < fuel)%nat ->
  textBuffer stb = (textBuffer st ++ b)%string ->
  textBuffer stc
  = (textBuffer (parseTextChunk_loop P fuel st newCommands).1 ++ b)%string ->
  same_text (parseTextChunk_loop P fuel stb newCommands)
            (parseTextChunk_loop P fuel stc
               (parseTextChunk_loop P fuel st newCommands).2).
Proof.
  induction fuel as [|fuel IH]; intros st newCommands b stb stc Hfuel Hb Hc; [lia|].
  rewrite (loop_step fuel st) in Hc |- *.
  destruct (indexOf fence (textBuffer st)) as [i|] eqn:Hi.
  2: { apply loop_text_only. now rewrite Hb, Hc. }
  destruct (indexOf fence (substring_from (i + 3) (textBuffer st))) as [j|] eqn:Hj.
  2: { cbv zeta in Hc |- *.
       destruct (loop_open_buffer st newCommands i
                   (toLowerCase (match_language
                      (substring_from (i + 3) (textBuffer st))).1)) as [Hbuf Hcmd].
       rewrite Hbuf in Hc. rewrite Hcmd. apply loop_text_only. now rewrite Hb, Hc. }
  cbv zeta in Hc |- *.
  destruct (cut_length _ _ _ Hi Hj) as [Hend Hshort].
  rewrite length_append in Hfuel.
  set (st1 := Build_TextParser None None (parsedCommands st) _) in *.
  set (cmds := (newCommands ++ parseCodeBlock P _ _)) in *.
  assert (Hstb : parseTextChunk_loop P (S fuel) stb newCommands
                 = parseTextChunk_loop P fuel
                     {| currentCodeBlock := None; currentLanguage := None;
                        parsedCommands := parsedCommands stb;
                        textBuffer := (textBuffer st1 ++ b)%string |} cmds).
  { rewrite (loop_closed_block P fuel stb newCommands i j).
    - cbv zeta. rewrite Hb. unfold substring_from.
      rewrite !substring_app_le, !drop_chars_app_le by lia.
      unfold st1. cbn [textBuffer]. unfold substring_from.
      now rewrite append_assoc.
    - rewrite Hb. now apply indexOf_app.
    - rewrite Hb. unfold substring_from in *.
      rewrite drop_chars_app_le by lia. now apply indexOf_app. }
  rewrite Hstb.
  assert (Hstc : parseTextChunk_loop P (S fuel) stc
                   (parseTextChunk_loop P fuel st1 cmds).2
                 = parseTextChunk_loop P fuel stc
                     (parseTextChunk_loop P fuel st1 cmds).2).
  { apply parseTextChunk_loop_enough. rewrite Hc, length_append.
    pose proof (loop_length fuel st1 cmds) as Hle.
    unfold st1 in Hle at 2. cbn [textBuffer] in Hle. lia. }
  rewrite Hstc.
  apply (IH st1 cmds b); [|reflexivity | exact Hc].
  rewrite length_append. unfold st1. cbn [textBuffer]. lia.
Qed.

(** X17. The commands emitted and the text left in the buffer do not depend on
    where the text is cut into chunks: two chunks fed one after the other
    emit, in order, what their concatenation fed at once emits, and leave
    the same buffer. *)
Theorem parseTextChunk_chunking (st : TextParser) (a b : string) :
  let first := parseTextChunk P st a in
  let second := parseTextChunk P first.1 b in
  let whole := parseTextChunk P st (a ++ b) in
  whole.2 = first.2 ++ second.2
  /\ textBuffer whole.1 = textBuffer second.1.
Proof.
  cbv zeta.
  set (sta := Build_TextParser (currentCodeBlock st) (currentLanguage st)
                (parsedCommands st) (textBuffer st ++ a)).
  set (fuel := S (String.length ((textBuffer st ++ a) ++ b))).
  assert (Hfirst : parseTextChunk P st a = parseTextChunk_loop P fuel sta []).
  { change (parseTextChunk P st a)
      with (parseTextChunk_loop P (S (String.length (textBuffer sta))) sta []).
    symmetry. apply (loop_fuel fuel sta []). unfold fuel, sta. cbn [textBuffer].
    rewrite (length_append (textBuffer st ++ a) b). lia. }
  rewrite !Hfirst.
  set (first := parseTextChunk_loop P fuel sta []).
  set (stc := Build_TextParser (currentCodeBlock first.1) (currentLanguage first.1)
                (parsedCommands first.1) (textBuffer first.1 ++ b)).
  set (stb := Build_TextParser (currentCodeBlock st) (currentLanguage st)
                (parsedCommands st) (textBuffer st ++ a ++ b)).
  assert (Hle : (String.length (textBuffer first.1)
                 <= String.length (textBuffer st ++ a))%nat)
    by apply (loop_length fuel sta []).
  assert (Hsecond : parseTextChunk P first.1 b = parseTextChunk_loop P fuel stc []).
  { change (parseTextChunk P first.1 b)
      with (parseTextChunk_loop P (S (String.length (textBuffer stc))) stc []).
    symmetry. apply (loop_fuel fuel stc []). unfold fuel, stc. cbn [textBuffer].
    rewrite (length_append (textBuffer st ++ a) b), (length_append _ b). lia. }
  assert (Hwhole : parseTextChunk P st (a ++ b) = parseTextChunk_loop P fuel stb []).
  { change (parseTextChunk P st (a ++ b))
      with (parseTextChunk_loop P (S (String.length (textBuffer stb))) stb []).
    unfold fuel, stb. cbn [textBuffer]. now rewrite append_assoc. }
  rewrite Hsecond, Hwhole.
  destruct (loop_split fuel sta [] b stb stc) as [Hbuf Hcmds].
  - unfold sta, fuel. cbn [textBuffer]. lia.
  - unfold stb, sta. cbn [textBuffer]. now rewrite append_assoc.
  - reflexivity.
  - fold first in Hbuf, Hcmds. rewrite (loop_acc fuel stc first.2) in Hbuf, Hcmds.
    cbn [fst snd] in Hbuf, Hcmds. split; assumption.
Qed.

End TextParserStreams.

(** ** The fenced-text parser: what is emitted, the end of the stream *)

Section TextParserEnd.

Variable P : Platform.

Lemma parseCodeBlock_valid codeContent language :
  Forall (fun command => isValidCommand command = true)
         (parseCodeBlock P codeContent language).
Proof.
  unfold parseCodeBlock.
  destruct (negb (allowed_language language)); [constructor|].
  destruct (String.prefix "[" (trim codeContent)).
  { destruct (JSON_parse P codeContent) as [[| | | | |items|]|]; try constructor.
    apply Forall_forall. intros command Hin.
    apply list_elem_of_filter in Hin as [Hvalid _].
    now apply Is_true_true. }
  destruct (String.prefix "{" (trim codeContent)).
  { destruct (JSON_parse P codeContent) as [data|]; [|constructor].
    destruct (isValidCommand data) eqn:E; repeat constructor. exact E. }
  cbv zeta. induction (filter _ (split_lines codeContent)) as [|line lines IH];
    [constructor|].
  cbn [flat_map]. apply Forall_app. split; [|exact IH].
  destruct (JSON_parse P (trim line)) as [item|]; [|constructor].
  destruct (isValidCommand item) eqn:E; repeat constructor. exact E.
Qed.

Lemma loop_valid fuel : forall st newCommands,
  Forall (fun command => isValidCommand command = true) newCommands ->
  Forall (fun command => isValidCommand command = true)
         (parseTextChunk_loop P fuel st newCommands).2.
Proof.
  induction fuel as [|fuel IH]; intros st newCommands H; [exact H|].
  rewrite loop_step.
  destruct (indexOf fence (textBuffer st)) as [i|]; [|exact H].
  destruct (indexOf fence (substring_from (i + 3) (textBuffer st))) as [j|].
  - cbv zeta. apply IH, Forall_app. split; [exact H | apply parseCodeBlock_valid].
  - cbv zeta. now rewrite (proj2 (loop_open_buffer st newCommands i _)).
Qed.

(** X18. Whatever the text, every command [parseTextChunk] or [flush] returns
    passes [isValidCommand]: it is an object with a non-empty string for
    its name and a truthy [arguments]. *)
Theorem text_commands_are_valid (st : TextParser) (textChunk : string) :
  Forall (fun command => isValidCommand command = true
            /\ exists name arguments,
                 get_prop command "name" = Return (JStr name) /\ name <> ""
                 /\ get_prop command "arguments" = Return arguments
                 /\ truthy arguments = true)
         ((parseTextChunk P st textChunk).2 ++ (TextParser_flush P st).2).
Proof.
  assert (Hvalid : forall command, isValidCommand command = true ->
            exists name arguments,
              get_prop command "name" = Return (JStr name) /\ name <> ""
              /\ get_prop command "arguments" = Return arguments
              /\ truthy arguments = true).
  { intros command H. unfold isValidCommand in H.
    destruct (negb (truthy command) || negb (typeof_object command)); [discriminate|].
    destruct (get_prop command "name") as [name|]; [|discriminate].
    destruct (get_prop command "arguments") as [arguments|]; [|discriminate].
    destruct (negb (truthy name) || negb (is_string name)) eqn:E; [discriminate|].
    apply orb_false_elim in E as [E1 E2].
    destruct name as [| | | |name| |]; try discriminate.
    exists name, arguments. repeat split; [|exact H].
    intros ->. discriminate. }
  assert (Hall : Forall (fun command => isValidCommand command = true)
                   ((parseTextChunk P st textChunk).2 ++ (TextParser_flush P st).2)).
  { apply Forall_app. split.
    - apply loop_valid. constructor.
    - unfold TextParser_flush. cbn [snd].
      destruct (currentCodeBlock st); [|constructor].
      destruct (nonempty (textBuffer st)); [|constructor].
      cbv zeta. destruct (nonempty _); [|constructor].
      destruct (currentLanguage st); [apply parseCodeBlock_valid | constructor]. }
  eapply Forall_impl; [exact Hall|]. intros command H. split; [exact H | auto].
Qed.

Lemma length_toLowerCase s : String.length (toLowerCase s) = String.length s.
Proof. induction s as [|c s IH]; cbn; [reflexivity | now rewrite IH]. Qed.

Lemma nonempty_app_fence a b : nonempty (a ++ fence ++ b) = true.
Proof. destruct a; reflexivity. Qed.

(** X19. A block whose closing fence never came: [parseTextChunk] records where
    it opens and its language, emits nothing and keeps the text; [flush]
    then reads the commands from what follows the language line, as if the
    block had been closed there, and leaves a new parser. *)
Theorem flush_reads_the_open_block (pre lang body : string) :
  indexOf fence (pre ++ fence ++ lang ++ nl ++ body) = Some (String.length pre) ->
  indexOf fence (lang ++ nl ++ body) = None ->
  all_word lang = true ->
  lang <> "" ->
  exists st1,
    parseTextChunk P new_TextParser (pre ++ fence ++ lang ++ nl ++ body) = (st1, [])
    /\ currentCodeBlock st1 = Some (String.length pre)
    /\ currentLanguage st1 = Some (toLowerCase lang)
    /\ textBuffer st1 = (pre ++ fence ++ lang ++ nl ++ body)%string
    /\ TextParser_flush P st1
       = (new_TextParser,
          if nonempty (trim body)
          then parseCodeBlock P (trim body) (toLowerCase lang)
          else []).
Proof.
  intros Hopen Hnone Hword Hlang.
  set (text := (pre ++ fence ++ lang ++ nl ++ body)%string) in *.
  assert (Hrest : drop_chars (String.length pre + 3) text
                  = (lang ++ nl ++ body)%string).
  { unfold text. change 3%nat with (String.length fence).
    rewrite <- length_append, <- (append_assoc pre fence).
    apply drop_chars_app. }
  assert (Hbody : drop_chars (String.length pre + (String.length (toLowerCase lang) + 4))
                    text = body).
  { unfold text. rewrite length_toLowerCase.
    replace (String.length pre + (String.length lang + 4))%nat
      with (String.length (((pre ++ fence) ++ lang) ++ nl))
      by (rewrite !length_append; cbn [String.length fence nl]; lia).
    rewrite <- (append_assoc pre fence), <- (append_assoc (pre ++ fence) lang),
      <- (append_assoc ((pre ++ fence) ++ lang) nl).
    apply drop_chars_app. }
  eexists. split; [|split; [|split; [|split]]].
  - unfold parseTextChunk. cbn [textBuffer new_TextParser currentCodeBlock
      currentLanguage parsedCommands].
    change ("" ++ text)%string with text.
    rewrite loop_step. cbn [textBuffer currentCodeBlock parsedCommands].
    rewrite Hopen. unfold substring_from. rewrite Hrest, Hnone. cbv zeta.
    rewrite match_language_line by exact Hword. reflexivity.
  - reflexivity.
  - reflexivity.
  - reflexivity.
  - unfold TextParser_flush.
    cbn [currentCodeBlock currentLanguage parsedCommands textBuffer].
    unfold text at 1. rewrite nonempty_app_fence. fold text.
    assert (Hne : nonempty (toLowerCase lang) = true)
      by (destruct lang; [congruence | reflexivity]).
    cbn [fst truthy_str]. rewrite Hne. cbv zeta. unfold substring_from.
    rewrite Hbody. unfold new_TextParser.
    destruct (nonempty (trim body)); reflexivity.
Qed.

End TextParserEnd.

(** * The properties on concrete instructions *)

Import Example.

(** C1 as stated fails: on an instruction that names no tool, and on one
    whose arguments are not JSON, [executeToolCall] raises instead of
    returning an envelope. *)
Lemma executeToolCall_unknown_tool_raises :
  executeToolCall Host.platform unknown_tool new_DOMManager
    = (new_DOMManager, Throw (Error "Unknown tool: nope"))
  /\ executeToolCall Host.platform malformed new_DOMManager
     = (new_DOMManager, Throw (Error "Invalid JSON arguments: {bad"))
  /\ ~ (exists dm' r,
          executeToolCall Host.platform unknown_tool new_DOMManager = (dm', Return r))
  /\ ~ (exists dm' r,
          executeToolCall Host.platform malformed new_DOMManager = (dm', Return r)).
Proof.
  assert (H1 : executeToolCall Host.platform unknown_tool new_DOMManager
               = (new_DOMManager, Throw (Error "Unknown tool: nope")))
    by (vm_compute; reflexivity).
  assert (H2 : executeToolCall Host.platform malformed new_DOMManager
               = (new_DOMManager, Throw (Error "Invalid JSON arguments: {bad")))
    by (vm_compute; reflexivity).
  split; [exact H1|]. split; [exact H2|].
  split; intros (dm' & r & Hr); [rewrite H1 in Hr | rewrite H2 in Hr]; discriminate.
Qed.

Lemma executeToolCall_raises_executeToolCalls_captures_witness :
  executeToolCall Host.platform unknown_tool new_DOMManager
    = (new_DOMManager, Throw (Error "Unknown tool: nope"))
  /\ executeToolCall Host.platform malformed new_DOMManager
       = (new_DOMManager, Throw (Error "Invalid JSON arguments: {bad"))
  /\ executeToolCalls Host.platform [unknown_tool] new_DOMManager
       = (new_DOMManager, Return [Failure "Unknown tool: nope" unknown_tool]).
Proof.
  destruct (executeToolCall_raises_executeToolCalls_captures
              Host.platform unknown_tool new_DOMManager)
    as (Hbatch & _ & Hunknown & _).
  destruct (executeToolCall_raises_executeToolCalls_captures
              Host.platform malformed new_DOMManager)
    as (_ & _ & _ & Hbad).
  split; [apply (Hunknown (JStr "nope")); reflexivity|].
  split; [apply (Hbad (JStr "h") Tool_h "{bad"); reflexivity|].
  rewrite Hbatch, (Hunknown (JStr "nope")) by reflexivity. reflexivity.
Defined.

Lemma rename_leaves_children_behind_witness :
  exists els',
    DOMManager_updateElement Host.platform "p" (JObj [("id", JStr "q")])
      (elements parent_and_child) = (els', Return tt)
    /\ els' !! "p" = None
    /\ (exists iq, els' !! "q" = Some iq /\ node iq = div_node /\ parentId iq = "root")
    /\ (exists ic', els' !! "c" = Some ic' /\ parentId ic' = "p")
    /\ I1 els' = false.
Proof.
  apply (rename_leaves_children_behind Host.platform (elements parent_and_child)
           "p" "q" "c"
           {| node := div_node; parentId := "root"; children := ["c"] |}
           {| node := div_node; parentId := "p"; children := [] |});
    try discriminate; vm_compute; reflexivity.
Defined.

(** The same rename as three instructions through the dispatcher: all
    succeed, and the store they leave breaks I1. *)
Lemma rename_through_the_dispatcher :
  exists dm' results,
    executeToolCalls Host.platform
      [create JNull "div" "p"; create (JStr "p") "div" "c";
       instruction "updateElement"
         (JObj [("elementId", JStr "p"); ("props", JObj [("id", JStr "q")])])]
      new_DOMManager = (dm', Return results)
    /\ map success results = [true; true; true]
    /\ elements dm' !! "p" = None
    /\ parentId <$> elements dm' !! "c" = Some "p"
    /\ I1 (elements dm') = false.
Proof.
  eexists _, _. split; [vm_compute; reflexivity|].
  vm_compute. repeat split.
Qed.

(** C3 as stated fails: re-creating the live id "X" with "X" as its parent
    leaves "X" with the child set {"X"}, not the empty one; and re-creating
    it with a tag the DOM rejects removes the old "X" and installs
    nothing. *)
Lemma createElement_under_itself_example :
  (exists dm',
     createElement Host.platform "X" "div" (JObj [("id", JStr "X")]) one_element
       = (dm', Return "X")
     /\ elements dm' !! "X"
        = Some {| node := div_node; parentId := "X"; children := ["X"] |}
     /\ ~ (exists info, elements dm' !! "X" = Some info /\ children info = [])
     /\ (forall depth,
           removeElement_rec depth "X" (elements dm') =
             (elements dm', Throw (RangeError "Maximum call stack size exceeded"))))
  /\ (exists dm' e,
        createElement Host.platform "root" "no tag" (JObj [("id", JStr "X")])
          one_element = (dm', Throw e)
        /\ elements dm' !! "X" = None).
Proof.
  split; [|eexists _, _; split; vm_compute; reflexivity].
  destruct (createElement_under_itself Host.platform one_element
              (fst (removeElement Host.platform "X" one_element)) "X" "div"
              (JObj [("id", JStr "X")]) div_node div_node)
    as (dm' & Hrun & Hlook & Hloop);
    try discriminate; try (vm_compute; reflexivity).
  { exists {| node := div_node; parentId := "root"; children := [] |}.
    vm_compute. reflexivity. }
  exists dm'. split; [exact Hrun|]. split; [exact Hlook|]. split; [|exact Hloop].
  intros (info & Hinfo & Hempty). rewrite Hlook in Hinfo.
  injection Hinfo as <-. discriminate Hempty.
Qed.

Lemma createElement_reuses_id_witness :
  exists dm' els1,
    removeElement_rec 1000 "p" (elements parent_and_child) = (els1, Return tt)
    /\ els1 !! "p" = None /\ els1 !! "c" = None
    /\ createElement Host.platform "root" "div" (JObj [("id", JStr "p")])
         parent_and_child = (dm', Return "p")
    /\ elements dm' !! "p"
       = Some {| node := div_node; parentId := "root"; children := [] |}
    /\ elements dm' !! "c" = None.
Proof.
  destruct (createElement_reuses_id Host.platform parent_and_child "p" "root" "div"
              (JObj [("id", JStr "p")])
              {| node := div_node; parentId := "root"; children := ["c"] |}
              div_node div_node)
    as (dm' & els1 & Hrm & Hbelow & Hrun & _ & Hnew & Hgone & _);
    try discriminate; try (vm_compute; reflexivity).
  assert (Hc : reach (elements parent_and_child) "p" "c").
  { apply (reach_child _ "p"
             {| node := div_node; parentId := "root"; children := ["c"] |} "c");
      [vm_compute; reflexivity | apply list_elem_of_singleton; reflexivity | constructor]. }
  exists dm', els1. split; [exact Hrm|].
  split; [apply Hbelow; constructor|]. split; [apply Hbelow, Hc|].
  split; [exact Hrun|]. split; [exact Hnew|]. apply Hgone; [exact Hc | discriminate].
Defined.


Lemma retired_slot_never_emits_again_witness :
  exists st' out,
    collect (parseChunk Host.platform) new_CommandParser
      [whole_fragment; whole_fragment] = (st', out)
    /\ length out = 1%nat
    /\ NoDup (map slot out)
    /\ toolCallKey 0 ∈ completedToolCalls st'.
Proof.
  assert (Hfresh : buffer_ok new_CommandParser) by (intros k b H; discriminate H).
  destruct (retired_slot_never_emits_again Host.platform new_CommandParser
              [whole_fragment; whole_fragment] Hfresh) as [_ Hrun].
  eexists _, _. split; [vm_compute; reflexivity|].
  split; [reflexivity|].
  edestruct Hrun as (Hnd & Hin & _); [vm_compute; reflexivity|].
  split; [exact Hnd|]. apply (Hin _ ltac:(apply list_elem_of_singleton; reflexivity)).
Defined.

Lemma fenced_block_split_in_two_witness :
  exists st1 st2,
    parseTextChunk Host.platform new_TextParser
      (fence ++ "render" ++ nl ++ first_half) = (st1, [])
    /\ parseTextChunk Host.platform st1 (second_half ++ fence) = (st2, [create_command])
    /\ textBuffer st2 = ""
    /\ currentCodeBlock st2 = None.
Proof.
  apply (fenced_block_split_in_two Host.platform "render" first_half second_half
           [create_command] create_command); vm_compute; reflexivity.
Defined.


Lemma h_rejects_invalid_tagName_witness :
  h Host.platform JNull (JStr "") (JObj []) new_DOMManager
    = (new_DOMManager, Throw (Error "tagName must be a non-empty string"))
  /\ executeToolCalls Host.platform
       [instruction "h" (JObj [("parentId", JNull); ("tagName", JStr "");
                               ("props", JObj [])])] new_DOMManager
     = (new_DOMManager,
        Return [Failure "tagName must be a non-empty string"
                  (instruction "h" (JObj [("parentId", JNull); ("tagName", JStr "");
                                          ("props", JObj [])]))]).
Proof.
  destruct (h_rejects_invalid_tagName Host.platform new_DOMManager
              JNull (JStr "") (JObj [])) as (Hh & _ & Hbatch); [reflexivity|].
  split; [exact Hh | exact Hbatch].
Defined.

Lemma appendText_split_witness :
  exists els1 els2 info2,
    DOMManager_appendText "X" "He" (elements one_element) = (els1, Return tt)
    /\ DOMManager_appendText "X" "llo" els1 = (els2, Return tt)
    /\ DOMManager_appendText "X" "Hello" (elements one_element) = (els2, Return tt)
    /\ els2 !! "X" = Some info2
    /\ textContent (node info2) = "Hello".
Proof.
  apply (appendText_split (elements one_element) "X" "He" "llo"
           {| node := div_node; parentId := "root"; children := [] |}).
  vm_compute. reflexivity.
Defined.

Lemma missing_text_is_empty_string_witness :
  let call name a := executeToolCall Host.platform (instruction name a) one_element in
  call "setText" (JObj [("elementId", JStr "X")])
    = call "setText" (JObj [("elementId", JStr "X"); ("text", JStr "")])
  /\ call "appendText" (JObj [("elementId", JStr "X"); ("text", JNull)])
     = (one_element, Return (success_result "X")).
Proof.
  destruct (missing_text_is_empty_string Host.platform one_element "X"
              {| node := div_node; parentId := "root"; children := [] |}
              (JObj [("elementId", JStr "X")]) JUndefined)
    as (Hset & _); try discriminate; try (vm_compute; reflexivity).
  destruct (missing_text_is_empty_string Host.platform one_element "X"
              {| node := div_node; parentId := "root"; children := [] |}
              (JObj [("elementId", JStr "X"); ("text", JNull)]) JNull)
    as (_ & _ & _ & Happend); try discriminate; try (vm_compute; reflexivity).
  split; [exact Hset | exact Happend].
Defined.

Lemma setText_then_appendText_witness :
  exists els2 info2,
    DOMManager_setText "X" "abcd" (elements one_element) = (els2, Return tt)
    /\ els2 !! "X" = Some info2
    /\ textContent (node info2) = "abcd".
Proof.
  destruct (setText_then_appendText (elements one_element) "X" "ab" "cd"
              {| node := div_node; parentId := "root"; children := [] |})
    as (els1 & els2 & _ & _ & Hwhole & _ & info2 & Hlive & Htext);
    [vm_compute; reflexivity|].
  exists els2, info2. split; [exact Hwhole|]. split; [exact Hlive | exact Htext].
Defined.

Lemma absent_target_fails_except_removal_witness :
  executeToolCalls Host.platform
    [instruction "setText" (JObj [("elementId", JStr "gone"); ("text", JStr "hi")])]
    one_element
  = (one_element,
     Return [Failure ("Element with id " ++ dquote ++ "gone" ++ dquote ++ " not found")
               (instruction "setText"
                  (JObj [("elementId", JStr "gone"); ("text", JStr "hi")]))])
  /\ executeToolCalls Host.platform
       [instruction "removeElement" (JObj [("elementId", JStr "gone")])] one_element
     = (one_element,
        Return [Success (success_result "gone")
                  (instruction "removeElement" (JObj [("elementId", JStr "gone")]))]).
Proof.
  destruct (absent_target_fails_except_removal Host.platform one_element "gone"
              (JObj []) (JStr "hi"))
    as (_ & HsetText & _ & Hremove);
    [vm_compute; reflexivity | discriminate | discriminate |].
  split; [exact HsetText | exact Hremove].
Defined.

Lemma removeElement_keeps_store_ok_witness :
  exists els',
    removeElement_rec 2 "p" (elements parent_and_child) = (els', Return tt)
    /\ store_ok els' = true.
Proof.
  destruct (removeElement_keeps_store_ok 2 (elements parent_and_child) "p")
    as (els' & Hrun & Hok & _); [vm_compute; reflexivity..|].
  exists els'. split; [exact Hrun | exact Hok].
Defined.


Lemma rename_childless_keeps_store_ok_witness :
  exists els',
    DOMManager_updateElement Host.platform "c" (JObj [("id", JStr "d")])
      (elements parent_and_child) = (els', Return tt)
    /\ els' !! "c" = None
    /\ els' !! "d" = Some {| node := div_node; parentId := "p"; children := [] |}
    /\ store_ok els' = true.
Proof.
  destruct (rename_childless_keeps_store_ok Host.platform (elements parent_and_child)
              "c" "d" {| node := div_node; parentId := "p"; children := [] |}
              (JObj [("id", JStr "d")]) div_node)
    as (els' & Hrun & Hgone & Hlive & _ & _ & Hok);
    [vm_compute; reflexivity | vm_compute; reflexivity | reflexivity
    | vm_compute; reflexivity | discriminate | discriminate
    | reflexivity | vm_compute; reflexivity |].
  exists els'. split; [exact Hrun|]. split; [exact Hgone|].
  split; [exact Hlive | exact Hok].
Defined.

Lemma flushPendingToolCalls_without_batchSize_witness :
  (exists run,
     flushPendingToolCalls Host.platform 1 (Renderer_batchSize None)
       [create JNull "div" "X"] = Some run
     /\ run new_DOMManager = (new_DOMManager, Return []))
  /\ flushPendingToolCalls Host.platform 7 (StreamProcessor_batchSize (Some (Size 0)))
       [create JNull "div" "X"] = None.
Proof.
  destruct (flushPendingToolCalls_without_batchSize Host.platform
              [create JNull "div" "X"] new_DOMManager) as (Hunset & Hzero & _).
  split; [exact Hunset|]. apply Hzero. discriminate.
Defined.

Lemma fragments_are_reassembled_witness :
  exists st',
    collect (parseChunk_delta Host.platform) new_CommandParser
      (fragments 0 (Some "call_0") "setText"
         (json_text "{'elementId':") [json_text "'X','te"; json_text "xt':'hi'}"])
    = (st', [{| c_id := Some "call_0"; c_name := "setText";
                c_arguments := json_text "{'elementId':'X','text':'hi'}";
                c_index := 0 |}])
    /\ toolCallKey 0 ∈ completedToolCalls st'
    /\ assoc_get (toolCallKey 0) (toolCallBuffer st') = None.
Proof.
  destruct (fragments_are_reassembled Host.platform new_CommandParser 0
              (Some "call_0") "setText" (json_text "{'elementId':")
              [json_text "'X','te"; json_text "xt':'hi'}"])
    as (st' & Hrun & Hdone & Hgone & _).
  - apply not_elem_of_empty.
  - reflexivity.
  - reflexivity.
  - repeat constructor.
  - intros k Hk. cbn [length] in Hk.
    destruct k as [|[|[|k]]]; [lia | vm_compute; reflexivity.. | lia].
  - vm_compute; reflexivity.
  - vm_compute; reflexivity.
  - exists st'. split; [exact Hrun|]. split; [|exact Hgone].
    rewrite Hdone. apply elem_of_union_l, elem_of_singleton. reflexivity.
Defined.

Lemma flush_reads_the_open_block_witness :
  exists st1,
    parseTextChunk Host.platform new_TextParser
      ("Here: " ++ fence ++ "JSON" ++ nl
       ++ json_text "{'name':'create','arguments':{'parentId':null,'label':'div'}}")
    = (st1, [])
    /\ currentLanguage st1 = Some "json"
    /\ TextParser_flush Host.platform st1 = (new_TextParser, [create_command]).
Proof.
  destruct (flush_reads_the_open_block Host.platform "Here: " "JSON"
              (json_text "{'name':'create','arguments':{'parentId':null,'label':'div'}}"))
    as (st1 & Hrun & _ & Hlang & _ & Hflush);
    [vm_compute; reflexivity | vm_compute; reflexivity | reflexivity
    | discriminate |].
  exists st1. split; [exact Hrun|]. split; [exact Hlang|].
  rewrite Hflush. vm_compute. reflexivity.
Defined.


Lemma updateElement_without_rename_keeps_the_tree_witness :
  exists els',
    DOMManager_updateElement Host.platform "p" (JObj [("className", JStr "box")])
      (elements parent_and_child) = (els', Return tt)
    /\ store_ok els' = true
    /\ els' !! "c" = elements parent_and_child !! "c".
Proof.
  eexists. split; [vm_compute; reflexivity|].
  edestruct (updateElement_without_rename_keeps_the_tree Host.platform
               (elements parent_and_child) "p" (JObj [("className", JStr "box")]))
    as (Hother & _ & _ & Hok).
  - intros idv H. injection H as <-. now left.
  - vm_compute. reflexivity.
  - split; [apply Hok; vm_compute; reflexivity | apply Hother; discriminate].
Defined.
